(** * Quest Helper extraction pipeline (scripts/parse-quest-helper.ts)

    A shallow embedding of the build-time script that turns Quest Helper
    Java sources into quest records, and the properties of it that the
    specification states.  Further properties of the script follow them,
    with those of three helpers outside it: [parseName] and
    [parseIdsFromCell] of scripts/parse-wiki-ids.ts and [clampWorldPoint]
    of src/util/Coordinates.tsx.

    Texts.  A JavaScript string is a sequence of UTF-16 code units.  The
    embedding keeps the code units below 256 and represents each of them by
    an [ascii]; a text is a [list ascii].  Character classes are the ones of
    the ECMAScript regular expressions ([\s] contains the no-break space
    160); the two case conversions are exact on the 7-bit range and leave
    the other code units alone.

    Numbers.  [parseInt] results are kept as [jsnum]: not-a-number, an
    infinity (a value beyond the range of the doubles), or a finite value
    carried by its exact decimal value (the engine rounds it to the nearest
    double, which is an integer again). *)

From Stdlib Require Import String Ascii ZArith Lia Bool Arith PeanoNat List.
Import ListNotations.
Open Scope list_scope.

Set Implicit Arguments.

(* ================================================================== *)
(** * Part I: the model *)
(* ================================================================== *)

(** ** Texts and characters *)

Definition text := list ascii.

Definition txt (s : string) : text := list_ascii_of_string s.
Arguments txt s%_string.

Definition code (c : ascii) : nat := nat_of_ascii c.

Definition chr_eq (a : ascii) : ascii -> bool := fun c => Ascii.eqb c a.

Definition in_range (lo hi : nat) (c : ascii) : bool :=
  (lo <=? code c) && (code c <=? hi).

Definition is_digit : ascii -> bool := in_range 48 57.
Definition is_upper : ascii -> bool := in_range 65 90.
Definition is_lower : ascii -> bool := in_range 97 122.
Definition is_alpha (c : ascii) : bool := is_upper c || is_lower c.

(** [\w] *)
Definition is_word (c : ascii) : bool :=
  is_alpha c || is_digit c || chr_eq "_" c.

(** [\s]: tab, line feed, vertical tab, form feed, carriage return, space,
    no-break space. *)
Definition is_space (c : ascii) : bool :=
  in_range 9 13 c || (code c =? 32) || (code c =? 160).

(** [[a-zA-Z_]] and [[a-zA-Z0-9_]] *)
Definition is_ident_start (c : ascii) : bool := is_alpha c || chr_eq "_" c.
Definition is_ident_char : ascii -> bool := is_word.

(** a negated class [[^c]] *)
Definition not_chr (a : ascii) : ascii -> bool := fun c => negb (Ascii.eqb c a).

Fixpoint text_eqb (a b : text) : bool :=
  match a, b with
  | [], [] => true
  | x :: a', y :: b' => Ascii.eqb x y && text_eqb a' b'
  | _, _ => false
  end.

(** JavaScript truthiness of a string: the empty string is falsy. *)
Definition truthy (s : text) : bool :=
  match s with [] => false | _ :: _ => true end.

(** [s.slice(a, b)] for [0 <= a], [0 <= b]. *)
Definition slice (s : text) (a b : nat) : text := firstn (b - a) (skipn a s).

Definition toUpperChar (c : ascii) : ascii :=
  if is_lower c then ascii_of_nat (code c - 32) else c.
Definition toLowerChar (c : ascii) : ascii :=
  if is_upper c then ascii_of_nat (code c + 32) else c.
Definition toUpperCase (s : text) : text := map toUpperChar s.
Definition toLowerCase (s : text) : text := map toLowerChar s.

(** ** Regular expressions

    In the comments a pattern of the script is quoted with [\x22] for the
    double quote and with a blank between a star and a closing parenthesis;
    the blank is not part of the pattern.

    The fragment of ECMAScript patterns the script uses.  Every quantifier
    [*], [+], [{3,}] of the script applies to a single character class, so
    [Star] takes a class; [?] is an alternative with the empty pattern.
    Groups are numbered as the engine numbers them. *)

Inductive regex : Type :=
| Eps : regex
| Chr : (ascii -> bool) -> regex
| Star : (ascii -> bool) -> regex
| Cat : regex -> regex -> regex
| Alt : regex -> regex -> regex
| Group : nat -> regex -> regex
| WordB : regex
| Bol : regex
| Eol : regex.

Declare Scope regex_scope.
Delimit Scope regex_scope with re.
Bind Scope regex_scope with regex.
Infix ";;" := Cat (at level 41, right associativity) : regex_scope.
Infix "<|>" := Alt (at level 51, right associativity) : regex_scope.

Fixpoint Lit_chars (s : text) : regex :=
  match s with
  | [] => Eps
  | c :: s' => Cat (Chr (chr_eq c)) (Lit_chars s')
  end.

(** a literal run of characters *)
Definition Lit (s : string) : regex := Lit_chars (txt s).
Arguments Lit s%_string.
(** [c+] *)
Definition Plus (p : ascii -> bool) : regex := Cat (Chr p) (Star p).
(** [r?] (greedy) *)
Definition Opt (r : regex) : regex := Alt r Eps.
(** [\s*], [\s+] *)
Definition ws : regex := Star is_space.
Definition ws1 : regex := Plus is_space.

(** The state of a match attempt: the text already consumed (latest
    character first), the text still ahead, and the captures so far. *)
Record mstate : Type := MState {
  seen : text;
  rest : text;
  caps : list (nat * text)
}.

Definition advance (c : ascii) (t : text) (st : mstate) : mstate :=
  MState (c :: seen st) t (caps st).

(** the text consumed between two states of one attempt *)
Definition consumed (st st' : mstate) : text :=
  firstn (length (rest st) - length (rest st')) (rest st).

Definition set_cap (i : nat) (v : text) (st : mstate) : mstate :=
  MState (seen st) (rest st) ((i, v) :: caps st).

Fixpoint assoc_nat (i : nat) (l : list (nat * text)) : option text :=
  match l with
  | [] => None
  | (j, v) :: l' => if Nat.eqb i j then Some v else assoc_nat i l'
  end.

Definition head_is (p : ascii -> bool) (s : text) : bool :=
  match s with [] => false | c :: _ => p c end.

(** [\b]: exactly one side is a word character. *)
Definition at_word_boundary (st : mstate) : bool :=
  xorb (head_is is_word (seen st)) (head_is is_word (rest st)).

Section Matcher.
Variable A : Type.

(** greedy [c*]: the longest run first, then shorter ones *)
Fixpoint star_match (p : ascii -> bool) (sn rs : text) (cp : list (nat * text))
         (k : mstate -> option A) : option A :=
  match rs with
  | c :: t =>
      if p c then
        match star_match p (c :: sn) t cp k with
        | Some x => Some x
        | None => k (MState sn rs cp)
        end
      else k (MState sn rs cp)
  | [] => k (MState sn rs cp)
  end.

(** backtracking matcher in continuation-passing style: [k] is the rest
    of the pattern; alternatives are tried left to right *)
Fixpoint rmatch (r : regex) (st : mstate) (k : mstate -> option A) : option A :=
  match r with
  | Eps => k st
  | Chr p =>
      match rest st with
      | c :: t => if p c then k (advance c t st) else None
      | [] => None
      end
  | Star p => star_match p (seen st) (rest st) (caps st) k
  | Cat a b => rmatch a st (fun st' => rmatch b st' k)
  | Alt a b =>
      match rmatch a st k with
      | Some x => Some x
      | None => rmatch b st k
      end
  | Group i a => rmatch a st (fun st' => k (set_cap i (consumed st st') st'))
  | WordB => if at_word_boundary st then k st else None
  | Bol => match seen st with [] => k st | _ :: _ => None end
  | Eol => match rest st with [] => k st | _ :: _ => None end
  end.
End Matcher.

(** A successful match: [index], the matched text [m[0]], the captures and
    the end offset (the [lastIndex] of a global pattern). *)
Record rmatch_result : Type := MatchResult {
  m_index : nat;
  m_end : nat;
  m_text : text;
  m_caps : list (nat * text)
}.

(** [m[i]], [None] for a group that did not take part *)
Definition cap (m : rmatch_result) (i : nat) : option text := assoc_nat i (m_caps m).
(** [m[i]] of a group that always takes part in a match *)
Definition cap_str (m : rmatch_result) (i : nat) : text :=
  match cap m i with Some v => v | None => [] end.

Definition match_here (re : regex) (sn rs : text) : option rmatch_result :=
  let st := MState sn rs [] in
  match rmatch re st (fun st' => Some st') with
  | Some st' =>
      Some (MatchResult (length sn) (length (seen st')) (consumed st st') (caps st'))
  | None => None
  end.

(** leftmost match at or after the current position *)
Fixpoint search (re : regex) (sn rs : text) : option rmatch_result :=
  match match_here re sn rs with
  | Some m => Some m
  | None =>
      match rs with
      | c :: t => search re (c :: sn) t
      | [] => None
      end
  end.

(** [re.exec(input)] with [lastIndex = from] *)
Definition exec_from (re : regex) (input : text) (from : nat) : option rmatch_result :=
  if length input <? from then None
  else search re (rev (firstn from input)) (skipn from input).

(** [input.match(re)] for a pattern without the [g] flag *)
Definition exec (re : regex) (input : text) : option rmatch_result :=
  exec_from re input 0.

(** [re.test(input)] *)
Definition test (re : regex) (input : text) : bool :=
  match exec re input with Some _ => true | None => false end.

(** The loop [while ((m = re.exec(input)) !== null)] of a global pattern:
    each search starts where the previous match ended.  No global pattern
    of the script matches the empty text, so every round moves forward and
    [S (length input)] rounds are enough (lemma [exec_loop_fuel]). *)
Fixpoint exec_loop (fuel : nat) (re : regex) (input : text) (from : nat)
  : list rmatch_result :=
  match fuel with
  | O => []
  | S fuel' =>
      match exec_from re input from with
      | Some m => m :: exec_loop fuel' re input (m_end m)
      | None => []
      end
  end.

Definition exec_all (re : regex) (input : text) : list rmatch_result :=
  exec_loop (S (length input)) re input 0.

(** ** extractMethodBody *)

(** [(?:@Override\s+)?(?:public|protected)\s+(?:\w+(?:<[^>]+>)?\s+)?NAME\s*\([^)]*\)\s*\{]
    The method name is spliced into the pattern; every caller passes a plain
    identifier, which the pattern reads as a literal. *)
Definition methodRegex (methodName : text) : regex :=
  (Opt (Lit "@Override" ;; ws1)
   ;; (Lit "public" <|> Lit "protected") ;; ws1
   ;; Opt (Plus is_word ;; Opt (Lit "<" ;; Plus (not_chr ">") ;; Lit ">") ;; ws1)
   ;; Lit_chars methodName ;; ws ;; Lit "(" ;; Star (not_chr ")") ;; Lit ")"
   ;; ws ;; Lit "{")%re.

(** The brace scan: from position [i] at the given [depth], returns the
    position after the character that brought the depth to zero, or the
    length of the text when the depth never gets there. *)
Fixpoint scan_braces (s : text) (depth : nat) (i : nat) : nat :=
  match depth with
  | O => i
  | S d =>
      match s with
      | [] => i
      | c :: s' =>
          if Ascii.eqb c "{" then scan_braces s' (S depth) (S i)
          else if Ascii.eqb c "}" then scan_braces s' d (S i)
          else scan_braces s' depth (S i)
      end
  end.

Definition extractMethodBody (source methodName : text) : option text :=
  match exec (methodRegex methodName) source with
  | None => None
  | Some m =>
      let start := m_index m + length (m_text m) in
      let i := scan_braces (skipn start source) 1 start in
      Some (slice source start (i - 1))
  end.


(** ** Strings and numbers of the host language *)

Definition dquote : ascii := ascii_of_nat 34.
Definition backslash : ascii := ascii_of_nat 92.

Fixpoint drop_while (p : ascii -> bool) (s : text) : text :=
  match s with
  | c :: t => if p c then drop_while p t else s
  | [] => []
  end.

Fixpoint take_while (p : ascii -> bool) (s : text) : text :=
  match s with
  | c :: t => if p c then c :: take_while p t else []
  | [] => []
  end.

(** [s.trim()] *)
Definition trim (s : text) : text :=
  rev (drop_while is_space (rev (drop_while is_space s))).

(** [s.split(c)] for a one-character separator *)
Fixpoint split_chr (c : ascii) (s : text) : list text :=
  match s with
  | [] => [[]]
  | x :: t =>
      if Ascii.eqb x c then [] :: split_chr c t
      else match split_chr c t with
           | w :: ws' => (x :: w) :: ws'
           | [] => [[x]]
           end
  end.

(** [s.split(re)] for a pattern without groups: [p] is the start of the
    current piece and [q] the position tried next; a match that ends at [p]
    is passed over.  The rounds granted are enough (lemma
    [split_loop_fuel]). *)
Fixpoint split_loop (fuel : nat) (re : regex) (input : text) (p q : nat) : list text :=
  match fuel with
  | O => [skipn p input]
  | S fuel' =>
      if length input <=? q then [skipn p input]
      else
        match match_here re (rev (firstn q input)) (skipn q input) with
        | None => split_loop fuel' re input p (S q)
        | Some m =>
            let e := Nat.min (m_end m) (length input) in
            if e =? p then split_loop fuel' re input p (S q)
            else slice input p q :: split_loop fuel' re input e e
        end
  end.

Definition split_re (re : regex) (input : text) : list text :=
  match input with
  | [] => match match_here re [] [] with Some _ => [] | None => [[]] end
  | _ :: _ => split_loop (S (2 * length input)) re input 0 0
  end.

(** [s.replace(re, f)] for a global pattern [re] that matches no empty text *)
Fixpoint replace_build (f : rmatch_result -> text) (input : text) (pos : nat)
         (ms : list rmatch_result) : text :=
  match ms with
  | [] => skipn pos input
  | m :: ms' => slice input pos (m_index m) ++ f m ++ replace_build f input (m_end m) ms'
  end.

Definition replace_all (re : regex) (f : rmatch_result -> text) (input : text) : text :=
  replace_build f input 0 (exec_all re input).

(** [arr.pop() ?? d] *)
Definition pop_or (d : text) (l : list text) : text := last l d.

(** [arr.includes(x)] and [set.has(x)] *)
Definition includes (l : list text) (x : text) : bool := existsb (text_eqb x) l.

(** Numbers as [parseInt] produces them. *)
Inductive jsnum : Type :=
| JNaN : jsnum
| JInf : bool -> jsnum      (* [true] for the negative infinity *)
| JNum : Z -> jsnum.

(** The least magnitude that round-to-nearest takes to an infinity: half
    way between the largest double and [2^1024]. *)
Definition double_overflow : Z := 2 ^ 1024 - 2 ^ 970.

Definition digit_value (c : ascii) : Z := Z.of_nat (code c - 48).

Definition digits_value (ds : text) : Z :=
  fold_left (fun acc c => 10 * acc + digit_value c)%Z ds 0%Z.

Definition to_number (neg : bool) (v : Z) : jsnum :=
  if (double_overflow <=? v)%Z then JInf neg
  else JNum (if neg then - v else v)%Z.

(** [parseInt(s, 10)]: leading white space, an optional sign, then the
    longest run of decimal digits; [NaN] when that run is empty. *)
Definition parseInt (s : text) : jsnum :=
  let s1 := drop_while is_space s in
  let '(neg, s2) :=
    match s1 with
    | c :: t =>
        if Ascii.eqb c "-" then (true, t)
        else if Ascii.eqb c "+" then (false, t)
        else (false, s1)
    | [] => (false, s1)
    end in
  match take_while is_digit s2 with
  | [] => JNaN
  | ds => to_number neg (digits_value ds)
  end.

(** A [Map] with text keys: the entries in insertion order; [set] on a key
    already present replaces the value in place. *)
Definition jsmap (V : Type) : Type := list (text * V).

Fixpoint map_get {V : Type} (m : jsmap V) (k : text) : option V :=
  match m with
  | [] => None
  | (k', v) :: m' => if text_eqb k k' then Some v else map_get m' k
  end.

Fixpoint map_set {V : Type} (m : jsmap V) (k : text) (v : V) : jsmap V :=
  match m with
  | [] => [(k, v)]
  | (k', v') :: m' =>
      if text_eqb k k' then (k', v) :: m' else (k', v') :: map_set m' k v
  end.

Definition map_has {V : Type} (m : jsmap V) (k : text) : bool :=
  match map_get m k with Some _ => true | None => false end.

(** ** The records of src/types/QuestData.ts *)

Record WorldPoint : Type := mkWorldPoint { x : jsnum; y : jsnum; plane : jsnum }.
Record ExperienceReward : Type := mkExperienceReward { skill : text; xp : jsnum }.
Record LampReward : Type := mkLampReward { skills : text; value : jsnum; quantity : jsnum }.
Record SkillRequirement : Type := mkSkillRequirement { skillName : text; level : jsnum }.
Record QuestStepWithPoint : Type :=
  mkStep { stepDescription : text; worldpoint : WorldPoint }.
Record QuestPanel : Type := mkPanel { panelName : text; steps : list QuestStepWithPoint }.
Record QuestData : Type := mkQuestData {
  name : text;
  questPoints : jsnum;
  experienceRewards : list ExperienceReward;
  lampRewards : option LampReward;
  skillRequirements : list SkillRequirement;
  questRequirements : list text;
  questPointRequirement : option jsnum;
  itemRequirements : list text;
  questSteps : list QuestPanel       (* the field [steps] of [QuestData] *)
}.

(** ** Names and locations *)

Definition QUEST_HELPER_RAW_BASE : text :=
  txt "https://raw.githubusercontent.com/Zoinkwiz/quest-helper/master/src/main/java/com/questhelper/helpers/quests".

(** [word.charAt(0).toUpperCase() + word.slice(1).toLowerCase()] *)
Definition capitalize (word : text) : text :=
  toUpperCase (firstn 1 word) ++ toLowerCase (skipn 1 word).

Definition displayNameToClassName (nm : text) : text :=
  concat (map capitalize
            (split_re ws1 (replace_all (Lit "'") (fun _ => []) nm))).

Definition classNameToFolder (nm : text) : text :=
  replace_all (Group 1 (Chr is_upper)) (fun m => toLowerCase (m_text m)) nm.

(** the replacement text ["$1 $2"] *)
Definition dollar1_space_dollar2 (m : rmatch_result) : text :=
  cap_str m 1 ++ txt " " ++ cap_str m 2.

Definition classNameToDisplayName (className : text) : text :=
  trim
    (replace_all (Group 1 (Plus is_upper) ;; Group 2 (Chr is_upper ;; Chr is_lower))
       dollar1_space_dollar2
       (replace_all (Group 1 (Chr is_lower) ;; Group 2 (Chr is_upper))
          dollar1_space_dollar2 className)).

Definition questFileUrl (displayName : text) : text :=
  let className := displayNameToClassName displayName in
  let folder := classNameToFolder className in
  QUEST_HELPER_RAW_BASE ++ txt "/" ++ folder ++ txt "/" ++ className ++ txt ".java".

(** ** Call-pattern extractors *)

Definition digits1 : regex := Plus is_digit.
Definition word1 : regex := Plus is_word.
(** [[a-zA-Z_][a-zA-Z0-9_]*] *)
Definition ident : regex := (Chr is_ident_start ;; Star is_ident_char)%re.
(** [/^[a-zA-Z_][a-zA-Z0-9_]*$/] *)
Definition identOnlyRegex : regex := (Bol ;; ident ;; Eol)%re.
Definition quote : regex := Chr (chr_eq dquote).
Definition not_quote : ascii -> bool := not_chr dquote.

(** [/new\s+QuestPointReward\s*\(\s*(\d+)\s*\)/] *)
Definition questPointRewardRegex : regex :=
  (Lit "new" ;; ws1 ;; Lit "QuestPointReward" ;; ws ;; Lit "(" ;; ws
   ;; Group 1 digits1 ;; ws ;; Lit ")")%re.

Definition parseQuestPoints (java : text) : jsnum :=
  match extractMethodBody java (txt "getQuestPointReward") with
  | None => JNum 0
  | Some body =>
      if negb (truthy body) then JNum 0
      else match exec questPointRewardRegex body with
           | Some m => parseInt (cap_str m 1)
           | None => JNum 0
           end
  end.

(** [/new\s+ExperienceReward\s*\(\s*Skill\.(\w+)\s*,\s*(\d+)\s*\)/g] *)
Definition experienceRewardRegex : regex :=
  (Lit "new" ;; ws1 ;; Lit "ExperienceReward" ;; ws ;; Lit "(" ;; ws
   ;; Lit "Skill." ;; Group 1 word1 ;; ws ;; Lit "," ;; ws
   ;; Group 2 digits1 ;; ws ;; Lit ")")%re.

Definition parseExperienceRewards (java : text) : list ExperienceReward :=
  match extractMethodBody java (txt "getExperienceRewards") with
  | None => []
  | Some body =>
      if negb (truthy body) then []
      else map (fun m => mkExperienceReward (cap_str m 1) (parseInt (cap_str m 2)))
               (exec_all experienceRewardRegex body)
  end.

(** [/(?:new\s+(?:LampReward|XpLampReward)|ItemReward\s*\(\s*\x22[^\x22]*[Ll]amp[^\x22]*\x22\s* )[^)]*\)/g] *)
Definition lampRegex : regex :=
  ((Lit "new" ;; ws1 ;; (Lit "LampReward" <|> Lit "XpLampReward")
    <|> Lit "ItemReward" ;; ws ;; Lit "(" ;; ws ;; quote ;; Star not_quote
        ;; Chr (fun c => chr_eq "L" c || chr_eq "l" c) ;; Lit "amp"
        ;; Star not_quote ;; quote ;; ws)
   ;; Star (not_chr ")") ;; Lit ")")%re.

Definition eq_or_colon (c : ascii) : bool := chr_eq "=" c || chr_eq ":" c.
Definition A_or_a (c : ascii) : bool := chr_eq "A" c || chr_eq "a" c.

(** [/skills?\s*[=:]\s*\x22([^\x22]+)\x22/] and [/\x22([^\x22]*[Aa]ny[^\x22]* )\x22/] *)
Definition lampSkillsRegex : regex :=
  (Lit "skill" ;; Opt (Lit "s") ;; ws ;; Chr eq_or_colon ;; ws
   ;; quote ;; Group 1 (Plus not_quote) ;; quote)%re.
Definition lampAnyRegex : regex :=
  (quote ;; Group 1 (Star not_quote ;; Chr A_or_a ;; Lit "ny" ;; Star not_quote)
   ;; quote)%re.
(** [/value\s*[=:]\s*(\d+)/] and [/(\d{3,})/] *)
Definition lampValueRegex : regex :=
  (Lit "value" ;; ws ;; Chr eq_or_colon ;; ws ;; Group 1 digits1)%re.
Definition lampDigits3Regex : regex :=
  Group 1 (Chr is_digit ;; Chr is_digit ;; Chr is_digit ;; Star is_digit)%re.
(** [/quantity\s*[=:]\s*(\d+)/] and [/,(\d+)\s*\)/] *)
Definition lampQuantityRegex : regex :=
  (Lit "quantity" ;; ws ;; Chr eq_or_colon ;; ws ;; Group 1 digits1)%re.
Definition lampLastArgRegex : regex :=
  (Lit "," ;; Group 1 digits1 ;; ws ;; Lit ")")%re.

(** [a ?? b] on two match attempts *)
Definition or_else {T : Type} (a b : option T) : option T :=
  match a with Some v => Some v | None => b end.

Definition parseLampRewards (java : text) : option LampReward :=
  match extractMethodBody java (txt "getItemRewards") with
  | None => None
  | Some body =>
      if negb (truthy body) then None
      else
        match map m_text (exec_all lampRegex body) with
        | [] => None
        | first :: _ =>
            let skillsMatch := or_else (exec lampSkillsRegex first) (exec lampAnyRegex first) in
            let valueMatch := or_else (exec lampValueRegex first) (exec lampDigits3Regex first) in
            let qtyMatch := or_else (exec lampQuantityRegex first) (exec lampLastArgRegex first) in
            Some (mkLampReward
                    (match skillsMatch with Some m => cap_str m 1 | None => txt "Any" end)
                    (match valueMatch with Some m => parseInt (cap_str m 1) | None => JNum 0 end)
                    (match qtyMatch with Some m => parseInt (cap_str m 1) | None => JNum 1 end))
        end
  end.

Definition skillEnumToDisplay (s : text) : text :=
  toUpperCase (firstn 1 s) ++ toLowerCase (skipn 1 s).

(** [/new\s+SkillRequirement\s*\(\s*Skill\.(\w+)\s*,\s*(\d+)/g] *)
Definition skillRequirementRegex : regex :=
  (Lit "new" ;; ws1 ;; Lit "SkillRequirement" ;; ws ;; Lit "(" ;; ws
   ;; Lit "Skill." ;; Group 1 word1 ;; ws ;; Lit "," ;; ws ;; Group 2 digits1)%re.
(** [/QuestRequirement\s*\(\s*QuestHelperQuest\.(\w+)/g] *)
Definition questRequirementRegex : regex :=
  (Lit "QuestRequirement" ;; ws ;; Lit "(" ;; ws ;; Lit "QuestHelperQuest."
   ;; Group 1 word1)%re.
(** [/new\s+QuestPointRequirement\s*\(\s*(\d+)\s*\)/] *)
Definition questPointRequirementRegex : regex :=
  (Lit "new" ;; ws1 ;; Lit "QuestPointRequirement" ;; ws ;; Lit "(" ;; ws
   ;; Group 1 digits1 ;; ws ;; Lit ")")%re.

(** [id.replace(/_/g, " ").replace(/\b\w/g, (c) => c.toUpperCase())] *)
Definition questEnumToDisplay (id : text) : text :=
  replace_all (WordB ;; Chr is_word) (fun m => toUpperCase (m_text m))
    (replace_all (Lit "_") (fun _ => txt " ") id).

(** the loop body [if (!out.includes(name)) out.push(name)] *)
Definition push_unique (out : list text) (nm : text) : list text :=
  if includes out nm then out else out ++ [nm].

Record GeneralRequirements : Type := mkGeneral {
  g_skillRequirements : list SkillRequirement;
  g_questRequirements : list text;
  g_questPointRequirement : option jsnum
}.

Definition parseGeneralRequirements (java : text) : GeneralRequirements :=
  match extractMethodBody java (txt "getGeneralRequirements") with
  | None => mkGeneral [] [] None
  | Some body =>
      if negb (truthy body) then mkGeneral [] [] None
      else
        mkGeneral
          (map (fun m => mkSkillRequirement (skillEnumToDisplay (cap_str m 1))
                                            (parseInt (cap_str m 2)))
               (exec_all skillRequirementRegex body))
          (fold_left (fun out m => push_unique out (questEnumToDisplay (cap_str m 1)))
                     (exec_all questRequirementRegex body) [])
          (match exec questPointRequirementRegex body with
           | Some m => Some (parseInt (cap_str m 1))
           | None => None
           end)
  end.

(** [/List\.of\s*\(\s*([^)]+)\)/] and [/Arrays\.asList\s*\(\s*([^)]+)\)/] *)
Definition listOfRegex : regex :=
  (Lit "List.of" ;; ws ;; Lit "(" ;; ws ;; Group 1 (Plus (not_chr ")")) ;; Lit ")")%re.
Definition asListRegex : regex :=
  (Lit "Arrays.asList" ;; ws ;; Lit "(" ;; ws ;; Group 1 (Plus (not_chr ")")) ;; Lit ")")%re.
(** [/(?:reqs\.add|\.add)\s*\(\s*([a-zA-Z_][a-zA-Z0-9_]* )\s*\)/g] *)
Definition addRegex : regex :=
  ((Lit "reqs.add" <|> Lit ".add") ;; ws ;; Lit "(" ;; ws ;; Group 1 ident ;; ws
   ;; Lit ")")%re.

(** [v.split(/\s+/).pop() ?? v] *)
Definition last_word (v : text) : text := pop_or v (split_re ws1 v).

Definition parseItemRequirementVarNames (java : text) : list text :=
  match extractMethodBody java (txt "getItemRequirements") with
  | None => []
  | Some body =>
      if negb (truthy body) then []
      else
        match or_else (exec listOfRegex body) (exec asListRegex body) with
        | Some listMatch =>
            let vars := map trim (split_chr "," (cap_str listMatch 1)) in
            filter (fun nm => truthy nm && test identOnlyRegex nm) (map last_word vars)
        | None => map (fun am => cap_str am 1) (exec_all addRegex body)
        end
  end.

(** ** setupRequirements: display strings and aliases *)

(** [/([a-zA-Z_][a-zA-Z0-9_]* )\s*=\s*new\s+ItemRequirement\s*\(\s*\x22([^\x22]* )\x22/g] *)
Definition itemRequirementRegex : regex :=
  (Group 1 ident ;; ws ;; Lit "=" ;; ws ;; Lit "new" ;; ws1 ;; Lit "ItemRequirement"
   ;; ws ;; Lit "(" ;; ws ;; quote ;; Group 2 (Star not_quote) ;; quote)%re.
(** [/([a-zA-Z_][a-zA-Z0-9_]* )\s*=\s*([a-zA-Z_][a-zA-Z0-9_]* )\s*\.(?:highlighted|alsoCheckBank)\s*\(\s*\)/g] *)
Definition aliasRegex : regex :=
  (Group 1 ident ;; ws ;; Lit "=" ;; ws ;; Group 2 ident ;; ws ;; Lit "."
   ;; (Lit "highlighted" <|> Lit "alsoCheckBank") ;; ws ;; Lit "(" ;; ws ;; Lit ")")%re.

(** What a call of [resolve] comes to: a display string, [undefined], or no
    return at all.  The recursion of the script is unbounded; [fuel] bounds
    its depth here and [StackOverflow] stands for a recursion that goes on
    past it (the engine raises a [RangeError]).  The stack of the engine is
    taken to be deep enough for every recursion that returns. *)
Inductive resolution : Type :=
| Resolved : text -> resolution
| Unresolved : resolution
| StackOverflow : resolution.

Fixpoint resolve (fuel : nat) (displayByVar alias : jsmap text) (nm : text) : resolution :=
  match fuel with
  | O => StackOverflow
  | S fuel' =>
      let via_alias :=
        match map_get alias nm with
        | Some target =>
            if truthy target then resolve fuel' displayByVar alias target
            else Unresolved
        | None => Unresolved
        end in
      match map_get displayByVar nm with
      | Some direct => if truthy direct then Resolved direct else via_alias
      | None => via_alias
      end
  end.

(** A chain of aliases that does not come back to a name it has passed
    visits each key of [alias] at most once: [S (length alias)] calls are
    enough for it (lemma [resolve_acyclic_returns]), and a recursion that
    needs more returns at no depth (lemma [resolve_overflow_never_returns]). *)
Definition resolve_depth (alias : jsmap text) : nat := S (length alias).

(** The outcome of a computation that may raise the [RangeError]. *)
Inductive completion (T : Type) : Type :=
| Normal : T -> completion T
| RangeError : completion T.
Arguments Normal {T} _.
Arguments RangeError {T}.

(** the loop [for (const [k] of alias)] *)
Fixpoint resolve_aliases (displayByVar alias : jsmap text) (keys : list text)
         (result : jsmap text) : completion (jsmap text) :=
  match keys with
  | [] => Normal result
  | k :: keys' =>
      match resolve (resolve_depth alias) displayByVar alias k with
      | StackOverflow => RangeError
      | Resolved resolved =>
          resolve_aliases displayByVar alias keys'
            (if truthy resolved then map_set result k resolved else result)
      | Unresolved => resolve_aliases displayByVar alias keys' result
      end
  end.

(** the part of [parseSetupRequirements] after the two maps are built *)
Definition setup_result (displayByVar alias : jsmap text) : completion (jsmap text) :=
  let result := fold_left (fun r kv => map_set r (fst kv) (snd kv)) displayByVar [] in
  resolve_aliases displayByVar alias (map fst alias) result.

Definition collect_pairs (ms : list rmatch_result) : jsmap text :=
  fold_left (fun mp m => map_set mp (cap_str m 1) (cap_str m 2)) ms [].

Definition parseSetupRequirements (java : text) : completion (jsmap text) :=
  match extractMethodBody java (txt "setupRequirements") with
  | None => Normal []
  | Some body =>
      if negb (truthy body) then Normal []
      else
        let displayByVar := collect_pairs (exec_all itemRequirementRegex body) in
        let alias := collect_pairs (exec_all aliasRegex body) in
        setup_result displayByVar alias
  end.

Fixpoint resolve_items (varNames : list text) (setupReqs : jsmap text)
         (seen_set out : list text) : list text :=
  match varNames with
  | [] => out
  | v :: vs =>
      match map_get setupReqs v with
      | Some display =>
          if truthy display && negb (includes seen_set display)
          then resolve_items vs setupReqs (seen_set ++ [display]) (out ++ [display])
          else resolve_items vs setupReqs seen_set out
      | None => resolve_items vs setupReqs seen_set out
      end
  end.

Definition resolveItemRequirements (varNames : list text) (setupReqs : jsmap text)
  : list text :=
  resolve_items varNames setupReqs [] [].

(** ** Panels and steps *)

Record PanelGrouping : Type := mkGrouping { g_panelName : text; stepVarNames : list text }.

(** [/(?:new\s+)?PanelDetails\s*\(\s*\x22([^\x22]+)\x22\s*,\s*(?:List\.of\s*\(([^)]+)\)|Arrays\.asList\s*\(([^)]+)\)|Collections\.singletonList\s*\(([^)]+)\))/g] *)
Definition panelRegex : regex :=
  (Opt (Lit "new" ;; ws1) ;; Lit "PanelDetails" ;; ws ;; Lit "(" ;; ws
   ;; quote ;; Group 1 (Plus not_quote) ;; quote ;; ws ;; Lit "," ;; ws
   ;; ((Lit "List.of" ;; ws ;; Lit "(" ;; Group 2 (Plus (not_chr ")")) ;; Lit ")")
       <|> (Lit "Arrays.asList" ;; ws ;; Lit "(" ;; Group 3 (Plus (not_chr ")")) ;; Lit ")")
       <|> (Lit "Collections.singletonList" ;; ws ;; Lit "(" ;; Group 4 (Plus (not_chr ")"))
            ;; Lit ")")))%re.

Definition parsePanels (java : text) : list PanelGrouping :=
  match extractMethodBody java (txt "getPanels") with
  | None => []
  | Some body =>
      if negb (truthy body) then []
      else
        map (fun m =>
               let title := cap_str m 1 in
               let stepsSource :=
                 match or_else (cap m 2) (or_else (cap m 3) (cap m 4)) with
                 | Some src => src
                 | None => []
                 end in
               let stepVars :=
                 filter (test identOnlyRegex)
                        (map (fun piece => last_word (trim piece)) (split_chr "," stepsSource)) in
               mkGrouping title stepVars)
            (exec_all panelRegex body)
  end.

(** The inner loop of [readConcatenatedString]: from the character after an
    opening quote, the fragment read and the text after its closing quote.
    A backslash and the character after it are passed over. *)
Fixpoint read_fragment (s : text) : text * text :=
  match s with
  | [] => ([], [])
  | c :: t =>
      if Ascii.eqb c backslash then
        match t with
        | [] => ([], [])
        | _ :: t' => read_fragment t'
        end
      else if Ascii.eqb c dquote then ([], t)
      else let (frag, r) := read_fragment t in (c :: frag, r)
  end.

(** The outer loop, on the text from the opening quote on: the fragments
    read.  Every round consumes a character, so [length s] rounds are
    enough. *)
Fixpoint read_parts (fuel : nat) (s : text) : list text :=
  match fuel with
  | O => []
  | S fuel' =>
      match s with
      | [] => []
      | _ :: t =>
          let (frag, r) := read_fragment t in
          frag ::
            match drop_while is_space r with
            | c :: r2 =>
                if Ascii.eqb c "+" then
                  let r3 := drop_while is_space r2 in
                  if head_is (chr_eq dquote) r3 then read_parts fuel' r3 else []
                else []
            | [] => []
            end
      end
  end.

Definition readConcatenatedString (body : text) (openQuoteIndex : nat) : text :=
  let s := skipn openQuoteIndex body in
  concat (read_parts (length s) s).

(** the common part of the two step patterns, after the step kind:
    [\s*\(\s*this\s*,\s*[^,]+,\s*new\s+WorldPoint\s*\(\s*(\d+)\s*,\s*(\d+)\s*,\s*(\d+)\s*\)\s*,\s*\x22] *)
Definition stepArguments : regex :=
  (ws ;; Lit "(" ;; ws ;; Lit "this" ;; ws ;; Lit "," ;; ws ;; Plus (not_chr ",")
   ;; Lit "," ;; ws ;; Lit "new" ;; ws1 ;; Lit "WorldPoint" ;; ws ;; Lit "(" ;; ws
   ;; Group 2 digits1 ;; ws ;; Lit "," ;; ws ;; Group 3 digits1 ;; ws ;; Lit "," ;; ws
   ;; Group 4 digits1 ;; ws ;; Lit ")" ;; ws ;; Lit "," ;; ws ;; quote)%re.

(** [/([a-zA-Z_][a-zA-Z0-9_]* )\s*=\s*new\s+(?:NpcStep|ObjectStep)...\x22/g] *)
Definition stepAssignRegex : regex :=
  (Group 1 ident ;; ws ;; Lit "=" ;; ws ;; Lit "new" ;; ws1
   ;; (Lit "NpcStep" <|> Lit "ObjectStep") ;; stepArguments)%re.
(** [/([a-zA-Z_][a-zA-Z0-9_]* )\s*=\s*new\s+ObjectStep...\x22/g] *)
Definition objectStepRegex : regex :=
  (Group 1 ident ;; ws ;; Lit "=" ;; ws ;; Lit "new" ;; ws1
   ;; Lit "ObjectStep" ;; stepArguments)%re.

(** the record a match of a step pattern stands for *)
Definition step_of_match (body : text) (m : rmatch_result) : QuestStepWithPoint :=
  let strStart := m_index m + length (m_text m) - 1 in
  mkStep (readConcatenatedString body strStart)
         (mkWorldPoint (parseInt (cap_str m 2)) (parseInt (cap_str m 3))
                       (parseInt (cap_str m 4))).

(** the body of the first loop: [map.set] *)
Definition set_step (body : text) (mp : jsmap QuestStepWithPoint) (m : rmatch_result)
  : jsmap QuestStepWithPoint :=
  map_set mp (cap_str m 1) (step_of_match body m).

(** the body of the second loop: [if (!map.has(m[1])) map.set] *)
Definition set_step_if_absent (body : text) (mp : jsmap QuestStepWithPoint)
           (m : rmatch_result) : jsmap QuestStepWithPoint :=
  if map_has mp (cap_str m 1) then mp
  else map_set mp (cap_str m 1) (step_of_match body m).

Definition steps_of_body (body : text) : jsmap QuestStepWithPoint :=
  fold_left (set_step_if_absent body) (exec_all objectStepRegex body)
    (fold_left (set_step body) (exec_all stepAssignRegex body) []).

Definition parseSetupSteps (java : text) : jsmap QuestStepWithPoint :=
  match extractMethodBody java (txt "setupSteps") with
  | None => []
  | Some body => if negb (truthy body) then [] else steps_of_body body
  end.

(** the inner loop of [buildSteps] *)
Fixpoint panel_steps (stepData : jsmap QuestStepWithPoint) (varNames : list text)
  : list QuestStepWithPoint :=
  match varNames with
  | [] => []
  | varName :: vs =>
      match map_get stepData varName with
      | Some data =>
          mkStep (stepDescription data) (worldpoint data) :: panel_steps stepData vs
      | None => panel_steps stepData vs
      end
  end.

Definition buildSteps (panels : list PanelGrouping) (stepData : jsmap QuestStepWithPoint)
  : list QuestPanel :=
  map (fun panel => mkPanel (g_panelName panel) (panel_steps stepData (stepVarNames panel)))
      panels.

(** [/public\s+class\s+(\w+)\s+extends/] *)
Definition classRegex : regex :=
  (Lit "public" ;; ws1 ;; Lit "class" ;; ws1 ;; Group 1 word1 ;; ws1 ;; Lit "extends")%re.

Definition extractClassName (java : text) : text :=
  match exec classRegex java with
  | Some m => cap_str m 1
  | None => []
  end.

(** ** The batch orchestrator *)

(** What the script meets outside itself.  [approved_file] is the outcome of
    reading and parsing scripts/approved-quests.json, as the entries of the
    object in the order [Object.entries] lists them ([None]: the read or the
    parse raises).  [fetch_text round url] is the answer to the request of
    the given round of the loop ([None]: [fetchQuestFile] raises, which
    includes every non-success status) and [write_ok round slug data] tells
    whether [writeQuestFile] completes. *)
Record world : Type := mkWorld {
  approved_file : option (list (text * bool));
  fetch_text : nat -> text -> option text;
  write_ok : nat -> text -> QuestData -> bool
}.

Inductive event : Type :=
| ReadFailedLogged : event                 (* console.error, approved-quests.json *)
| NoneApprovedLogged : event               (* console.log, nothing to process *)
| FetchAttempted : text -> text -> event   (* display name, url *)
| FetchSkipLogged : text -> event          (* console.warn, fetch failed *)
| WriteAttempted : text -> QuestData -> event   (* slug, record *)
| Written : text -> event                  (* console.log of writeQuestFile *)
| WriteSkipLogged : text -> event          (* console.warn, write failed *)
| DoneLogged : event.

Inductive status : Type :=
| Returned : status        (* main ran to its end *)
| Exited : nat -> status   (* process.exit(code) *)
| Uncaught : status.       (* an exception left main *)

(** the extraction between the fetch and the write of one round *)
Definition extract (displayName java : text) : completion (text * QuestData) :=
  let className := extractClassName java in
  let nm := if truthy className then classNameToDisplayName className else displayName in
  let slug := if truthy className then classNameToFolder className
              else classNameToFolder (displayNameToClassName displayName) in
  let general := parseGeneralRequirements java in
  let itemVarNames := parseItemRequirementVarNames java in
  match parseSetupRequirements java with
  | RangeError => RangeError
  | Normal setupReqs =>
      Normal (slug,
              mkQuestData nm
                (parseQuestPoints java)
                (parseExperienceRewards java)
                (parseLampRewards java)
                (g_skillRequirements general)
                (g_questRequirements general)
                (g_questPointRequirement general)
                (resolveItemRequirements itemVarNames setupReqs)
                (buildSteps (parsePanels java) (parseSetupSteps java)))
  end.

(** the loop [for (const displayName of toProcess)], from round [round] on *)
Fixpoint process (w : world) (round : nat) (toProcess : list text) : list event * status :=
  match toProcess with
  | [] => ([DoneLogged], Returned)
  | displayName :: others =>
      let url := questFileUrl displayName in
      match fetch_text w round url with
      | None =>
          let (evs, st) := process w (S round) others in
          (FetchAttempted displayName url :: FetchSkipLogged displayName :: evs, st)
      | Some java =>
          match extract displayName java with
          | RangeError => ([FetchAttempted displayName url], Uncaught)
          | Normal (slug, data) =>
              let (evs, st) := process w (S round) others in
              if write_ok w round slug data
              then (FetchAttempted displayName url :: WriteAttempted slug data
                      :: Written slug :: evs, st)
              else (FetchAttempted displayName url :: WriteAttempted slug data
                      :: WriteSkipLogged displayName :: evs, st)
          end
      end
  end.

(** [Object.entries(approved).filter(([, v]) => v === true).map(([name]) => name)] *)
Definition approved_names (approved : list (text * bool)) : list text :=
  map fst (filter (fun e => Bool.eqb (snd e) true) approved).

Definition main (w : world) : list event * status :=
  match approved_file w with
  | None => ([ReadFailedLogged], Exited 1)
  | Some approved =>
      match approved_names approved with
      | [] => ([NoneApprovedLogged], Returned)
      | toProcess => process w 0 toProcess
      end
  end.

(** ** Coordinates.tsx: clamping

    [Math.min] and [Math.max] on the numbers of the model: [NaN] when an
    argument is [NaN], otherwise the lesser or the greater in the order of
    the extended integers. *)

Definition math_min (a b : jsnum) : jsnum :=
  match a, b with
  | JNaN, _ => JNaN
  | _, JNaN => JNaN
  | JInf true, _ => JInf true
  | _, JInf true => JInf true
  | JInf false, v => v
  | v, JInf false => v
  | JNum p, JNum q => JNum (Z.min p q)
  end.

Definition math_max (a b : jsnum) : jsnum :=
  match a, b with
  | JNaN, _ => JNaN
  | _, JNaN => JNaN
  | JInf false, _ => JInf false
  | _, JInf false => JInf false
  | JInf true, v => v
  | v, JInf true => v
  | JNum p, JNum q => JNum (Z.max p q)
  end.

Definition clampWorldPoint (wp : WorldPoint) : WorldPoint :=
  mkWorldPoint
    (math_max (JNum 0) (math_min (JNum 16383) (x wp)))
    (math_max (JNum 0) (math_min (JNum 16383) (y wp)))
    (math_max (JNum 0) (math_min (JNum 3) (plane wp))).

(** ** parse-wiki-ids.ts: names and numeric ids *)

(** [rawName.split("#")[0].trim()] *)
Definition parseName (rawName : text) : text :=
  trim (match split_chr "#" rawName with piece :: _ => piece | [] => [] end).

(** [/[?&]id=([^&]+)/] and [/^\d+$/] *)
Definition hrefIdRegex : regex :=
  (Chr (fun c => chr_eq "?" c || chr_eq "&" c) ;; Lit "id="
   ;; Group 1 (Plus (not_chr "&")))%re.
Definition digitsOnlyRegex : regex := (Bol ;; digits1 ;; Eol)%re.

(** the body of the callback of [parseIdsFromCell], for the [href] of one
    anchor: the ids it pushes *)
Definition idsOfHref (href : text) : list jsnum :=
  match exec hrefIdRegex href with
  | Some m =>
      let value := cap_str m 1 in
      if test digitsOnlyRegex value then [parseInt value] else []
  | None => []
  end.

(** [parseIdsFromCell], on the [href] values of the anchors of the cell in
    document order *)
Definition parseIdsFromCell (hrefs : list text) : list jsnum :=
  flat_map idsOfHref hrefs.


(* ================================================================== *)
(** * Part II: notions of the specification *)
(* ================================================================== *)

(** ** What a pattern matches *)

(** One attempt of the engine, as a relation: [Sem r st st'] when [r] can
    take the attempt from [st] to [st']. *)
Inductive Sem : regex -> mstate -> mstate -> Prop :=
| SemEps : forall st, Sem Eps st st
| SemChr : forall p c t st,
    rest st = c :: t -> p c = true -> Sem (Chr p) st (advance c t st)
| SemStarStop : forall p st, Sem (Star p) st st
| SemStarStep : forall p c t st st',
    rest st = c :: t -> p c = true ->
    Sem (Star p) (advance c t st) st' -> Sem (Star p) st st'
| SemCat : forall a b st st1 st2,
    Sem a st st1 -> Sem b st1 st2 -> Sem (Cat a b) st st2
| SemAltL : forall a b st st', Sem a st st' -> Sem (Alt a b) st st'
| SemAltR : forall a b st st', Sem b st st' -> Sem (Alt a b) st st'
| SemGroup : forall i a st st',
    Sem a st st' -> Sem (Group i a) st (set_cap i (consumed st st') st')
| SemWordB : forall st, at_word_boundary st = true -> Sem WordB st st
| SemBol : forall st, seen st = [] -> Sem Bol st st
| SemEol : forall st, rest st = [] -> Sem Eol st st.

(** The texts a pattern can consume, whatever stands around them (the three
    assertions consume nothing). *)
Fixpoint Lang (r : regex) (w : text) : Prop :=
  match r with
  | Eps => w = []
  | Chr p => exists c, w = [c] /\ p c = true
  | Star p => forallb p w = true
  | Cat a b => exists u v, w = u ++ v /\ Lang a u /\ Lang b v
  | Alt a b => Lang a w \/ Lang b w
  | Group _ a => Lang a w
  | WordB => w = []
  | Bol => w = []
  | Eol => w = []
  end.

(** patterns without groups and assertions *)
Fixpoint plain (r : regex) : bool :=
  match r with
  | Eps | Chr _ | Star _ => true
  | Cat a b | Alt a b => plain a && plain b
  | Group _ _ | WordB | Bol | Eol => false
  end.

(** patterns that can match the empty text *)
Fixpoint nullable (r : regex) : bool :=
  match r with
  | Eps | Star _ | WordB | Bol | Eol => true
  | Chr _ => false
  | Cat a b => nullable a && nullable b
  | Alt a b => nullable a || nullable b
  | Group _ a => nullable a
  end.

(** the groups of a pattern with their bodies, and the groups every match
    goes through *)
Fixpoint groups (r : regex) : list (nat * regex) :=
  match r with
  | Cat a b | Alt a b => groups a ++ groups b
  | Group i a => (i, a) :: groups a
  | _ => []
  end.

Fixpoint sure_groups (r : regex) : list nat :=
  match r with
  | Cat a b => sure_groups a ++ sure_groups b
  | Group i a => i :: sure_groups a
  | _ => []
  end.


(** [w] is a piece of [s] *)
Definition substring (w s : text) : Prop := exists pre post, s = pre ++ w ++ post.

(** ** Braces *)

Definition count_chr (a : ascii) (s : text) : nat :=
  length (filter (fun c => Ascii.eqb c a) s).

(** Balanced by counting: as many [{] as [}], and no prefix with more [}]
    than [{]. *)
Definition balanced (s : text) : Prop :=
  count_chr "{" s = count_chr "}" s /\
  forall n, count_chr "}" (firstn n s) <= count_chr "{" (firstn n s).



(** ** Sample inputs *)

(** A Java text, written with ['] where the source has a double quote. *)
Definition java (s : string) : text :=
  map (fun c => if Ascii.eqb c "'" then dquote else c) (txt s).
Arguments java s%_string.



(** ** Declarations the locator is asked for *)

(** The parts of a member declaration up to its opening brace, as the
    declaration pattern reads them. *)
Record declaration : Type := mkDeclaration {
  d_override : option text;     (* the white space after [@Override], when it is there *)
  d_public : bool;              (* [public], or else [protected] *)
  d_gap : text;                 (* the white space after the modifier *)
  d_return : option (text * option text * text);
                                (* return type: word, generic arguments, white space *)
  d_before_paren : text;        (* white space between the name and [(] *)
  d_params : text;
  d_before_brace : text         (* white space between [)] and the brace *)
}.



(** a non-empty run of characters of a class *)
Definition run1 (p : ascii -> bool) (s : text) : bool := truthy s && forallb p s.


(** a declaration with the modifier and nothing else in front of the name *)
Definition bare_declaration (is_public : bool) : declaration :=
  mkDeclaration None is_public (txt " ") None [] [] (txt " ").


(** [s.startsWith(w)] and [s.includes(w)] *)
Fixpoint starts_with (w s : text) : bool :=
  match w, s with
  | [], _ => true
  | a :: w', b :: s' => Ascii.eqb a b && starts_with w' s'
  | _ :: _, [] => false
  end.

Fixpoint containsb (w s : text) : bool :=
  starts_with w s || match s with [] => false | _ :: s' => containsb w s' end.


(** ** Concatenated string literals *)

(** What stands between the quotes of a literal: characters other than the
    backslash and the double quote, and escape sequences (a backslash and
    the character after it). *)
Inductive piece : Type :=
| Plain : ascii -> piece
| Escape : ascii -> piece.

Definition piece_ok (p : piece) : bool :=
  match p with
  | Plain c => negb (Ascii.eqb c backslash) && negb (Ascii.eqb c dquote)
  | Escape _ => true
  end.

Definition piece_source (p : piece) : text :=
  match p with
  | Plain c => [c]
  | Escape c => [backslash; c]
  end.

(** a fragment as it is written in the source *)
Definition literal (f : list piece) : text :=
  dquote :: flat_map piece_source f ++ [dquote].

(** the content of a fragment with every escape sequence left out *)
Definition kept (f : list piece) : text :=
  flat_map (fun p => match p with Plain c => [c] | Escape _ => [] end) f.

(** the content of a fragment with every escape sequence resolved to the
    character after the backslash, taken verbatim *)
Definition resolved (f : list piece) : text :=
  map (fun p => match p with Plain c => c | Escape c => c end) f.

(** a further fragment: the white space before and after the [+], and the
    fragment *)
Record joint : Type := mkJoint {
  j_before : text;
  j_after : text;
  j_fragment : list piece
}.

Definition joint_ok (j : joint) : bool :=
  forallb is_space (j_before j) && forallb is_space (j_after j)
  && forallb piece_ok (j_fragment j).

Definition joint_source (j : joint) : text :=
  j_before j ++ "+"%char :: j_after j ++ literal (j_fragment j).

(** [N >= 1] fragments joined by [+] *)
Definition concatenation (first : list piece) (more : list joint) : text :=
  literal first ++ flat_map joint_source more.

(** the text after a literal goes on with [+] and another literal *)
Definition goes_on (s : text) : bool :=
  match drop_while is_space s with
  | c :: r => Ascii.eqb c "+" && head_is (chr_eq dquote) (drop_while is_space r)
  | [] => false
  end.

Definition plain_text (s : string) : list piece := map Plain (txt s).
Arguments plain_text s%_string.

(** [\x22Say \\x22hi\\x22\x22 + \x22 now\x22], a literal with two escaped quotes *)
Definition escaped_first : list piece :=
  plain_text "Say " ++ [Escape dquote] ++ plain_text "hi" ++ [Escape dquote].
Definition escaped_more : list joint :=
  [mkJoint (txt " ") (txt "  ") (plain_text " now")].

(** ** Panels against the step table *)

(** the records of the names that have one, in the order of the names *)
Definition found (stepData : jsmap QuestStepWithPoint) (varNames : list text)
  : list QuestStepWithPoint :=
  flat_map (fun v => match map_get stepData v with Some d => [d] | None => [] end)
           varNames.

Definition sample_step (d : string) (px py pz : Z) : QuestStepWithPoint :=
  mkStep (txt d) (mkWorldPoint (JNum px) (JNum py) (JNum pz)).
Arguments sample_step d%_string px%_Z py%_Z pz%_Z.

Definition sample_stepData : jsmap QuestStepWithPoint :=
  [(txt "step1", sample_step "Talk to the chef." 3206 3214 0);
   (txt "step2", sample_step "Pick an egg." 3229 3299 0)].

(** ** Quest prerequisites *)

(** a list with every occurrence of an element but the first erased *)
Fixpoint first_seen (l : list text) : list text :=
  match l with
  | [] => []
  | n :: t => n :: filter (fun y => negb (text_eqb y n)) (first_seen t)
  end.

Definition text_eq_dec : forall a b : text, {a = b} + {a <> b} :=
  list_eq_dec Ascii.ascii_dec.


(** ** Step assignments *)

(** the match assigns the variable [v] *)
Definition assigns (v : text) (m : rmatch_result) : bool := text_eqb v (cap_str m 1).

Definition first_match (v : text) (ms : list rmatch_result) : option rmatch_result :=
  find (assigns v) ms.

Definition last_match (v : text) (ms : list rmatch_result) : option rmatch_result :=
  find (assigns v) (rev ms).

(** a [setupSteps] that assigns [talk] twice *)
Definition twice_assigned : text := java
"public void setupSteps() {
   talk = new NpcStep(this, NpcID.COOK, new WorldPoint(3206, 3214, 0), 'Talk to the cook.');
   talk = new NpcStep(this, NpcID.DUKE, new WorldPoint(3210, 3222, 1), 'Talk to the duke.');
 }".

Definition twice_assigned_body : text := java
"
   talk = new NpcStep(this, NpcID.COOK, new WorldPoint(3206, 3214, 0), 'Talk to the cook.');
   talk = new NpcStep(this, NpcID.DUKE, new WorldPoint(3210, 3222, 1), 'Talk to the duke.');
 ".

(** ** Aliases *)

(** the two maps [parseSetupRequirements] builds from a body *)
Definition displayByVar_of (body : text) : jsmap text :=
  collect_pairs (exec_all itemRequirementRegex body).
Definition alias_of (body : text) : jsmap text :=
  collect_pairs (exec_all aliasRegex body).

(** [u] is reached from [n] through one or more aliases *)
Inductive reaches (alias : jsmap text) : text -> text -> Prop :=
| reaches_step : forall n t, map_get alias n = Some t -> reaches alias n t
| reaches_more : forall n t u,
    map_get alias n = Some t -> reaches alias t u -> reaches alias n u.

Definition acyclic (alias : jsmap text) : Prop := forall n, ~ reaches alias n n.

(** [n] has the non-empty display string [d] of its own *)
Definition direct (displayByVar : jsmap text) (n d : text) : Prop :=
  map_get displayByVar n = Some d /\ truthy d = true.

Definition no_direct (displayByVar : jsmap text) (n : text) : Prop :=
  map_get displayByVar n = None \/ map_get displayByVar n = Some [].

(** the chain of aliases from [n] ends at a name with the display string [d] *)
Inductive leads_to (displayByVar alias : jsmap text) : text -> text -> Prop :=
| leads_direct : forall n d, direct displayByVar n d -> leads_to displayByVar alias n d
| leads_alias : forall n t d,
    no_direct displayByVar n -> map_get alias n = Some t -> truthy t = true ->
    leads_to displayByVar alias t d -> leads_to displayByVar alias n d.

(** the chain of aliases from [n] ends at a name without a display string *)
Inductive dead_end (displayByVar alias : jsmap text) : text -> Prop :=
| dead_here : forall n,
    no_direct displayByVar n ->
    map_get alias n = None \/ map_get alias n = Some [] ->
    dead_end displayByVar alias n
| dead_alias : forall n t,
    no_direct displayByVar n -> map_get alias n = Some t -> truthy t = true ->
    dead_end displayByVar alias t -> dead_end displayByVar alias n.

(** a check of [acyclic]: from every key the aliases run out within
    [length alias] steps *)
Fixpoint runs_out (alias : jsmap text) (n : text) (steps : nat) : bool :=
  match map_get alias n with
  | None => true
  | Some t => match steps with O => false | S steps' => runs_out alias t steps' end
  end.

Definition acyclicb (alias : jsmap text) : bool :=
  forallb (fun k => runs_out alias k (length alias)) (map fst alias).

(** the names [resolve] passes, one alias after the other, starting at [n] *)
Fixpoint alias_chain (alias : jsmap text) (n : text) (passed : list text) : Prop :=
  match passed with
  | [] => True
  | s :: others =>
      s = n /\ exists t, map_get alias n = Some t /\ alias_chain alias t others
  end.

(** a [setupRequirements] with an alias of an alias, and an alias of a name
    that is never given a display string *)
Definition aliased_requirements : text := java
"protected void setupRequirements() {
   bucket = new ItemRequirement('Bucket', ItemID.BUCKET);
   bucketHighlighted = bucket.highlighted();
   bucketInBank = bucketHighlighted.alsoCheckBank();
   ghost = phantom.highlighted();
 }".

Definition aliased_requirements_body : text := java
"
   bucket = new ItemRequirement('Bucket', ItemID.BUCKET);
   bucketHighlighted = bucket.highlighted();
   bucketInBank = bucketHighlighted.alsoCheckBank();
   ghost = phantom.highlighted();
 ".

(** a [setupRequirements] in which [pot] has an empty display string of its
    own and is an alias of [bucket] as well *)
Definition empty_display_requirements_body : text := java
"
   pot = new ItemRequirement('', ItemID.POT);
   bucket = new ItemRequirement('Bucket', ItemID.BUCKET);
   pot = bucket.highlighted();
 ".

(** ** Coordinates *)

(** a number that is a natural number or the positive infinity *)
Definition natural_or_infinite (c : jsnum) : Prop :=
  match c with
  | JNum n => (0 <= n)%Z
  | JInf negative => negative = false
  | JNaN => False
  end.

(** [c] is what [parseInt] makes of a run of digits: a natural number, which
    is finite when the run has at most 308 digits, or the positive infinity *)
Definition reads_digits (c : jsnum) : Prop :=
  exists ds,
    run1 is_digit ds = true /\ c = parseInt ds /\ natural_or_infinite c /\
    (length ds <= 308 -> c = JNum (digits_value ds)).



(** ** Lamp rewards *)









(** ** The batch *)

(** the inputs a run attempted to fetch, in the order of the attempts *)
Fixpoint attempted (evs : list event) : list text :=
  match evs with
  | [] => []
  | FetchAttempted displayName _ :: evs' => displayName :: attempted evs'
  | _ :: evs' => attempted evs'
  end.

(** the output keys a run wrote, in the order of the writes *)
Fixpoint written (evs : list event) : list text :=
  match evs with
  | [] => []
  | Written slug :: evs' => slug :: written evs'
  | _ :: evs' => written evs'
  end.

(** the output keys of the inputs whose fetch and write both succeed *)
Fixpoint successes (w : world) (round : nat) (names : list text) : list text :=
  match names with
  | [] => []
  | displayName :: others =>
      match fetch_text w round (questFileUrl displayName) with
      | Some java =>
          match extract displayName java with
          | Normal (slug, data) => if write_ok w round slug data then [slug] else []
          | RangeError => []
          end
      | None => []
      end ++ successes w (S round) others
  end.

(** no text the world serves has an alias cycle that [resolve] runs into *)
Definition extraction_returns (w : world) : Prop :=
  forall round url java,
    fetch_text w round url = Some java -> parseSetupRequirements java <> RangeError.

(** a quest whose [setupRequirements] makes two names aliases of each other *)
Definition cyclic_quest : text := java
"public class CooksAssistant extends BasicQuestHelper {
   protected void setupRequirements() {
     egg = eggHighlighted.alsoCheckBank();
     eggHighlighted = egg.highlighted();
   }
 }".

Definition plain_quest : text := java
"public class SheepShearer extends BasicQuestHelper {
   public QuestPointReward getQuestPointReward() { return new QuestPointReward(1); }
 }".

(** two approved inputs; the first is served the quest with the cycle, the
    second a quest without one; every write succeeds *)
Definition cyclic_world : world :=
  mkWorld (Some [(txt "Cooks Assistant", true); (txt "Sheep Shearer", true)])
          (fun round _ => match round with O => Some cyclic_quest | _ => Some plain_quest end)
          (fun _ _ _ => true).

(** three approved inputs and one that is not; the fetch of the second
    approved input fails (a 404), the write of the third fails *)
Definition faulty_world : world :=
  mkWorld (Some [(txt "Sheep Shearer", true); (txt "Dragon Slayer", true);
                 (txt "Rune Mysteries", false); (txt "Imp Catcher", true)])
          (fun round _ => match round with 1 => None | _ => Some plain_quest end)
          (fun round _ _ => match round with 2 => false | _ => true end).

Definition cyclic_body : text := java
"
     egg = eggHighlighted.alsoCheckBank();
     eggHighlighted = egg.highlighted();
   ".

Definition cyclic_alias : jsmap text :=
  [(txt "egg", txt "eggHighlighted"); (txt "eggHighlighted", txt "egg")].

(** [resolve] at [n] calls itself at [t], whatever the depth *)
Definition calls (displayByVar alias : jsmap text) (n t : text) : Prop :=
  map_get alias n = Some t /\
  forall f, resolve (S f) displayByVar alias n = resolve f displayByVar alias t.

(** [c] such calls in a row lead from [v] to [n] *)
Fixpoint calls_in (displayByVar alias : jsmap text) (c : nat) (v n : text) : Prop :=
  match c with
  | O => v = n
  | S c' => exists t, calls displayByVar alias v t /\ calls_in displayByVar alias c' t n
  end.


(** ** Item requirements of a record *)

(** the display strings the table holds for the names, in the order of the
    names; a name the table does not hold, or holds with the empty string,
    gives none *)
Definition displays_of (setupReqs : jsmap text) (varNames : list text) : list text :=
  flat_map (fun v => match map_get setupReqs v with
                     | Some display => if truthy display then [display] else []
                     | None => []
                     end) varNames.

Definition sample_requirements : jsmap text :=
  [(txt "egg", txt "Egg"); (txt "eggHighlighted", txt "Egg");
   (txt "note", []); (txt "pot", txt "Pot of flour")].

(** ** Bodies that are cut short *)

(** no part of [s] from its start has more [}] than [{] *)
Definition never_closes_early (s : text) : Prop :=
  forall n, count_chr "}" (firstn n s) <= count_chr "{" (firstn n s).

(** a class whose last method is not closed *)
Definition unclosed_source : text := java
"public class CooksAssistant extends BasicQuestHelper {
   public void setupSteps() { if (ready) { talk(); }".

(** ** Points within the map *)

Definition within (hi : Z) (c : jsnum) : Prop :=
  match c with
  | JNum n => (0 <= n <= hi)%Z
  | _ => False
  end.

Definition in_bounds (wp : WorldPoint) : Prop :=
  within 16383 (x wp) /\ within 16383 (y wp) /\ within 3 (plane wp).

Definition no_nan (wp : WorldPoint) : Prop :=
  x wp <> JNaN /\ y wp <> JNaN /\ plane wp <> JNaN.

(** [c] brought into the range from 0 to [hi] *)
Definition nearest_within (hi : Z) (c : jsnum) : jsnum :=
  match c with
  | JNaN => JNaN
  | JInf negative => JNum (if negative then 0 else hi)
  | JNum n => JNum (Z.max 0 (Z.min hi n))
  end.


(** ** Trimmed texts *)

(** no white space at either end *)
Definition trimmed (s : text) : Prop :=
  head_is is_space s = false /\ head_is is_space (rev s) = false.


(** ** Patterns of one character

    A pattern that matches one character at a time, where [p] tells, from
    the text before a character and the character, whether it matches
    there: its matches in a text, and the text with every match replaced. *)

Definition char_match (capsf : ascii -> list (nat * text)) (sn : text) (c : ascii)
  : rmatch_result :=
  MatchResult (length sn) (S (length sn)) [c] (capsf c).

Fixpoint char_matches (p : text -> ascii -> bool) (capsf : ascii -> list (nat * text))
         (sn rs : text) : list rmatch_result :=
  match rs with
  | [] => []
  | c :: t =>
      if p sn c then char_match capsf sn c :: char_matches p capsf (c :: sn) t
      else char_matches p capsf (c :: sn) t
  end.

Fixpoint rewrite_chars (p : text -> ascii -> bool) (g : text -> ascii -> text)
         (sn rs : text) : text :=
  match rs with
  | [] => []
  | c :: t => (if p sn c then g sn c else [c]) ++ rewrite_chars p g (c :: sn) t
  end.

(** ** Display names of quest identifiers *)

Definition underscore_to_blank (c : ascii) : ascii :=
  if chr_eq "_" c then " "%char else c.

(** every character that begins a run of letters and digits in upper case;
    [inside] tells whether the character before is a letter, a digit or an
    underscore *)
Fixpoint title_case (inside : bool) (s : text) : text :=
  match s with
  | [] => []
  | c :: t =>
      (if negb inside && is_word c then toUpperChar c else c) :: title_case (is_word c) t
  end.


(** ** Names without blanks *)

Definition is_blank_or_apostrophe (c : ascii) : bool := is_space c || chr_eq "'" c.

(** the characters of a display name that are neither white space nor
    apostrophes *)
Definition name_letters (nm : text) : text :=
  filter (fun c => negb (is_blank_or_apostrophe c)) nm.

(** the characters on which the case mappings of the model are those of
    the host language *)
Definition is_ascii (c : ascii) : bool := code c <? 128.

(** a text without its white space *)
Definition unspaced (s : text) : text := filter (fun c => negb (is_space c)) s.


Definition sample_display_name : text := txt "Cook's  Assistant".


(** the characters of a slug made of a class name *)
Definition is_slug_char (c : ascii) : bool := is_lower c || is_digit c || chr_eq "_" c.

Definition sample_name : text := txt "Sheep Shearer".


(** the record of [plain_quest] *)
Definition plain_quest_record : QuestData :=
  mkQuestData (txt "Sheep Shearer") (JNum 1) [] None [] [] None [] [].

(** ** Identifiers *)

(** a letter or an underscore, then letters, digits and underscores *)
Definition is_identifier (s : text) : bool :=
  match s with
  | c :: t => is_ident_start c && forallb is_ident_char t
  | [] => false
  end.


(** ** Experience rewards as written *)

(** A call [new ExperienceReward(Skill.NAME, AMOUNT)] as the source may
    write it: the white space at the six places where the pattern allows
    some, and the text that follows the call up to the next call or the end
    of the body. *)
Record reward_call : Type := mkRewardCall {
  rc_gap_new : text;       (* after [new], not empty *)
  rc_gap_open : text;      (* before the opening parenthesis *)
  rc_gap_skill : text;     (* before [Skill.] *)
  rc_skill : text;
  rc_gap_comma : text;     (* before the comma *)
  rc_gap_amount : text;    (* before the amount *)
  rc_amount : text;
  rc_gap_close : text;     (* before the closing parenthesis *)
  rc_after : text
}.

Definition reward_call_ok (c : reward_call) : bool :=
  run1 is_space (rc_gap_new c) && forallb is_space (rc_gap_open c)
  && forallb is_space (rc_gap_skill c) && run1 is_word (rc_skill c)
  && forallb is_space (rc_gap_comma c) && forallb is_space (rc_gap_amount c)
  && run1 is_digit (rc_amount c) && forallb is_space (rc_gap_close c)
  && negb (containsb (txt "new") (rc_after c)).

Definition render_reward (c : reward_call) : text :=
  txt "new" ++ rc_gap_new c ++ txt "ExperienceReward" ++ rc_gap_open c ++ txt "("
  ++ rc_gap_skill c ++ txt "Skill." ++ rc_skill c ++ rc_gap_comma c ++ txt ","
  ++ rc_gap_amount c ++ rc_amount c ++ rc_gap_close c ++ txt ")".

(** a body: some text without [new], then the calls *)
Definition render_rewards (before : text) (calls : list reward_call) : text :=
  before ++ concat (map (fun c => render_reward c ++ rc_after c) calls).

Definition reward_of_call (c : reward_call) : ExperienceReward :=
  mkExperienceReward (rc_skill c) (parseInt (rc_amount c)).

(** no match of a pattern whose matches start with [key] can start in
    [sep] when [rest] follows *)
Fixpoint no_start (key sep rest : text) : bool :=
  match sep with
  | [] => true
  | _ :: t => negb (starts_with key (sep ++ rest)) && no_start key t rest
  end.

Definition sample_rewards : text := java
"public List<ExperienceReward> getExperienceRewards() {
   return Arrays.asList(new ExperienceReward(Skill.COOKING, 300),
     new  ExperienceReward ( Skill.COOKING , 300 ), new ExperienceReward(Skill.MAGIC,20));
 }".

Definition sample_reward_calls : list reward_call :=
  [mkRewardCall (txt " ") [] [] (txt "COOKING") [] (txt " ") (txt "300") []
     (txt "," ++ java "
     ");
   mkRewardCall (txt "  ") (txt " ") (txt " ") (txt "COOKING") (txt " ") (txt " ")
     (txt "300") (txt " ") (txt ", ");
   mkRewardCall (txt " ") [] [] (txt "MAGIC") [] [] (txt "20") []
     (txt ");" ++ java "
 ")].

Definition sample_rewards_before : text := java "
   return Arrays.asList(".


(** ** Ids of the wiki tables *)

Definition sample_hrefs : list text :=
  [txt "/w/Special:Lookup?type=item&id=1925&name=Bucket"; txt "/w/Bucket?id=abc"].

(** ** Names of the records *)

(** a word that starts with no small letter and goes on without capitals *)
Definition is_capitalised (s : text) : bool :=
  match s with
  | c :: t =>
      is_word c && negb (is_lower c) && forallb (fun a => is_word a && negb (is_upper a)) t
  | [] => false
  end.

Definition letter_digit_or_blank (c : ascii) : bool :=
  is_alpha c || is_digit c || chr_eq " " c.

(** a class with item requirements, one of them under two names *)
Definition sample_items : text := java
"public class CooksAssistant extends BasicQuestHelper {
   public List<ItemRequirement> getItemRequirements() {
     return Arrays.asList(egg, eggHighlighted, pot);
   }
   protected void setupRequirements() {
     egg = new ItemRequirement('Egg', ItemID.EGG);
     pot = new ItemRequirement('Pot of flour', ItemID.POT_OF_FLOUR);
     eggHighlighted = egg.highlighted();
   }
 }".

Definition sample_items_table : jsmap text :=
  [(txt "egg", txt "Egg"); (txt "pot", txt "Pot of flour"); (txt "eggHighlighted", txt "Egg")].

(** a text that declares no class *)
Definition classless_source : text := java "interface Helper { }".

Definition classless_record : QuestData :=
  mkQuestData sample_display_name (JNum 0) [] None [] [] None [] [].


(** ** Characters of a description *)

(** neither a double quote nor a backslash *)
Definition is_plain_char (c : ascii) : bool :=
  negb (Ascii.eqb c dquote) && negb (Ascii.eqb c backslash).


(** ** The declaration of the requested name *)










(* ================================================================== *)
(** * Part III: properties *)
(* ================================================================== *)

(** ** Texts *)

Lemma text_eqb_eq : forall a b, text_eqb a b = true <-> a = b.
Proof.
  induction a as [|x a IH]; destruct b as [|y b]; simpl; split; intro H;
    try reflexivity; try discriminate.
  - apply andb_true_iff in H. destruct H as [H1 H2].
    apply Ascii.eqb_eq in H1. apply IH in H2. now subst.
  - inversion H; subst. apply andb_true_iff. split.
    + apply Ascii.eqb_refl.
    + now apply IH.
Qed.

Lemma text_eqb_refl : forall a, text_eqb a a = true.
Proof. intro a. now apply text_eqb_eq. Qed.

Lemma text_eqb_neq : forall a b, text_eqb a b = false <-> a <> b.
Proof.
  intros a b. split.
  - intros H E. apply text_eqb_eq in E. congruence.
  - intro H. destruct (text_eqb a b) eqn:E; [|reflexivity].
    apply text_eqb_eq in E. contradiction.
Qed.

Lemma text_eqb_sym : forall a b, text_eqb a b = text_eqb b a.
Proof.
  intros a b. destruct (text_eqb a b) eqn:E.
  - apply text_eqb_eq in E. subst. symmetry. apply text_eqb_refl.
  - symmetry. apply text_eqb_neq. apply text_eqb_neq in E. congruence.
Qed.

(** ** The engine against the relation *)

Lemma mstate_eta : forall st, MState (seen st) (rest st) (caps st) = st.
Proof. now destruct st. Qed.

Section Engine.
Variable A : Type.

Lemma star_match_sound :
  forall p rs sn cp (k : mstate -> option A) x,
    star_match p sn rs cp k = Some x ->
    exists st', Sem (Star p) (MState sn rs cp) st' /\ k st' = Some x.
Proof.
  induction rs as [|c t IH]; intros sn cp k x H; simpl in H.
  - eexists. split; [apply SemStarStop | exact H].
  - destruct (p c) eqn:Hp.
    + destruct (star_match p (c :: sn) t cp k) eqn:Hs.
      * inversion H; subst. apply IH in Hs. destruct Hs as (st' & Hsem & Hk).
        exists st'. split; [|exact Hk].
        eapply SemStarStep with (c := c) (t := t); [reflexivity | exact Hp | exact Hsem].
      * eexists. split; [apply SemStarStop | exact H].
    + eexists. split; [apply SemStarStop | exact H].
Qed.

Lemma rmatch_sound :
  forall r st (k : mstate -> option A) x,
    rmatch r st k = Some x ->
    exists st', Sem r st st' /\ k st' = Some x.
Proof.
  induction r as [|p|p|a IHa b IHb|a IHa b IHb|i a IHa| | |];
    intros st k x H; simpl in H.
  - exists st. split; [constructor | exact H].
  - destruct (rest st) as [|c t] eqn:Hr; [discriminate|].
    destruct (p c) eqn:Hp; [|discriminate].
    eexists. split; [eapply SemChr; eauto | exact H].
  - apply star_match_sound in H. now rewrite mstate_eta in H.
  - apply IHa in H. destruct H as (st1 & H1 & H).
    apply IHb in H. destruct H as (st2 & H2 & H).
    exists st2. split; [econstructor; eauto | exact H].
  - destruct (rmatch a st k) eqn:Ha.
    + inversion H; subst. apply IHa in Ha. destruct Ha as (st' & H1 & H2).
      exists st'. split; [now apply SemAltL | exact H2].
    + apply IHb in H. destruct H as (st' & H1 & H2).
      exists st'. split; [now apply SemAltR | exact H2].
  - apply IHa in H. destruct H as (st' & H1 & H2).
    eexists. split; [apply SemGroup; exact H1 | exact H2].
  - destruct (at_word_boundary st) eqn:Hb; [|discriminate].
    exists st. split; [now constructor | exact H].
  - destruct (seen st) eqn:Hs; [|discriminate].
    exists st. split; [now constructor | exact H].
  - destruct (rest st) eqn:Hs; [|discriminate].
    exists st. split; [now constructor | exact H].
Qed.

Lemma star_match_complete :
  forall p st st' (k : mstate -> option A),
    Sem (Star p) st st' -> k st' <> None ->
    star_match p (seen st) (rest st) (caps st) k <> None.
Proof.
  intros p st st' k H. remember (Star p) as r eqn:Hr.
  induction H; try discriminate; inversion Hr; subst; intro Hk.
  - destruct st as [sn [|c t] cp]; simpl; [exact Hk|].
    destruct (p c); [|exact Hk].
    destruct (star_match p (c :: sn) t cp k); [discriminate | exact Hk].
  - rewrite H. simpl. rewrite H0.
    specialize (IHSem eq_refl Hk). simpl in IHSem.
    destruct (star_match p (c :: seen st) t (caps st) k); [discriminate|].
    contradiction.
Qed.

Lemma rmatch_complete :
  forall r st st' (k : mstate -> option A),
    Sem r st st' -> k st' <> None -> rmatch r st k <> None.
Proof.
  induction r as [|p|p|a IHa b IHb|a IHa b IHb|i a IHa| | |];
    intros st st' k H Hk.
  - inversion H; subst. exact Hk.
  - inversion H; subst. simpl.
    repeat match goal with
           | E : rest _ = _ :: _ |- _ => rewrite E; clear E
           | E : p _ = true |- _ => rewrite E; clear E
           end.
    exact Hk.
  - simpl. eapply star_match_complete; eauto.
  - inversion H; subst. simpl. eapply IHa; [eassumption|].
    eapply IHb; eassumption.
  - simpl. inversion H; subst.
    + destruct (rmatch a st k) eqn:E; [discriminate|].
      exfalso. eapply IHa; eassumption.
    + destruct (rmatch a st k) eqn:E; [discriminate|].
      eapply IHb; eassumption.
  - inversion H; subst. simpl. eapply IHa; [eassumption|]. exact Hk.
  - inversion H; subst. simpl.
    match goal with E : at_word_boundary _ = true |- _ => now rewrite E end.
  - inversion H; subst. simpl.
    match goal with E : seen _ = [] |- _ => now rewrite E end.
  - inversion H; subst. simpl.
    match goal with E : rest _ = [] |- _ => now rewrite E end.
Qed.
End Engine.

(** ** What a successful attempt says about the text and the captures *)

Lemma consumed_app : forall sn w rs cp st',
    rest st' = rs -> consumed (MState sn (w ++ rs) cp) st' = w.
Proof.
  intros sn w rs cp st' H. unfold consumed. simpl. rewrite H.
  rewrite length_app. replace (length w + length rs - length rs) with (length w) by lia.
  rewrite firstn_app, firstn_all, Nat.sub_diag. simpl. apply app_nil_r.
Qed.

(** the outcome of an attempt, read off the two states *)
Record outcome_of (r : regex) (st st' : mstate) (w : text) (new : list (nat * text))
  : Prop := mkOutcome {
  oc_rest : rest st = w ++ rest st';
  oc_seen : seen st' = rev w ++ seen st;
  oc_caps : caps st' = new ++ caps st;
  oc_lang : Lang r w;
  oc_groups : forall i v, In (i, v) new -> exists a, In (i, a) (groups r) /\ Lang a v;
  oc_sure : forall i, In i (sure_groups r) -> In i (map fst new)
}.

Lemma Sem_outcome : forall r st st',
    Sem r st st' -> exists w new, outcome_of r st st' w new.
Proof.
  intros r st st' H. induction H.
  - exists [], []. constructor; simpl; auto; try tauto.
  - exists [c], []. constructor; simpl; auto; try tauto. eauto.
  - exists [], []. constructor; simpl; auto; try tauto.
  - destruct IHSem as (w & new & [H2 H3 H4 H5 H6 H7]). simpl in *.
    exists (c :: w), new. constructor; simpl; auto.
    + rewrite H. now rewrite H2.
    + rewrite H3. now rewrite <- app_assoc.
    + now rewrite H0, H5.
  - destruct IHSem1 as (w1 & n1 & [A1 A2 A3 A4 A5 A6]).
    destruct IHSem2 as (w2 & n2 & [B1 B2 B3 B4 B5 B6]).
    exists (w1 ++ w2), (n2 ++ n1). constructor; simpl.
    + rewrite A1, B1. now rewrite app_assoc.
    + rewrite B2, A2, rev_app_distr. now rewrite app_assoc.
    + rewrite B3, A3. now rewrite app_assoc.
    + exists w1, w2. auto.
    + intros i v Hin. apply in_app_or in Hin. destruct Hin as [Hin|Hin].
      * destruct (B5 _ _ Hin) as (a0 & Ha & Hl). exists a0. split; auto.
        apply in_or_app. now right.
      * destruct (A5 _ _ Hin) as (a0 & Ha & Hl). exists a0. split; auto.
        apply in_or_app. now left.
    + intros i Hin. rewrite map_app. apply in_or_app.
      apply in_app_or in Hin. destruct Hin; [right|left]; auto.
  - destruct IHSem as (w & new & [A1 A2 A3 A4 A5 A6]).
    exists w, new. constructor; simpl; auto; try tauto.
    intros i v Hin. destruct (A5 _ _ Hin) as (a0 & Ha & Hl). exists a0. split; auto.
    apply in_or_app. now left.
  - destruct IHSem as (w & new & [A1 A2 A3 A4 A5 A6]).
    exists w, new. constructor; simpl; auto; try tauto.
    intros i v Hin. destruct (A5 _ _ Hin) as (a0 & Ha & Hl). exists a0. split; auto.
    apply in_or_app. now right.
  - destruct IHSem as (w & new & [A1 A2 A3 A4 A5 A6]).
    assert (Hc : consumed st st' = w).
    { unfold consumed. rewrite A1, length_app.
      replace (length w + length (rest st') - length (rest st')) with (length w) by lia.
      rewrite firstn_app, firstn_all, Nat.sub_diag. simpl. apply app_nil_r. }
    exists w, ((i, w) :: new). constructor; simpl; auto.
    + now rewrite Hc, A3.
    + intros j v [Hin|Hin].
      * inversion Hin; subst. exists a. split; auto.
      * destruct (A5 _ _ Hin) as (a0 & Ha & Hl). exists a0. split; auto.
    + intros j [Hj|Hj]; auto.
  - exists [], []. constructor; simpl; auto; try tauto.
  - exists [], []. constructor; simpl; auto; try tauto.
  - exists [], []. constructor; simpl; auto; try tauto.
Qed.

Lemma Lang_nonempty : forall r w, Lang r w -> nullable r = false -> w <> [].
Proof.
  induction r; simpl; intros w H Hn; try discriminate.
  - destruct H as (c & -> & _). discriminate.
  - destruct H as (u & v & -> & Hu & Hv).
    apply andb_false_iff in Hn. destruct Hn as [Hn|Hn].
    + specialize (IHr1 _ Hu Hn). destruct u; [contradiction | discriminate].
    + specialize (IHr2 _ Hv Hn). destruct v; [contradiction|].
      intro E. apply app_eq_nil in E. destruct E. discriminate.
  - apply orb_false_iff in Hn. destruct Hn. destruct H; auto.
  - auto.
Qed.

(** A plain pattern matches every text of its language, wherever it stands. *)
Lemma Lang_Sem : forall r w,
    plain r = true -> Lang r w ->
    forall sn rs cp, Sem r (MState sn (w ++ rs) cp) (MState (rev w ++ sn) rs cp).
Proof.
  induction r; simpl; intros w Hp H sn rs cp; try discriminate.
  - subst. simpl. constructor.
  - destruct H as (c & -> & Hc). simpl.
    change (MState (c :: sn) rs cp) with (advance c rs (MState sn (c :: rs) cp)).
    now constructor.
  - revert sn. induction w as [|c w IH]; intro sn; simpl.
    + constructor.
    + simpl in H. apply andb_true_iff in H. destruct H as [Hc Hw].
      eapply SemStarStep with (c := c) (t := w ++ rs); [reflexivity | exact Hc |].
      unfold advance. simpl. rewrite <- app_assoc. simpl. now apply IH.
  - apply andb_true_iff in Hp. destruct Hp as [P1 P2].
    destruct H as (u & v & -> & Hu & Hv).
    rewrite <- app_assoc. econstructor.
    + apply IHr1; eauto.
    + rewrite rev_app_distr, <- app_assoc. apply IHr2; eauto.
  - apply andb_true_iff in Hp. destruct Hp as [P1 P2]. destruct H.
    + apply SemAltL. now apply IHr1.
    + apply SemAltR. now apply IHr2.
Qed.

(** ** Searching *)

Lemma match_here_sound : forall re sn rs m,
    match_here re sn rs = Some m ->
    exists st' new,
      Sem re (MState sn rs []) st' /\
      outcome_of re (MState sn rs []) st' (m_text m) new /\
      m_index m = length sn /\
      m_end m = length sn + length (m_text m) /\
      m_caps m = new.
Proof.
  intros re sn rs m H. unfold match_here in H.
  destruct (rmatch re (MState sn rs []) (fun st' => Some st')) as [st'|] eqn:E;
    [|discriminate].
  apply rmatch_sound in E. destruct E as (st1 & Hs & E). inversion E; subst st1. clear E.
  inversion H; subst m; clear H. simpl.
  destruct (Sem_outcome Hs) as (w & new & Ho).
  assert (Hc : consumed (MState sn rs []) st' = w).
  { destruct Ho as [A1 _ _ _ _ _]. simpl in A1. rewrite A1. now apply consumed_app. }
  rewrite Hc. exists st', new.
  split; [exact Hs|]. split; [exact Ho|]. split; [reflexivity|].
  destruct Ho as [_ A2 A3 _ _ _]. simpl in A2, A3. split.
  - rewrite A2, length_app, length_rev. lia.
  - rewrite A3. apply app_nil_r.
Qed.

Lemma match_here_complete : forall re sn rs st',
    Sem re (MState sn rs []) st' -> match_here re sn rs <> None.
Proof.
  intros re sn rs st' H. unfold match_here.
  destruct (rmatch re (MState sn rs []) (fun st0 => Some st0)) eqn:E; [discriminate|].
  exfalso. eapply rmatch_complete in H; [apply H; exact E | discriminate].
Qed.

(** A search that succeeds found a match at some position ahead; the
    positions before it admit none. *)
Lemma search_sound : forall re rs sn m,
    search re sn rs = Some m ->
    exists pre rs',
      rs = pre ++ rs' /\ match_here re (rev pre ++ sn) rs' = Some m.
Proof.
  induction rs as [|c t IH]; intros sn m H; simpl in H.
  - destruct (match_here re sn []) eqn:E; [|discriminate].
    inversion H; subst. exists [], []. auto.
  - destruct (match_here re sn (c :: t)) eqn:E.
    + inversion H; subst. exists [], (c :: t). auto.
    + apply IH in H. destruct H as (pre & rs' & -> & H).
      exists (c :: pre), rs'. split; auto. simpl. now rewrite <- app_assoc.
Qed.

Lemma search_complete : forall re pre rs' sn,
    match_here re (rev pre ++ sn) rs' <> None ->
    search re sn (pre ++ rs') <> None.
Proof.
  induction pre as [|c pre IH]; intros rs' sn H; simpl in *.
  - destruct rs'; simpl; destruct (match_here re sn _); try discriminate; contradiction.
  - destruct (match_here re sn (c :: pre ++ rs')); [discriminate|].
    apply IH. now rewrite <- app_assoc in H.
Qed.

(** what a match found by [exec] stands for *)
Record match_of (re : regex) (input : text) (from : nat) (m : rmatch_result)
       (pre post : text) : Prop := mkMatchOf {
  mo_input : input = pre ++ m_text m ++ post;
  mo_from : from <= length pre;
  mo_index : m_index m = length pre;
  mo_end : m_end m = length pre + length (m_text m);
  mo_lang : Lang re (m_text m);
  mo_groups : forall i v, In (i, v) (m_caps m) ->
                          exists a, In (i, a) (groups re) /\ Lang a v;
  mo_sure : forall i, In i (sure_groups re) -> In i (map fst (m_caps m))
}.

Lemma exec_from_sound : forall re input from m,
    exec_from re input from = Some m ->
    exists pre post, match_of re input from m pre post.
Proof.
  intros re input from m H. unfold exec_from in H.
  destruct (length input <? from) eqn:Hlt; [discriminate|].
  apply Nat.ltb_ge in Hlt.
  apply search_sound in H. destruct H as (pre & rs' & Hsk & H).
  apply match_here_sound in H. destruct H as (st' & new & Hs & Ho & Hi & He & Hc).
  destruct Ho as [A1 A2 A3 A4 A5 A6]. simpl in *.
  assert (Hlen : length (rev pre ++ rev (firstn from input)) = length (firstn from input ++ pre)).
  { rewrite !length_app, !length_rev. lia. }
  exists (firstn from input ++ pre), (rest st'). constructor.
  - rewrite <- app_assoc, <- A1, <- Hsk. symmetry. apply firstn_skipn.
  - rewrite length_app, length_firstn. lia.
  - now rewrite Hi.
  - now rewrite He, Hlen.
  - exact A4.
  - now rewrite Hc.
  - now rewrite Hc.
Qed.

Lemma exec_sound : forall re input m,
    exec re input = Some m -> exists pre post, match_of re input 0 m pre post.
Proof. intros re input m H. now apply exec_from_sound. Qed.



(** ** Global patterns: one match after the other *)

Lemma exec_loop_In : forall fuel re input from m,
    In m (exec_loop fuel re input from) ->
    exists from', exec_from re input from' = Some m.
Proof.
  induction fuel as [|fuel IH]; intros re input from m H; simpl in H; [contradiction|].
  destruct (exec_from re input from) as [m0|] eqn:E; [|contradiction].
  destruct H as [H|H].
  - subst. eauto.
  - eapply IH; eauto.
Qed.

Lemma exec_all_In : forall re input m,
    In m (exec_all re input) -> exists from pre post, match_of re input from m pre post.
Proof.
  intros re input m H. apply exec_loop_In in H. destruct H as (from & H).
  apply exec_from_sound in H. destruct H as (pre & post & H). eauto.
Qed.


(** A pattern that matches no empty text moves forward at every round; the
    rounds granted to [exec_all] are never used up. *)
Lemma exec_loop_fuel : forall re input,
    nullable re = false ->
    forall extra fuel from,
      length input < fuel + from ->
      exec_loop (fuel + extra) re input from = exec_loop fuel re input from.
Proof.
  intros re input Hn extra. induction fuel as [|fuel IH]; intros from Hlen.
  - simpl in Hlen. destruct extra; simpl; [reflexivity|].
    unfold exec_from. destruct (length input <? from) eqn:E; [reflexivity|].
    apply Nat.ltb_ge in E. lia.
  - simpl. destruct (exec_from re input from) as [m|] eqn:E; [|reflexivity].
    f_equal. apply IH.
    apply exec_from_sound in E. destruct E as (pre & post & [E1 E2 E3 E4 E5 _ _]).
    apply Lang_nonempty in E5; [|exact Hn].
    destruct (m_text m) as [|c w]; [contradiction|]. simpl in E4. lia.
Qed.


Lemma exec_all_enough_rounds : forall re input extra,
    nullable re = false ->
    exec_loop (S (length input) + extra) re input 0 = exec_all re input.
Proof.
  intros re input extra Hn. unfold exec_all. apply exec_loop_fuel; [exact Hn | lia].
Qed.

(** the global patterns of the script match no empty text *)
Lemma global_patterns_not_nullable :
  forallb (fun re => negb (nullable re))
          [experienceRewardRegex; lampRegex; skillRequirementRegex; questRequirementRegex;
           addRegex; itemRequirementRegex; aliasRegex; panelRegex; stepAssignRegex;
           objectStepRegex; Lit "'"; Lit "_"; Group 1 (Chr is_upper);
           (WordB ;; Chr is_word)%re;
           (Group 1 (Chr is_lower) ;; Group 2 (Chr is_upper))%re;
           (Group 1 (Plus is_upper) ;; Group 2 (Chr is_upper ;; Chr is_lower))%re]
  = true.
Proof. reflexivity. Qed.

(** The rounds granted to [split_re] are never used up: a round moves [q]
    forward, or starts a new piece at a match that ends ahead of [p]. *)
Lemma split_loop_fuel : forall re input f1 f2 p q,
    p <= q ->
    2 * (length input - q) + (if p <? q then 1 else 0) < f1 ->
    2 * (length input - q) + (if p <? q then 1 else 0) < f2 ->
    split_loop f1 re input p q = split_loop f2 re input p q.
Proof.
  intros re input. induction f1 as [|f1 IH]; intros f2 p q Hpq H1 H2; [lia|].
  destruct f2 as [|f2]; [lia|]. cbn [split_loop].
  destruct (length input <=? q) eqn:Hq; [reflexivity|].
  apply Nat.leb_gt in Hq.
  assert (Hnext : split_loop f1 re input p (S q) = split_loop f2 re input p (S q)).
  { assert (Hlt : (p <? S q) = true) by (apply Nat.ltb_lt; lia).
    apply IH; [lia | |]; rewrite Hlt; destruct (p <? q); lia. }
  destruct (match_here re (rev (firstn q input)) (skipn q input)) as [m|] eqn:E;
    [|exact Hnext].
  apply match_here_sound in E. destruct E as (_ & _ & _ & _ & _ & He & _).
  rewrite length_rev, length_firstn in He.
  destruct (Nat.min (m_end m) (length input) =? p) eqn:Ep; [exact Hnext|].
  apply Nat.eqb_neq in Ep. f_equal.
  assert (Hnn : (Nat.min (m_end m) (length input) <? Nat.min (m_end m) (length input))
                = false) by apply Nat.ltb_irrefl.
  apply IH; [lia | |]; rewrite Hnn; destruct (p <? q) eqn:Hp;
    try apply Nat.ltb_ge in Hp; lia.
Qed.

(** ** The Method-Body Locator *)

Lemma Lang_Lit_chars : forall s w, Lang (Lit_chars s) w <-> w = s.
Proof.
  induction s as [|c s IH]; intro w; simpl.
  - tauto.
  - split.
    + intros (u & v & -> & (c0 & -> & Hc) & Hv).
      apply IH in Hv. subst. unfold chr_eq in Hc. apply Ascii.eqb_eq in Hc. now subst.
    + intros ->. exists [c], s. repeat split; auto.
      * exists c. split; auto. unfold chr_eq. apply Ascii.eqb_refl.
      * now apply IH.
Qed.

Lemma count_chr_cons : forall a c s,
    count_chr a (c :: s) = (if Ascii.eqb c a then 1 else 0) + count_chr a s.
Proof. intros a c s. unfold count_chr. simpl. now destruct (Ascii.eqb c a). Qed.






(** ** Which declarations the locator recognises *)

Lemma Lang_Cat : forall a b u v, Lang a u -> Lang b v -> Lang (Cat a b) (u ++ v).
Proof. intros a b u v Hu Hv. simpl. eauto. Qed.


Lemma Lang_Plus : forall p w, run1 p w = true -> Lang (Plus p) w.
Proof.
  intros p w H. unfold run1 in H. apply andb_true_iff in H. destruct H as [Hn Hp].
  destruct w as [|c w]; [discriminate|]. simpl in Hp.
  apply andb_true_iff in Hp. destruct Hp as [Hc Hw].
  unfold Plus. change (c :: w) with ([c] ++ w). apply Lang_Cat; simpl; eauto.
Qed.

Lemma Lang_Plus_inv : forall p w, Lang (Plus p) w -> run1 p w = true.
Proof.
  intros p w (u & v & -> & (c & -> & Hc) & Hv). simpl in Hv.
  unfold run1. simpl. now rewrite Hc, Hv.
Qed.







Lemma starts_with_app : forall w post, starts_with w (w ++ post) = true.
Proof.
  induction w as [|c w IH]; intro post; simpl; auto.
  now rewrite Ascii.eqb_refl, IH.
Qed.





(** ** The Literal-String Reconstructor *)

Lemma read_fragment_literal : forall f r,
    forallb piece_ok f = true ->
    read_fragment (flat_map piece_source f ++ dquote :: r) = (kept f, r).
Proof.
  induction f as [|p f IH]; intros r H.
  - simpl. reflexivity.
  - simpl in H. apply andb_true_iff in H. destruct H as [Hp Hf].
    destruct p as [c|c]; cbn [flat_map piece_source kept app].
    + simpl in Hp. apply andb_true_iff in Hp. destruct Hp as [Hb Hq].
      apply negb_true_iff in Hb. apply negb_true_iff in Hq.
      cbn [read_fragment]. rewrite Hb, Hq.
      fold (kept f). now rewrite IH.
    + cbn [read_fragment]. rewrite Ascii.eqb_refl. fold (kept f). now apply IH.
Qed.

Lemma drop_while_app : forall p w s,
    forallb p w = true -> drop_while p (w ++ s) = drop_while p s.
Proof.
  induction w as [|c w IH]; intros s H; simpl in *; auto.
  apply andb_true_iff in H. destruct H as [Hc Hw]. rewrite Hc. now apply IH.
Qed.

Lemma skipn_length_app : forall (a b : text), skipn (length a) (a ++ b) = b.
Proof. induction a; simpl; auto. Qed.

Lemma length_literal : forall f, 2 <= length (literal f).
Proof. intro f. unfold literal. simpl. rewrite length_app. simpl. lia. Qed.

Lemma read_parts_concatenation : forall more first after fuel,
    forallb piece_ok first = true ->
    forallb joint_ok more = true ->
    goes_on after = false ->
    length (concatenation first more ++ after) <= fuel ->
    read_parts fuel (concatenation first more ++ after)
    = kept first :: map (fun j => kept (j_fragment j)) more.
Proof.
  induction more as [|j more IH]; intros first after fuel Hf Hm Hgo Hlen.
  - unfold concatenation in *. simpl flat_map in *. rewrite app_nil_r in *.
    destruct fuel as [|fuel].
    { pose proof (length_literal first). rewrite length_app in Hlen. lia. }
    unfold literal. cbn [read_parts app]. rewrite <- app_assoc. cbn [app].
    rewrite read_fragment_literal by assumption.
    simpl map. f_equal. unfold goes_on in Hgo.
    destruct (drop_while is_space after) as [|c r2]; [reflexivity|].
    destruct (Ascii.eqb c "+"); [|reflexivity].
    simpl in Hgo. now rewrite Hgo.
  - unfold concatenation in *. cbn [flat_map] in *.
    destruct fuel as [|fuel].
    { pose proof (length_literal first). rewrite !length_app in Hlen. lia. }
    simpl in Hm. apply andb_true_iff in Hm. destruct Hm as [Hj Hm].
    unfold joint_ok in Hj. apply andb_true_iff in Hj. destruct Hj as [Hj Hjf].
    apply andb_true_iff in Hj. destruct Hj as [Hb Ha].
    unfold literal at 1. cbn [read_parts app]. rewrite <- !app_assoc. cbn [app].
    rewrite read_fragment_literal by assumption.
    cbn [map]. f_equal.
    unfold joint_source at 1. rewrite <- !app_assoc.
    rewrite drop_while_app by assumption. cbn [app drop_while].
    change (is_space "+") with false. cbv iota.
    rewrite Ascii.eqb_refl. rewrite <- !app_assoc.
    rewrite drop_while_app by assumption.
    unfold literal at 1. cbn [app drop_while].
    change (is_space dquote) with false. cbv iota.
    cbn [head_is]. unfold chr_eq at 1. rewrite Ascii.eqb_refl.
    specialize (IH (j_fragment j) after fuel Hjf Hm Hgo).
    unfold literal in IH at 1. cbn [app] in IH. rewrite <- !app_assoc in IH.
    cbn [app] in IH. apply IH.
    unfold literal in Hlen at 1. cbn [app length] in Hlen.
    unfold joint_source in Hlen at 1. unfold literal in Hlen at 1.
    repeat (rewrite ?length_app in Hlen; cbn [length app] in Hlen).
    repeat (rewrite ?length_app; cbn [length app]). lia.
Qed.

(** The rounds granted to the outer loop are never used up, whatever the
    text: every round takes at least the opening quote. *)
Lemma drop_while_length : forall p s, length (drop_while p s) <= length s.
Proof.
  intros p. induction s as [|c s IH]; simpl; [lia|].
  destruct (p c); simpl; lia.
Qed.

Lemma read_fragment_length : forall n s,
    length s <= n -> length (snd (read_fragment s)) <= length s.
Proof.
  induction n as [|n IH]; intros s Hn.
  - destruct s; [simpl; lia | simpl in Hn; lia].
  - destruct s as [|c t]; [simpl; lia|]. cbn [read_fragment].
    destruct (Ascii.eqb c backslash).
    + destruct t as [|c' t']; [simpl; lia|].
      simpl in Hn. assert (H : length t' <= n) by lia.
      specialize (IH t' H). simpl. lia.
    + destruct (Ascii.eqb c dquote); [simpl; lia|].
      simpl in Hn. assert (H : length t <= n) by lia. specialize (IH t H).
      destruct (read_fragment t) as [frag r]. simpl in *. lia.
Qed.

Lemma read_parts_fuel : forall f1 f2 s,
    length s <= f1 -> length s <= f2 -> read_parts f1 s = read_parts f2 s.
Proof.
  induction f1 as [|f1 IH]; intros f2 s H1 H2.
  - destruct s; [|simpl in H1; lia]. destruct f2; reflexivity.
  - destruct f2 as [|f2].
    + destruct s; [reflexivity | simpl in H2; lia].
    + destruct s as [|c t]; [reflexivity|]. cbn [read_parts].
      pose proof (@read_fragment_length (length t) t (le_n _)) as Hlen.
      destruct (read_fragment t) as [frag r]. simpl in Hlen. f_equal.
      pose proof (drop_while_length is_space r) as Hd.
      destruct (drop_while is_space r) as [|c1 r2]; [reflexivity|].
      destruct (Ascii.eqb c1 "+"); [|reflexivity].
      pose proof (drop_while_length is_space r2) as Hd2.
      destruct (head_is (chr_eq dquote) (drop_while is_space r2)); [|reflexivity].
      simpl in H1, H2, Hd. apply IH; lia.
Qed.

(** C3, as the code has it.  Started at the opening quote of the first of
    [N >= 1] fragments joined by [+], the reconstructor returns the
    contents of the fragments one after the other, with no separator and
    whatever the white space around each [+], but with every escape
    sequence (the backslash and the character after it) left out. *)
Theorem readConcatenatedString_concatenation :
  forall before first more after,
    forallb piece_ok first = true ->
    forallb joint_ok more = true ->
    goes_on after = false ->
    readConcatenatedString (before ++ concatenation first more ++ after) (length before)
    = kept first ++ flat_map (fun j => kept (j_fragment j)) more.
Proof.
  intros before first more after Hf Hm Hgo. unfold readConcatenatedString.
  rewrite skipn_length_app.
  rewrite read_parts_concatenation by (auto; lia).
  cbn [concat]. f_equal. now rewrite flat_map_concat_map.
Qed.

Lemma readConcatenatedString_concatenation_witness :
  readConcatenatedString
    (txt "talk = new NpcStep(this, cook, new WorldPoint(3206, 3214, 0), "
     ++ concatenation escaped_first escaped_more ++ txt ");")
    62
  = txt "Say hi now".
Proof.
  exact (readConcatenatedString_concatenation
           (txt "talk = new NpcStep(this, cook, new WorldPoint(3206, 3214, 0), ")
           escaped_first escaped_more (txt ");") eq_refl eq_refl eq_refl).
Defined.

(** C3, as stated, fails on a fragment with an escape sequence: the two
    escaped quotes of the first fragment are not in the result. *)
Lemma readConcatenatedString_drops_escapes :
  readConcatenatedString (concatenation escaped_first escaped_more) 0
  = txt "Say hi now" /\
  resolved escaped_first ++ flat_map (fun j => resolved (j_fragment j)) escaped_more
  = java "Say 'hi' now" /\
  readConcatenatedString (concatenation escaped_first escaped_more) 0
  <> resolved escaped_first ++ flat_map (fun j => resolved (j_fragment j)) escaped_more.
Proof.
  split; [vm_compute; reflexivity|]. split; [vm_compute; reflexivity|].
  vm_compute. discriminate.
Qed.

(** ** The Record Assembler *)

Lemma step_eta : forall d, mkStep (stepDescription d) (worldpoint d) = d.
Proof. now destruct d. Qed.

Lemma panel_steps_found : forall stepData varNames,
    panel_steps stepData varNames = found stepData varNames.
Proof.
  intros stepData. induction varNames as [|v vs IH]; simpl; auto.
  destruct (map_get stepData v) as [d|]; simpl.
  - now rewrite step_eta, IH.
  - exact IH.
Qed.

Lemma found_app : forall stepData a b,
    found stepData (a ++ b) = found stepData a ++ found stepData b.
Proof. intros. unfold found. apply flat_map_app. Qed.

Lemma buildSteps_app : forall stepData a b,
    buildSteps (a ++ b) stepData = buildSteps a stepData ++ buildSteps b stepData.
Proof. intros. unfold buildSteps. apply map_app. Qed.

(** C7.  The assembler keeps the panels and their names in order; the
    steps of a panel are the records of the referenced names that have
    one, in the order of the references.  A name without a record is
    passed over: the panel is still there, with the records of the names
    before and after it, unchanged and in their order. *)
Theorem buildSteps_skips_dangling :
  forall stepData panels,
    map panelName (buildSteps panels stepData) = map g_panelName panels /\
    map steps (buildSteps panels stepData)
    = map (fun p => found stepData (stepVarNames p)) panels /\
    (forall before title earlier dangling later after,
        panels = before ++ mkGrouping title (earlier ++ dangling :: later) :: after ->
        map_get stepData dangling = None ->
        buildSteps panels stepData
        = buildSteps before stepData
            ++ mkPanel title (found stepData earlier ++ found stepData later)
            :: buildSteps after stepData).
Proof.
  intros stepData panels. split; [|split].
  - unfold buildSteps. rewrite map_map. reflexivity.
  - unfold buildSteps. rewrite map_map. apply map_ext. intro p. simpl.
    apply panel_steps_found.
  - intros before title earlier dangling later after -> Hnone.
    rewrite buildSteps_app. f_equal. unfold buildSteps at 1. cbn [map]. f_equal.
    cbn [g_panelName stepVarNames]. f_equal.
    rewrite panel_steps_found, found_app. f_equal.
    unfold found at 1. cbn [flat_map]. now rewrite Hnone.
Qed.

Lemma buildSteps_skips_dangling_witness :
  buildSteps [mkGrouping (txt "Starting off")
                         [txt "step1"; txt "missingStep"; txt "step2"]]
             sample_stepData
  = [mkPanel (txt "Starting off")
             [sample_step "Talk to the chef." 3206 3214 0;
              sample_step "Pick an egg." 3229 3299 0]].
Proof.
  exact (proj2 (proj2 (buildSteps_skips_dangling sample_stepData _))
           [] (txt "Starting off") [txt "step1"] (txt "missingStep") [txt "step2"] []
           eq_refl eq_refl).
Defined.

(** ** Quest prerequisites without repetition *)

Lemma includes_In : forall l a, includes l a = true <-> In a l.
Proof.
  intros l a. unfold includes. rewrite existsb_exists. split.
  - intros (y & Hy & E). apply text_eqb_eq in E. now subst.
  - intro H. exists a. split; auto. apply text_eqb_refl.
Qed.

Lemma includes_app : forall l a b,
    includes (l ++ [a]) b = includes l b || text_eqb b a.
Proof.
  intros l a b. unfold includes. rewrite existsb_app. simpl. now rewrite orb_false_r.
Qed.

Lemma filter_filter : forall (T : Type) (p q : T -> bool) l,
    filter p (filter q l) = filter (fun y => p y && q y) l.
Proof.
  intros T p q. induction l as [|c l IH]; simpl; auto.
  destruct (q c) eqn:Hq; simpl.
  - rewrite andb_true_r. destruct (p c); now rewrite IH.
  - now rewrite andb_false_r.
Qed.

Lemma fold_push_unique : forall names acc,
    fold_left push_unique names acc
    = acc ++ filter (fun y => negb (includes acc y)) (first_seen names).
Proof.
  induction names as [|n t IH]; intro acc; simpl.
  - now rewrite app_nil_r.
  - rewrite IH. unfold push_unique. destruct (includes acc n) eqn:Hin; simpl.
    + f_equal. rewrite filter_filter. apply filter_ext. intro y.
      destruct (text_eqb y n) eqn:E; simpl.
      * apply text_eqb_eq in E. subst. now rewrite Hin.
      * now rewrite andb_true_r.
    + rewrite <- app_assoc. simpl. do 2 f_equal.
      rewrite filter_filter. apply filter_ext. intro y.
      rewrite includes_app. now rewrite negb_orb.
Qed.

Lemma first_seen_In : forall l a, In a (first_seen l) <-> In a l.
Proof.
  induction l as [|n t IH]; intro a; simpl; [tauto|].
  rewrite filter_In, IH. split.
  - intros [H|[H _]]; auto.
  - intros [H|H]; auto.
    destruct (text_eqb a n) eqn:E.
    + apply text_eqb_eq in E. auto.
    + right. auto.
Qed.

Lemma first_seen_NoDup : forall l, NoDup (first_seen l).
Proof.
  induction l as [|n t IH]; simpl; constructor.
  - rewrite filter_In. intros [_ H]. now rewrite text_eqb_refl in H.
  - now apply NoDup_filter.
Qed.

Lemma filter_nothing_seen : forall l,
    filter (fun y => negb (includes [] y)) l = l.
Proof. induction l as [|c l IH]; simpl; [reflexivity | f_equal; exact IH]. Qed.

Lemma fold_left_map : forall (X Y Z : Type) (f : Z -> Y -> Z) (g : X -> Y) l acc,
    fold_left (fun a x => f a (g x)) l acc = fold_left f (map g l) acc.
Proof. intros X Y Z f g. induction l; simpl; auto. Qed.



(** ** The step table *)

Lemma map_get_set : forall (V : Type) (m : jsmap V) k v k',
    map_get (map_set m k v) k' = if text_eqb k' k then Some v else map_get m k'.
Proof.
  intros V. induction m as [|[k0 v0] m IH]; intros k v k'; simpl.
  - reflexivity.
  - destruct (text_eqb k k0) eqn:E; simpl.
    + apply text_eqb_eq in E. subst k0. now destruct (text_eqb k' k).
    + rewrite IH. destruct (text_eqb k' k0) eqn:E0; [|reflexivity].
      apply text_eqb_eq in E0. subst k0.
      rewrite text_eqb_sym, E. reflexivity.
Qed.

Lemma find_app : forall (T : Type) (p : T -> bool) a b,
    find p (a ++ b) = match find p a with Some v => Some v | None => find p b end.
Proof.
  intros T p. induction a as [|c a IH]; intro b; simpl; auto.
  now destruct (p c).
Qed.

(** the first loop: the last match of a variable decides *)
Lemma fold_set_step : forall body ms acc v,
    map_get (fold_left (set_step body) ms acc) v
    = match last_match v ms with
      | Some m => Some (step_of_match body m)
      | None => map_get acc v
      end.
Proof.
  intros body. induction ms as [|m ms IH]; intros acc v; simpl.
  - reflexivity.
  - rewrite IH. unfold last_match. simpl. rewrite find_app.
    destruct (find (assigns v) (rev ms)); [reflexivity|].
    simpl. unfold set_step. rewrite map_get_set. unfold assigns.
    now destruct (text_eqb v (cap_str m 1)).
Qed.

(** the second loop: a variable already bound stays as it is; otherwise its
    first match decides *)
Lemma fold_set_step_if_absent : forall body ms acc v,
    map_get (fold_left (set_step_if_absent body) ms acc) v
    = match map_get acc v with
      | Some s => Some s
      | None => option_map (step_of_match body) (first_match v ms)
      end.
Proof.
  intros body. induction ms as [|m ms IH]; intros acc v; simpl.
  - now destruct (map_get acc v).
  - rewrite IH. unfold set_step_if_absent, map_has, first_match. simpl. unfold assigns.
    destruct (map_get acc (cap_str m 1)) eqn:Ek.
    + destruct (map_get acc v) eqn:Ev; [reflexivity|].
      destruct (text_eqb v (cap_str m 1)) eqn:E; [|reflexivity].
      apply text_eqb_eq in E. subst v. congruence.
    + rewrite map_get_set.
      destruct (text_eqb v (cap_str m 1)) eqn:E.
      * apply text_eqb_eq in E. subst v. now rewrite Ek.
      * reflexivity.
Qed.

(** C4, as the code has it.  Among the assignments that match the
    NpcStep-or-ObjectStep pattern the last one to a variable gives its
    binding: a later one replaces an earlier one.  The pass over the
    ObjectStep pattern never replaces such a binding; it binds a variable
    only when the first pass left it unbound, to its first match. *)
Theorem parseSetupSteps_binding :
  forall java body v,
    extractMethodBody java (txt "setupSteps") = Some body ->
    map_get (parseSetupSteps java) v
    = match last_match v (exec_all stepAssignRegex body) with
      | Some m => Some (step_of_match body m)
      | None =>
          option_map (step_of_match body) (first_match v (exec_all objectStepRegex body))
      end.
Proof.
  intros java body v H. unfold parseSetupSteps. rewrite H.
  destruct body as [|c body]; [reflexivity|]. cbn [truthy negb].
  unfold steps_of_body. rewrite fold_set_step_if_absent, fold_set_step. simpl map_get.
  destruct (last_match v (exec_all stepAssignRegex (c :: body))); reflexivity.
Qed.

Lemma parseSetupSteps_binding_witness :
  map_get (parseSetupSteps twice_assigned) (txt "talk")
  = Some (sample_step "Talk to the duke." 3210 3222 1).
Proof.
  rewrite (@parseSetupSteps_binding twice_assigned twice_assigned_body (txt "talk")).
  - vm_compute. reflexivity.
  - vm_compute. reflexivity.
Defined.

(** C4, as stated, fails: the first matching assignment to [talk] is the
    one with the cook, and the table binds [talk] to the later one. *)
Lemma parseSetupSteps_later_assignment_wins :
  option_map (step_of_match twice_assigned_body)
             (first_match (txt "talk") (exec_all stepAssignRegex twice_assigned_body))
  = Some (sample_step "Talk to the cook." 3206 3214 0) /\
  map_get (parseSetupSteps twice_assigned) (txt "talk")
  = Some (sample_step "Talk to the duke." 3210 3222 1) /\
  map_get (parseSetupSteps twice_assigned) (txt "talk")
  <> option_map (step_of_match twice_assigned_body)
       (first_match (txt "talk") (exec_all stepAssignRegex twice_assigned_body)).
Proof.
  split; [vm_compute; reflexivity|]. split; [vm_compute; reflexivity|].
  vm_compute. discriminate.
Qed.

(** ** The Symbolic Reference Resolver *)

Lemma map_get_In_keys : forall (V : Type) (m : jsmap V) k v,
    map_get m k = Some v -> In k (map fst m).
Proof.
  intros V. induction m as [|[k0 v0] m IH]; intros k v H; simpl in *; [discriminate|].
  destruct (text_eqb k k0) eqn:E.
  - apply text_eqb_eq in E. auto.
  - right. eauto.
Qed.

(** more depth does not change what a call that returns comes to *)
Lemma resolve_more_fuel : forall D A f n,
    resolve f D A n <> StackOverflow ->
    forall f', f <= f' -> resolve f' D A n = resolve f D A n.
Proof.
  intros D A. induction f as [|f IH]; intros n H f' Hle.
  - simpl in H. contradiction.
  - destruct f' as [|f']; [lia|]. simpl in *.
    assert (Hvia :
      match map_get A n with
      | Some target => if truthy target then resolve f D A target else Unresolved
      | None => Unresolved
      end <> StackOverflow ->
      match map_get A n with
      | Some target => if truthy target then resolve f' D A target else Unresolved
      | None => Unresolved
      end =
      match map_get A n with
      | Some target => if truthy target then resolve f D A target else Unresolved
      | None => Unresolved
      end).
    { intro Hv. destruct (map_get A n) as [t|]; [|reflexivity].
      destruct (truthy t); [|reflexivity]. apply IH; [exact Hv | lia]. }
    destruct (map_get D n) as [d|]; [destruct (truthy d); [reflexivity|] |]; auto.
Qed.

Lemma leads_to_resolve : forall D A n d,
    leads_to D A n d -> exists f0, forall f, f0 <= f -> resolve f D A n = Resolved d.
Proof.
  intros D A n d H. induction H as [n d [Hd Ht] | n t d Hn Ha Ht H IH].
  - exists 1. intros [|f] Hf; [lia|]. simpl. now rewrite Hd, Ht.
  - destruct IH as (f0 & IH). exists (S f0). intros [|f] Hf; [lia|]. simpl.
    rewrite Ha, Ht. rewrite IH by lia.
    destruct Hn as [Hn|Hn]; rewrite Hn; reflexivity.
Qed.

Lemma dead_end_resolve : forall D A n,
    dead_end D A n -> exists f0, forall f, f0 <= f -> resolve f D A n = Unresolved.
Proof.
  intros D A n H. induction H as [n Hn Ha | n t Hn Ha Ht H IH].
  - exists 1. intros [|f] Hf; [lia|]. simpl.
    destruct Ha as [Ha|Ha]; rewrite Ha; destruct Hn as [Hn|Hn]; rewrite Hn; reflexivity.
  - destruct IH as (f0 & IH). exists (S f0). intros [|f] Hf; [lia|]. simpl.
    rewrite Ha, Ht. rewrite IH by lia.
    destruct Hn as [Hn|Hn]; rewrite Hn; reflexivity.
Qed.

(** a call that does not return within [f] calls has passed [f] aliases *)
Lemma overflow_chain : forall D A f n,
    resolve f D A n = StackOverflow ->
    exists passed, length passed = f /\ alias_chain A n passed.
Proof.
  intros D A. induction f as [|f IH]; intros n H.
  - exists []. simpl. auto.
  - simpl in H.
    assert (Hv : match map_get A n with
                 | Some target => if truthy target then resolve f D A target else Unresolved
                 | None => Unresolved
                 end = StackOverflow).
    { destruct (map_get D n) as [d|]; [destruct (truthy d); [discriminate|] |]; exact H. }
    destruct (map_get A n) as [t|] eqn:Ha; [|discriminate].
    destruct (truthy t); [|discriminate].
    apply IH in Hv. destruct Hv as (passed & Hlen & Hc).
    exists (n :: passed). simpl. split; [lia|]. split; [reflexivity|]. eauto.
Qed.

Lemma alias_chain_reaches : forall A passed n t,
    map_get A n = Some t -> alias_chain A t passed ->
    forall u, In u passed -> u = t \/ reaches A t u.
Proof.
  intros A. induction passed as [|s others IH]; intros n t Hn Hc u Hu; [contradiction|].
  simpl in Hc. destruct Hc as (-> & t' & Ht & Hc). destruct Hu as [Hu|Hu]; [now left|].
  right. destruct (IH _ _ Ht Hc _ Hu) as [->|Hr].
  - now apply reaches_step.
  - eapply reaches_more; eauto.
Qed.

Lemma alias_chain_NoDup : forall A, acyclic A ->
    forall passed n, alias_chain A n passed -> NoDup passed.
Proof.
  intros A Hac. induction passed as [|s others IH]; intros n Hc; constructor.
  - simpl in Hc. destruct Hc as (-> & t & Ht & Hc). intro Hin.
    destruct (alias_chain_reaches _ _ _ Ht Hc _ Hin) as [E|Hr].
    + subst t. apply (Hac n). now apply reaches_step.
    + apply (Hac n). eapply reaches_more; eauto.
  - simpl in Hc. destruct Hc as (_ & t & _ & Hc). eauto.
Qed.

Lemma alias_chain_keys : forall A passed n,
    alias_chain A n passed -> incl passed (map fst A).
Proof.
  intros A. induction passed as [|s others IH]; intros n Hc u Hu; [contradiction|].
  simpl in Hc. destruct Hc as (-> & t & Ht & Hc). destruct Hu as [<-|Hu].
  - eapply map_get_In_keys; eauto.
  - eapply IH; eauto.
Qed.

(** Without a cycle every call returns within the depth granted. *)
Lemma resolve_acyclic_returns : forall D A n,
    acyclic A -> resolve (resolve_depth A) D A n <> StackOverflow.
Proof.
  intros D A n Hac H. apply overflow_chain in H. destruct H as (passed & Hlen & Hc).
  pose proof (alias_chain_NoDup Hac _ _ Hc) as Hnd.
  pose proof (alias_chain_keys _ _ _ Hc) as Hincl.
  pose proof (NoDup_incl_length Hnd Hincl) as Hle.
  rewrite length_map in Hle. unfold resolve_depth in Hlen. lia.
Qed.

Lemma resolve_leads_to : forall D A n d,
    acyclic A -> leads_to D A n d -> resolve (resolve_depth A) D A n = Resolved d.
Proof.
  intros D A n d Hac H. destruct (leads_to_resolve H) as (f0 & Hf).
  rewrite <- (Hf (Nat.max f0 (resolve_depth A))) by lia.
  symmetry. apply resolve_more_fuel; [now apply resolve_acyclic_returns | lia].
Qed.

Lemma resolve_dead_end : forall D A n,
    acyclic A -> dead_end D A n -> resolve (resolve_depth A) D A n = Unresolved.
Proof.
  intros D A n Hac H. destruct (dead_end_resolve H) as (f0 & Hf).
  rewrite <- (Hf (Nat.max f0 (resolve_depth A))) by lia.
  symmetry. apply resolve_more_fuel; [now apply resolve_acyclic_returns | lia].
Qed.

(** the check of [acyclic] is sound *)
Lemma runs_out_reaches : forall A n u,
    reaches A n u -> forall f, runs_out A n f = true ->
    exists f', f' < f /\ runs_out A u f' = true.
Proof.
  intros A n u H. induction H as [n t Hn | n t u Hn H IH]; intros f Hf.
  - destruct f as [|f]; simpl in Hf; rewrite Hn in Hf; [discriminate|].
    exists f. split; [lia | exact Hf].
  - destruct f as [|f]; simpl in Hf; rewrite Hn in Hf; [discriminate|].
    destruct (IH _ Hf) as (f' & Hlt & Hr). exists f'. split; [lia | exact Hr].
Qed.

Lemma runs_out_no_cycle : forall A f n, runs_out A n f = true -> ~ reaches A n n.
Proof.
  intros A f. induction f as [f IH] using lt_wf_ind. intros n Hf Hr.
  destruct (runs_out_reaches Hr _ Hf) as (f' & Hlt & Hf').
  exact (IH f' Hlt n Hf' Hr).
Qed.

Lemma acyclicb_sound : forall A, acyclicb A = true -> acyclic A.
Proof.
  intros A H n Hr. unfold acyclicb in H. rewrite forallb_forall in H.
  assert (Hk : In n (map fst A)).
  { inversion Hr; subst; eapply map_get_In_keys; eauto. }
  exact (@runs_out_no_cycle A _ n (H _ Hk) Hr).
Qed.

(** the maps built by [set] have each key once *)
Lemma In_keys_map_set : forall (V : Type) (m : jsmap V) k v a,
    In a (map fst (map_set m k v)) -> a = k \/ In a (map fst m).
Proof.
  intros V. induction m as [|[k0 v0] m IH]; intros k v a H; simpl in *.
  - destruct H as [H|[]]. auto.
  - destruct (text_eqb k k0) eqn:E; simpl in H.
    + auto.
    + destruct H as [H|H]; auto. apply IH in H. tauto.
Qed.

Lemma NoDup_keys_map_set : forall (V : Type) (m : jsmap V) k v,
    NoDup (map fst m) -> NoDup (map fst (map_set m k v)).
Proof.
  intros V. induction m as [|[k0 v0] m IH]; intros k v H; simpl in *.
  - constructor; [tauto | constructor].
  - inversion H as [|? ? Hnin Hnd]; subst.
    destruct (text_eqb k k0) eqn:E; simpl.
    + constructor; assumption.
    + constructor; [|now apply IH].
      intro Hin. apply In_keys_map_set in Hin. destruct Hin as [Hin|Hin]; [|contradiction].
      subst. now rewrite text_eqb_refl in E.
Qed.

Lemma NoDup_keys_collect_pairs : forall ms, NoDup (map fst (collect_pairs ms)).
Proof.
  intro ms. unfold collect_pairs.
  assert (H : forall acc : jsmap text, NoDup (map fst acc) ->
              NoDup (map fst (fold_left
                (fun mp m => map_set mp (cap_str m 1) (cap_str m 2)) ms acc))).
  { induction ms as [|m ms IH]; intros acc Hacc; simpl; auto.
    apply IH. now apply NoDup_keys_map_set. }
  apply H. constructor.
Qed.

Lemma map_get_not_key : forall (V : Type) (m : jsmap V) k,
    ~ In k (map fst m) -> map_get m k = None.
Proof.
  intros V m k H. destruct (map_get m k) eqn:E; [|reflexivity].
  exfalso. apply H. eapply map_get_In_keys; eauto.
Qed.

(** the copy of [displayByVar] into [result] *)
Lemma copy_get : forall (D acc : jsmap text) k,
    NoDup (map fst D) ->
    map_get (fold_left (fun r kv => map_set r (fst kv) (snd kv)) D acc) k
    = match map_get D k with Some v => Some v | None => map_get acc k end.
Proof.
  induction D as [|[k0 v0] D IH]; intros acc k H; simpl.
  - reflexivity.
  - inversion H as [|? ? Hnin Hnd]; subst. rewrite IH by assumption.
    rewrite map_get_set. destruct (text_eqb k k0) eqn:E.
    + apply text_eqb_eq in E. subst. now rewrite map_get_not_key.
    + reflexivity.
Qed.

Lemma resolved_truthy : forall D A f n d,
    resolve f D A n = Resolved d -> truthy d = true.
Proof.
  intros D A. induction f as [|f IH]; intros n d H; simpl in H; [discriminate|].
  assert (Hv : match map_get A n with
               | Some target => if truthy target then resolve f D A target else Unresolved
               | None => Unresolved
               end = Resolved d -> truthy d = true).
  { destruct (map_get A n) as [t|]; [|discriminate].
    destruct (truthy t); [apply IH | discriminate]. }
  destruct (map_get D n) as [d0|]; [|auto].
  destruct (truthy d0) eqn:E; [|auto]. inversion H; subst. exact E.
Qed.

(** the loop over the aliases, when every call returns *)
Lemma resolve_aliases_get : forall D A,
    (forall n, resolve (resolve_depth A) D A n <> StackOverflow) ->
    forall keys r0, exists r,
      resolve_aliases D A keys r0 = Normal r /\
      forall n, map_get r n
                = if includes keys n
                  then match resolve (resolve_depth A) D A n with
                       | Resolved d => Some d
                       | _ => map_get r0 n
                       end
                  else map_get r0 n.
Proof.
  intros D A Hret. induction keys as [|k ks IH]; intro r0.
  - exists r0. split; [reflexivity|]. intro n. reflexivity.
  - cbn [resolve_aliases].
    destruct (resolve (resolve_depth A) D A k) as [d| |] eqn:Ek.
    + rewrite (@resolved_truthy D A _ k d Ek).
      destruct (IH (map_set r0 k d)) as (r & Hr & Hget). exists r. split; [exact Hr|].
      intro n. rewrite Hget, map_get_set. unfold includes. cbn [existsb].
      destruct (text_eqb n k) eqn:E; cbn [orb].
      * apply text_eqb_eq in E. subst n. rewrite Ek.
        now destruct (existsb (text_eqb k) ks).
      * reflexivity.
    + destruct (IH r0) as (r & Hr & Hget). exists r. split; [exact Hr|].
      intro n. rewrite Hget. unfold includes. cbn [existsb].
      destruct (text_eqb n k) eqn:E; cbn [orb]; [|reflexivity].
      apply text_eqb_eq in E. subst n. rewrite Ek.
      now destruct (existsb (text_eqb k) ks).
    + exfalso. exact (Hret k Ek).
Qed.

Lemma resolve_direct_or_key : forall D A f n d,
    resolve f D A n = Resolved d ->
    map_get D n = Some d \/ In n (map fst A).
Proof.
  intros D A [|f] n d H; simpl in H; [discriminate|].
  destruct (map_get A n) as [t|] eqn:Ha.
  - right. eapply map_get_In_keys; eauto.
  - destruct (map_get D n) as [d0|]; [|discriminate].
    destruct (truthy d0); [|discriminate]. inversion H. now left.
Qed.

Lemma setup_result_get : forall D A,
    NoDup (map fst D) ->
    (forall n, resolve (resolve_depth A) D A n <> StackOverflow) ->
    exists result,
      setup_result D A = Normal result /\
      forall n, map_get result n
                = match resolve (resolve_depth A) D A n with
                  | Resolved d => Some d
                  | _ => map_get D n
                  end.
Proof.
  intros D A Hnd Hret. unfold setup_result.
  destruct (@resolve_aliases_get D A Hret (map fst A)
              (fold_left (fun r kv => map_set r (fst kv) (snd kv)) D []))
    as (result & Hr & Hget).
  exists result. split; [exact Hr|]. intro n. rewrite Hget, copy_get by assumption.
  simpl map_get.
  assert (Hsame : match map_get D n with Some v => Some v | None => None end = map_get D n)
    by now destruct (map_get D n).
  rewrite Hsame.
  destruct (includes (map fst A) n) eqn:Hin; [reflexivity|].
  destruct (resolve (resolve_depth A) D A n) as [d| |] eqn:En; try reflexivity.
  destruct (@resolve_direct_or_key D A _ n d En) as [Hd|Hk]; [exact Hd|].
  apply includes_In in Hk. congruence.
Qed.

(** a name without a non-empty entry adds nothing to the item requirements *)
Lemma resolve_items_skip :
  forall (setupReqs : jsmap text) (n : text) before after seen_set out,
    map_get setupReqs n = None \/ map_get setupReqs n = Some [] ->
    resolve_items (before ++ n :: after) setupReqs seen_set out
    = resolve_items (before ++ after) setupReqs seen_set out.
Proof.
  intros setupReqs n. induction before as [|v vs IH]; intros after seen_set out H; simpl.
  - destruct H as [H|H]; rewrite H; reflexivity.
  - destruct (map_get setupReqs v) as [display|]; [|now apply IH].
    destruct (truthy display && negb (includes seen_set display)); now apply IH.
Qed.

Lemma parseSetupRequirements_of_body : forall java body,
    extractMethodBody java (txt "setupRequirements") = Some body ->
    parseSetupRequirements java = setup_result (displayByVar_of body) (alias_of body).
Proof.
  intros java body H. unfold parseSetupRequirements. rewrite H.
  destruct body as [|c body]; reflexivity.
Qed.

(** C6, as the code has it.  For an alias graph without a cycle:
    [resolve] returns the display string of a name that has a non-empty one
    of its own, and otherwise follows the aliases, however many, to the
    first name that has one; a chain that ends without one resolves to
    nothing.  The map handed to the item requirements binds every name to
    the string its chain leads to, and a name whose chain leads nowhere
    adds nothing to the item requirements. *)
Theorem resolve_follows_alias_chain :
  forall java body,
    extractMethodBody java (txt "setupRequirements") = Some body ->
    acyclic (alias_of body) ->
    (forall n d,
        leads_to (displayByVar_of body) (alias_of body) n d ->
        resolve (resolve_depth (alias_of body)) (displayByVar_of body) (alias_of body) n
        = Resolved d) /\
    (forall n,
        dead_end (displayByVar_of body) (alias_of body) n ->
        resolve (resolve_depth (alias_of body)) (displayByVar_of body) (alias_of body) n
        = Unresolved) /\
    exists setupReqs,
      parseSetupRequirements java = Normal setupReqs /\
      (forall n d,
          leads_to (displayByVar_of body) (alias_of body) n d ->
          map_get setupReqs n = Some d) /\
      (forall n before after,
          dead_end (displayByVar_of body) (alias_of body) n ->
          resolveItemRequirements (before ++ n :: after) setupReqs
          = resolveItemRequirements (before ++ after) setupReqs).
Proof.
  intros java body Hbody Hac.
  split; [intros n d H; now apply resolve_leads_to|].
  split; [intros n H; now apply resolve_dead_end|].
  destruct (@setup_result_get (displayByVar_of body) (alias_of body))
    as (result & Hr & Hget).
  { apply NoDup_keys_collect_pairs. }
  { intro n. now apply resolve_acyclic_returns. }
  exists result. split; [now rewrite (parseSetupRequirements_of_body _ Hbody)|]. split.
  - intros n d H. rewrite Hget. now rewrite (resolve_leads_to Hac H).
  - intros n before after H. unfold resolveItemRequirements.
    apply resolve_items_skip. rewrite Hget, (resolve_dead_end Hac H).
    inversion H; subst; assumption.
Qed.

Lemma resolve_follows_alias_chain_witness :
  resolve (resolve_depth (alias_of aliased_requirements_body))
          (displayByVar_of aliased_requirements_body)
          (alias_of aliased_requirements_body) (txt "bucketInBank")
  = Resolved (txt "Bucket") /\
  resolve (resolve_depth (alias_of aliased_requirements_body))
          (displayByVar_of aliased_requirements_body)
          (alias_of aliased_requirements_body) (txt "ghost")
  = Unresolved.
Proof.
  destruct (@resolve_follows_alias_chain aliased_requirements aliased_requirements_body)
    as (Hlead & Hdead & _).
  - vm_compute. reflexivity.
  - apply acyclicb_sound. vm_compute. reflexivity.
  - split.
    + apply Hlead.
      apply leads_alias with (t := txt "bucketHighlighted");
        [left; vm_compute; reflexivity | vm_compute; reflexivity | reflexivity |].
      apply leads_alias with (t := txt "bucket");
        [left; vm_compute; reflexivity | vm_compute; reflexivity | reflexivity |].
      apply leads_direct. split; [vm_compute; reflexivity | reflexivity].
    + apply Hdead.
      apply dead_alias with (t := txt "phantom");
        [left; vm_compute; reflexivity | vm_compute; reflexivity | reflexivity |].
      apply dead_here; left; vm_compute; reflexivity.
Defined.

(** C6, as stated, fails on a name with an empty display string of its
    own: [pot] has one, the alias graph has no cycle, and [resolve] goes on
    to the alias and returns the string of [bucket]. *)
Lemma resolve_passes_empty_display :
  map_get (displayByVar_of empty_display_requirements_body) (txt "pot") = Some [] /\
  acyclicb (alias_of empty_display_requirements_body) = true /\
  resolve (resolve_depth (alias_of empty_display_requirements_body))
          (displayByVar_of empty_display_requirements_body)
          (alias_of empty_display_requirements_body) (txt "pot")
  = Resolved (txt "Bucket").
Proof.
  split; [vm_compute; reflexivity|]. split; vm_compute; reflexivity.
Qed.

(** ** Captured digits and the numbers read from them *)

Lemma assoc_nat_In : forall l i,
    In i (map fst l) -> exists v, assoc_nat i l = Some v /\ In (i, v) l.
Proof.
  induction l as [|[j w] l IH]; intros i H; simpl in *; [contradiction|].
  destruct (Nat.eqb i j) eqn:E.
  - apply Nat.eqb_eq in E. subst. eauto.
  - destruct H as [H|H]; [subst; now rewrite Nat.eqb_refl in E|].
    destruct (IH _ H) as (v & Hv & Hin). eauto.
Qed.

(** a group every match goes through holds a text its body matches *)
Lemma sure_group_capture : forall re input from m pre post i,
    match_of re input from m pre post ->
    In i (sure_groups re) ->
    exists v a, cap m i = Some v /\ In (i, a) (groups re) /\ Lang a v.
Proof.
  intros re input from m pre post i [_ _ _ _ _ Hg Hs] Hi.
  destruct (assoc_nat_In _ _ (Hs _ Hi)) as (v & Hv & Hin).
  destruct (Hg _ _ Hin) as (a & Ha & Hl). exists v, a. auto.
Qed.

Lemma is_digit_code : forall c, is_digit c = true -> 48 <= code c <= 57.
Proof.
  intros c H. unfold is_digit, in_range in H. apply andb_true_iff in H.
  destruct H as [H1 H2]. apply Nat.leb_le in H1. apply Nat.leb_le in H2. lia.
Qed.

Lemma is_digit_not_space : forall c, is_digit c = true -> is_space c = false.
Proof.
  intros c H. apply is_digit_code in H. unfold is_space, in_range.
  destruct (9 <=? code c) eqn:E1; destruct (code c <=? 13) eqn:E2;
    destruct (code c =? 32) eqn:E3; destruct (code c =? 160) eqn:E4;
    try reflexivity;
    try apply Nat.leb_le in E2; try apply Nat.eqb_eq in E3; try apply Nat.eqb_eq in E4;
    lia.
Qed.

Lemma is_digit_not_sign : forall c,
    is_digit c = true -> Ascii.eqb c "-" = false /\ Ascii.eqb c "+" = false.
Proof.
  intros c H. split.
  - destruct (Ascii.eqb c "-") eqn:E; [|reflexivity].
    apply Ascii.eqb_eq in E. subst. discriminate.
  - destruct (Ascii.eqb c "+") eqn:E; [|reflexivity].
    apply Ascii.eqb_eq in E. subst. discriminate.
Qed.

Lemma take_while_all : forall p s, forallb p s = true -> take_while p s = s.
Proof.
  intros p. induction s as [|c s IH]; simpl; intro H; [reflexivity|].
  apply andb_true_iff in H. destruct H as [Hc Hs]. now rewrite Hc, IH.
Qed.

Lemma parseInt_digits : forall ds,
    run1 is_digit ds = true -> parseInt ds = to_number false (digits_value ds).
Proof.
  intros ds H. unfold run1 in H. apply andb_true_iff in H. destruct H as [Hn Hd].
  destruct ds as [|c ds]; [discriminate|].
  pose proof Hd as Hall. simpl in Hd. apply andb_true_iff in Hd. destruct Hd as [Hc Hds].
  unfold parseInt. cbn [drop_while]. rewrite (is_digit_not_space _ Hc).
  destruct (is_digit_not_sign _ Hc) as [Hm Hp]. rewrite Hm, Hp.
  rewrite take_while_all by exact Hall. reflexivity.
Qed.

Lemma digits_value_bounds : forall ds acc,
    forallb is_digit ds = true -> (0 <= acc)%Z ->
    (0 <= fold_left (fun a c => 10 * a + digit_value c) ds acc
     < (acc + 1) * 10 ^ Z.of_nat (length ds))%Z.
Proof.
  induction ds as [|c ds IH]; intros acc H Hacc.
  - simpl. lia.
  - simpl in H. apply andb_true_iff in H. destruct H as [Hc Hds].
    apply is_digit_code in Hc.
    assert (Hd : (0 <= digit_value c <= 9)%Z) by (unfold digit_value; lia).
    cbn [fold_left length].
    specialize (IH (10 * acc + digit_value c)%Z Hds ltac:(lia)).
    rewrite Nat2Z.inj_succ, Z.pow_succ_r by lia.
    assert (Hpow : (0 < 10 ^ Z.of_nat (length ds))%Z) by (apply Z.pow_pos_nonneg; lia).
    nia.
Qed.

Lemma parseInt_reads_digits : forall ds,
    run1 is_digit ds = true -> reads_digits (parseInt ds).
Proof.
  intros ds H. exists ds. split; [exact H|]. split; [reflexivity|].
  rewrite (parseInt_digits _ H). pose proof H as Hr. unfold run1 in Hr.
  apply andb_true_iff in Hr. destruct Hr as [_ Hd].
  pose proof (@digits_value_bounds ds 0%Z Hd ltac:(lia)) as Hb.
  fold (digits_value ds) in Hb. unfold to_number. split.
  - destruct (double_overflow <=? digits_value ds)%Z; simpl; [reflexivity | lia].
  - intro Hlen.
    assert (Hsmall : (10 ^ Z.of_nat (length ds) <= 10 ^ 308)%Z)
      by (apply Z.pow_le_mono_r; lia).
    assert (Hover : (10 ^ 308 < double_overflow)%Z) by (vm_compute; reflexivity).
    destruct (double_overflow <=? digits_value ds)%Z eqn:E; [|reflexivity].
    apply Z.leb_le in E. lia.
Qed.

Lemma groups_stepAssignRegex :
  groups stepAssignRegex = [(1, ident); (2, digits1); (3, digits1); (4, digits1)].
Proof. reflexivity. Qed.

Lemma groups_objectStepRegex :
  groups objectStepRegex = [(1, ident); (2, digits1); (3, digits1); (4, digits1)].
Proof. reflexivity. Qed.



Lemma sure_groups_stepAssignRegex : sure_groups stepAssignRegex = [1; 2; 3; 4].
Proof. reflexivity. Qed.

Lemma sure_groups_objectStepRegex : sure_groups objectStepRegex = [1; 2; 3; 4].
Proof. reflexivity. Qed.





(** ** The lamp-reward extractor *)


Lemma Lang_Lit_inv : forall s w, Lang (Lit s) w -> w = txt s.
Proof. intros s w H. unfold Lit in H. now apply Lang_Lit_chars in H. Qed.

Lemma Lang_ws1_inv : forall w, Lang ws1 w -> run1 is_space w = true.
Proof. intros w H. now apply Lang_Plus_inv. Qed.








(** ** The Batch Orchestrator *)

Lemma extract_returns : forall displayName java,
    parseSetupRequirements java <> RangeError ->
    exists slug data, extract displayName java = Normal (slug, data).
Proof.
  intros displayName java H. unfold extract.
  destruct (parseSetupRequirements java) as [setupReqs|]; [|contradiction].
  eauto.
Qed.

(** When no served text has an alias cycle, the loop runs to its end: it
    attempts every input once, in order, whatever fetch or write fails,
    and writes the record of every input whose fetch and write succeed. *)
Lemma process_isolates_failures : forall w,
    extraction_returns w ->
    forall names round,
      snd (process w round names) = Returned /\
      attempted (fst (process w round names)) = names /\
      written (fst (process w round names)) = successes w round names.
Proof.
  intros w Hret. induction names as [|n names IH]; intro round.
  - simpl. auto.
  - cbn [process successes]. specialize (IH (S round)).
    destruct (process w (S round) names) as [evs st] eqn:Ep. simpl in IH.
    destruct IH as (Hst & Hatt & Hwr).
    destruct (fetch_text w round (questFileUrl n)) as [java|] eqn:Ef.
    + destruct (@extract_returns n java (Hret _ _ _ Ef)) as (slug & data & Ex). rewrite Ex.
      destruct (write_ok w round slug data); simpl; rewrite Hatt, Hwr; auto.
    + simpl. rewrite Hatt, Hwr. auto.
Qed.

(** X1.  The batch under fetch and write failures alone: a list that cannot be
    read ends the run before any input is attempted; otherwise the run
    returns after attempting every approved input once, in the order of
    the list, and the inputs whose fetch and write succeed are written. *)
Theorem main_isolates_fetch_and_write_failures :
  forall w,
    (approved_file w = None ->
     main w = ([ReadFailedLogged], Exited 1) /\ attempted (fst (main w)) = []) /\
    (forall approved,
        approved_file w = Some approved ->
        extraction_returns w ->
        snd (main w) = Returned /\
        attempted (fst (main w)) = approved_names approved /\
        written (fst (main w)) = successes w 0 (approved_names approved)).
Proof.
  intro w. split.
  - intro H. unfold main. rewrite H. simpl. auto.
  - intros approved H Hret. unfold main. rewrite H.
    destruct (approved_names approved) as [|n names] eqn:En.
    + simpl. auto.
    + apply process_isolates_failures. exact Hret.
Qed.

Lemma faulty_world_returns : extraction_returns faulty_world.
Proof.
  intros round url java H. simpl in H.
  destruct round as [|[|round]]; inversion H; subst; vm_compute; discriminate.
Qed.

Lemma main_isolates_fetch_and_write_failures_witness :
  snd (main faulty_world) = Returned /\
  attempted (fst (main faulty_world))
  = [txt "Sheep Shearer"; txt "Dragon Slayer"; txt "Imp Catcher"] /\
  written (fst (main faulty_world)) = [txt "sheepshearer"].
Proof.
  destruct (proj2 (main_isolates_fetch_and_write_failures faulty_world)
              _ eq_refl faulty_world_returns) as (H1 & H2 & H3).
  split; [exact H1|]. split; [exact H2|]. rewrite H3. vm_compute. reflexivity.
Defined.

(** The bounded depth of the model cuts no recursion that would return: a
    call that runs out of the depth granted runs out of every depth. *)
Lemma overflow_calls : forall D A f n,
    resolve (S f) D A n = StackOverflow ->
    exists t, calls D A n t /\ resolve f D A t = StackOverflow.
Proof.
  intros D A f n H. simpl in H.
  destruct (map_get D n) as [d|] eqn:Ed.
  - destruct (truthy d) eqn:Et; [discriminate|].
    destruct (map_get A n) as [t|] eqn:Ea; [|discriminate].
    destruct (truthy t) eqn:Ett; [|discriminate].
    exists t. split; [|exact H]. split; [exact Ea|].
    intro g. simpl. now rewrite Ed, Et, Ea, Ett.
  - destruct (map_get A n) as [t|] eqn:Ea; [|discriminate].
    destruct (truthy t) eqn:Ett; [|discriminate].
    exists t. split; [|exact H]. split; [exact Ea|].
    intro g. simpl. now rewrite Ed, Ea, Ett.
Qed.

Lemma calls_in_resolve : forall D A c v n,
    calls_in D A c v n ->
    forall f, resolve f D A v
              = if f <? c then StackOverflow else resolve (f - c) D A n.
Proof.
  intros D A. induction c as [|c IH]; intros v n H f.
  - simpl in H. subst. now rewrite Nat.sub_0_r.
  - destruct H as (t & [_ Hcall] & Hrest). destruct f as [|f]; [reflexivity|].
    rewrite Hcall, (IH _ _ Hrest). reflexivity.
Qed.

Lemma calls_in_snoc : forall D A c v n t,
    calls_in D A c v n -> calls D A n t -> calls_in D A (S c) v t.
Proof.
  intros D A. induction c as [|c IH]; intros v n t H Hc.
  - simpl in H. subst. exists t. split; [exact Hc | reflexivity].
  - destruct H as (u & Hu & Hrest). exists u. split; [exact Hu|]. eapply IH; eauto.
Qed.

Lemma calls_cycle_never_returns : forall D A c n,
    calls_in D A (S c) n n -> forall f, resolve f D A n = StackOverflow.
Proof.
  intros D A c n H f. induction f as [f IH] using lt_wf_ind.
  rewrite (calls_in_resolve _ _ _ _ _ H).
  destruct (f <? S c) eqn:E; [reflexivity|].
  apply Nat.ltb_ge in E. apply IH. lia.
Qed.

Lemma overflow_never_returns_from : forall D A k passed n,
    NoDup passed -> incl passed (map fst A) ->
    (forall v, In v passed -> exists c, calls_in D A (S c) v n) ->
    length passed + k = length A ->
    resolve (S k) D A n = StackOverflow ->
    forall f, resolve f D A n = StackOverflow.
Proof.
  intros D A. induction k as [|k IH]; intros passed n Hnd Hincl Hreach Hlen H;
    destruct (@overflow_calls D A _ n H) as (t & Hcall & Ht);
    (destruct (In_dec text_eq_dec n passed) as [Hin|Hnin];
     [destruct (Hreach _ Hin) as (c & Hc);
      exact (@calls_cycle_never_returns D A c n Hc) |]).
  - exfalso.
    assert (Hnd' : NoDup (n :: passed)) by now constructor.
    assert (Hincl' : incl (n :: passed) (map fst A)).
    { intros u [<-|Hu]; [|now apply Hincl].
      destruct Hcall as [Ha _]. eapply map_get_In_keys; eauto. }
    pose proof (NoDup_incl_length Hnd' Hincl') as Hle.
    rewrite length_map in Hle. simpl in Hle. lia.
  - assert (Hall : forall f, resolve f D A t = StackOverflow).
    { apply (IH (n :: passed)).
      - now constructor.
      - intros u [<-|Hu]; [|now apply Hincl].
        destruct Hcall as [Ha _]. eapply map_get_In_keys; eauto.
      - intros v [<-|Hv].
        + exists 0. exists t. split; [exact Hcall | reflexivity].
        + destruct (Hreach _ Hv) as (c & Hc). exists (S c).
          eapply calls_in_snoc; eauto.
      - simpl. lia.
      - exact Ht. }
    intros [|f]; [reflexivity|]. destruct Hcall as [_ Hcall]. now rewrite Hcall.
Qed.

Lemma resolve_overflow_never_returns : forall D A n,
    resolve (resolve_depth A) D A n = StackOverflow ->
    forall f, resolve f D A n = StackOverflow.
Proof.
  intros D A n H. apply (@overflow_never_returns_from D A (length A) [] n).
  - constructor.
  - intros u [].
  - intros v [].
  - reflexivity.
  - exact H.
Qed.

(** the quest with the cycle: the maps built from it, and a recursion that
    returns at no depth *)
Lemma cyclic_quest_maps :
  extractMethodBody cyclic_quest (txt "setupRequirements") = Some cyclic_body /\
  displayByVar_of cyclic_body = [] /\
  alias_of cyclic_body = cyclic_alias.
Proof. repeat split; vm_compute; reflexivity. Qed.

Lemma cyclic_resolve_never_returns : forall f,
    resolve f [] cyclic_alias (txt "egg") = StackOverflow /\
    resolve f [] cyclic_alias (txt "eggHighlighted") = StackOverflow.
Proof.
  induction f as [|f [IH1 IH2]]; [split; reflexivity|].
  split.
  - change (resolve (S f) [] cyclic_alias (txt "egg"))
      with (resolve f [] cyclic_alias (txt "eggHighlighted")). exact IH2.
  - change (resolve (S f) [] cyclic_alias (txt "eggHighlighted"))
      with (resolve f [] cyclic_alias (txt "egg")). exact IH1.
Qed.

(** C2 fails on the code.  The first of two approved inputs is served a
    quest whose [setupRequirements] has an alias cycle: [resolve] recurses
    without end, nothing catches the error between the fetch and the write,
    and the run ends there.  The second approved input is never attempted
    and nothing is written, though the approved list was read and no fetch
    and no write failed. *)
Theorem main_aborts_on_alias_cycle :
  approved_names [(txt "Cooks Assistant", true); (txt "Sheep Shearer", true)]
  = [txt "Cooks Assistant"; txt "Sheep Shearer"] /\
  parseSetupRequirements cyclic_quest = RangeError /\
  main cyclic_world
  = ([FetchAttempted (txt "Cooks Assistant") (questFileUrl (txt "Cooks Assistant"))],
     Uncaught) /\
  attempted (fst (main cyclic_world)) = [txt "Cooks Assistant"] /\
  written (fst (main cyclic_world)) = [].
Proof.
  split; [reflexivity|]. split; [vm_compute; reflexivity|].
  split; [vm_compute; reflexivity|]. split; vm_compute; reflexivity.
Qed.

(** ** Item requirements of a record *)

Lemma resolve_items_fold : forall varNames (setupReqs : jsmap text) acc,
    resolve_items varNames setupReqs acc acc
    = fold_left push_unique (displays_of setupReqs varNames) acc.
Proof.
  induction varNames as [|v vs IH]; intros setupReqs acc; [reflexivity|].
  cbn [resolve_items displays_of flat_map]. fold (displays_of setupReqs vs).
  destruct (map_get setupReqs v) as [display|]; [|apply IH].
  destruct (truthy display); [|apply IH].
  cbn [andb app fold_left]. unfold push_unique at 2.
  destruct (includes acc display); cbn [negb]; apply IH.
Qed.

Lemma In_displays_of : forall (setupReqs : jsmap text) varNames d,
    In d (displays_of setupReqs varNames) <->
    exists v, In v varNames /\ map_get setupReqs v = Some d /\ d <> [].
Proof.
  intros setupReqs varNames d. unfold displays_of. rewrite in_flat_map. split.
  - intros (v & Hv & Hin). exists v. split; [exact Hv|].
    destruct (map_get setupReqs v) as [display|]; [|contradiction].
    destruct display as [|c display]; [contradiction|].
    destruct Hin as [<-|[]]. split; [reflexivity | discriminate].
  - intros (v & Hv & Hg & Hd). exists v. split; [exact Hv|]. rewrite Hg.
    destruct d; [contradiction | now left].
Qed.

(** X4.  The item requirements of a record are the display strings that
    the table of [setupRequirements] holds for the names of
    [getItemRequirements], in the order of the names, every string once at
    the place of its first occurrence: no string twice, no empty string,
    and nothing for a name the table does not hold. *)
Theorem resolveItemRequirements_first_seen :
  forall varNames setupReqs,
    resolveItemRequirements varNames setupReqs
    = first_seen (displays_of setupReqs varNames) /\
    NoDup (resolveItemRequirements varNames setupReqs) /\
    (forall d, In d (resolveItemRequirements varNames setupReqs) <->
               exists v, In v varNames /\ map_get setupReqs v = Some d /\ d <> []).
Proof.
  intros varNames setupReqs.
  assert (E : resolveItemRequirements varNames setupReqs
              = first_seen (displays_of setupReqs varNames)).
  { unfold resolveItemRequirements. rewrite resolve_items_fold, fold_push_unique.
    cbn [app]. apply filter_nothing_seen. }
  rewrite E. split; [reflexivity|]. split; [apply first_seen_NoDup|].
  intro d. rewrite first_seen_In. apply In_displays_of.
Qed.

(** ** Bodies that are cut short *)

Lemma scan_braces_zero : forall s i, scan_braces s 0 i = i.
Proof. now destruct s. Qed.

(** The scan either stops after the brace that closes the depth it started
    with, or runs to the end of the text without the depth getting to
    zero. *)
Lemma scan_braces_spec : forall s d i,
    (exists body after,
        s = body ++ "}"%char :: after /\
        count_chr "}" body = count_chr "{" body + d /\
        (forall n, count_chr "}" (firstn n body) <= count_chr "{" (firstn n body) + d) /\
        scan_braces s (S d) i = i + length body + 1) \/
    (scan_braces s (S d) i = i + length s /\
     forall n, count_chr "}" (firstn n s) <= count_chr "{" (firstn n s) + d).
Proof.
  induction s as [|c s IH]; intros d i.
  - right. split; [simpl; lia|]. intro n. rewrite firstn_nil. cbn. lia.
  - cbn [scan_braces].
    assert (Hcons : forall body (d' : nat),
               (forall n, count_chr "}" (firstn n body) + (if Ascii.eqb c "}" then 1 else 0)
                          <= count_chr "{" (firstn n body)
                             + (if Ascii.eqb c "{" then 1 else 0) + d') ->
               forall n, count_chr "}" (firstn n (c :: body))
                         <= count_chr "{" (firstn n (c :: body)) + d').
    { intros body d' H [|n]; [cbn; lia|]. cbn [firstn]. rewrite !count_chr_cons.
      specialize (H n). lia. }
    destruct (Ascii.eqb c "{") eqn:Eo.
    + assert (Ec : Ascii.eqb c "}" = false) by (apply Ascii.eqb_eq in Eo; now subst).
      destruct (IH (S d) (S i)) as [(body & after & -> & Hc & Hp & Hs)|[Hs Hp]].
      * left. exists (c :: body), after. split; [reflexivity|].
        rewrite !count_chr_cons, Eo, Ec. split; [lia|]. split.
        -- apply Hcons. intro n. specialize (Hp n). try rewrite Ec. lia.
        -- rewrite Hs. simpl. lia.
      * right. split; [rewrite Hs; simpl; lia|].
        apply Hcons. intro n. specialize (Hp n). try rewrite Ec. lia.
    + destruct (Ascii.eqb c "}") eqn:Ec.
      * destruct d as [|d].
        -- left. exists [], s. apply Ascii.eqb_eq in Ec. subst c.
           split; [reflexivity|]. split; [reflexivity|]. split.
           ++ intro n. rewrite firstn_nil. cbn. lia.
           ++ rewrite scan_braces_zero. simpl. lia.
        -- destruct (IH d (S i)) as [(body & after & -> & Hc & Hp & Hs)|[Hs Hp]].
           ++ left. exists (c :: body), after. split; [reflexivity|].
              rewrite !count_chr_cons, Eo, Ec. split; [lia|]. split.
              ** apply Hcons. intro n. specialize (Hp n). try rewrite Ec. lia.
              ** rewrite Hs. simpl. lia.
           ++ right. split; [rewrite Hs; simpl; lia|].
              apply Hcons. intro n. specialize (Hp n). try rewrite Ec. lia.
      * destruct (IH d (S i)) as [(body & after & -> & Hc & Hp & Hs)|[Hs Hp]].
        -- left. exists (c :: body), after. split; [reflexivity|].
           rewrite !count_chr_cons, Eo, Ec. split; [lia|]. split.
           ++ apply Hcons. intro n. specialize (Hp n). try rewrite Ec. lia.
           ++ rewrite Hs. simpl. lia.
        -- right. split; [rewrite Hs; simpl; lia|].
           apply Hcons. intro n. specialize (Hp n). try rewrite Ec. lia.
Qed.

Lemma never_closes_early_firstn : forall s k,
    never_closes_early s -> never_closes_early (firstn k s).
Proof. intros s k H n. rewrite firstn_firstn. apply H. Qed.

(** X3.  What the locator returns, for every source: a piece of the source
    no part of which, from its start, has more closing than opening braces.
    Either it is the balanced text up to the brace that closes the
    declaration, or no brace closes the declaration and it is the whole
    text after the opening brace but for its last character. *)
Theorem extractMethodBody_shape :
  forall source methodName body,
    extractMethodBody source methodName = Some body ->
    exists m,
      exec (methodRegex methodName) source = Some m /\
      substring body source /\
      never_closes_early body /\
      ((balanced body /\
        exists after, skipn (m_end m) source = body ++ "}"%char :: after) \/
       (never_closes_early (skipn (m_end m) source) /\
        body = removelast (skipn (m_end m) source))).
Proof.
  intros source methodName body H. unfold extractMethodBody in H.
  destruct (exec (methodRegex methodName) source) as [m|] eqn:E; [|discriminate].
  exists m. split; [reflexivity|].
  destruct (exec_sound _ _ E) as (pre & post & [E1 _ E3 E4 _ _ _]).
  assert (Hstart : m_index m + length (m_text m) = m_end m) by lia.
  assert (Hq : skipn (m_end m) source = post).
  { rewrite E4. rewrite E1 at 1. rewrite app_assoc.
    rewrite <- length_app. apply skipn_length_app. }
  cbv zeta in H. rewrite Hstart, Hq in H. unfold slice in H. rewrite Hq in H.
  rewrite Hq. inversion H as [Hb]. clear H.
  destruct (scan_braces_spec post 0 (m_end m))
    as [(inner & after & -> & Hc & Hp & Hs)|[Hs Hp]]; rewrite Hs.
  - replace (m_end m + length inner + 1 - 1 - m_end m) with (length inner) by lia.
    rewrite firstn_app, firstn_all, Nat.sub_diag. cbn [firstn]. rewrite app_nil_r.
    assert (Hn : never_closes_early inner).
    { intro n. specialize (Hp n). lia. }
    split; [|split; [exact Hn|]].
    + exists (pre ++ m_text m), ("}"%char :: after). rewrite E1 at 1.
      now rewrite <- app_assoc.
    + left. split; [split; [lia | exact Hn]|]. now exists after.
  - replace (m_end m + length post - 1 - m_end m) with (pred (length post)) by lia.
    rewrite <- removelast_firstn_len.
    assert (Hn : never_closes_early post).
    { intro n. specialize (Hp n). lia. }
    split; [|split].
    + exists (pre ++ m_text m), (skipn (pred (length post)) post).
      rewrite removelast_firstn_len, firstn_skipn, <- app_assoc. exact E1.
    + rewrite removelast_firstn_len. now apply never_closes_early_firstn.
    + right. split; [exact Hn | reflexivity].
Qed.

Lemma extractMethodBody_shape_witness :
  exists m,
    exec (methodRegex (txt "setupSteps")) unclosed_source = Some m /\
    substring (java " if (ready) { talk(); ") unclosed_source /\
    never_closes_early (java " if (ready) { talk(); ") /\
    ((balanced (java " if (ready) { talk(); ") /\
      exists after,
        skipn (m_end m) unclosed_source
        = java " if (ready) { talk(); " ++ "}"%char :: after) \/
     (never_closes_early (skipn (m_end m) unclosed_source) /\
      java " if (ready) { talk(); " = removelast (skipn (m_end m) unclosed_source))).
Proof.
  apply (@extractMethodBody_shape unclosed_source (txt "setupSteps")).
  vm_compute. reflexivity.
Defined.

(** ** Points within the map *)

Lemma clamp_nearest : forall hi c,
    (0 <= hi)%Z ->
    math_max (JNum 0) (math_min (JNum hi) c) = nearest_within hi c.
Proof.
  intros hi c H. destruct c as [|[|]|n]; cbn; try reflexivity.
  f_equal. lia.
Qed.

Lemma nearest_within_range : forall hi c,
    (0 <= hi)%Z -> c <> JNaN -> within hi (nearest_within hi c).
Proof.
  intros hi c H Hc. destruct c as [|[|]|n]; cbn; try lia. contradiction.
Qed.

Lemma nearest_within_fixed : forall hi c, within hi c -> nearest_within hi c = c.
Proof.
  intros hi c H. destruct c as [|b|n]; cbn in *; try contradiction. f_equal. lia.
Qed.

Lemma nearest_within_idem : forall hi c,
    (0 <= hi)%Z -> nearest_within hi (nearest_within hi c) = nearest_within hi c.
Proof.
  intros hi c H. destruct c as [|[|]|n]; cbn; try reflexivity; f_equal; lia.
Qed.

Lemma clampWorldPoint_nearest : forall wp,
    clampWorldPoint wp
    = mkWorldPoint (nearest_within 16383 (x wp)) (nearest_within 16383 (y wp))
                   (nearest_within 3 (plane wp)).
Proof. intro wp. unfold clampWorldPoint. now rewrite !clamp_nearest by lia. Qed.

(** X19.  Clamping, on coordinates that are integers, infinities or [NaN]:
    each coordinate is brought to the nearest value of its range (0 to
    16383 for [x] and [y], 0 to 3 for the plane), so a point without [NaN]
    is taken into the bounds of the map, a point within the bounds is left
    as it is, clamping twice is clamping once, and a [NaN] coordinate stays
    [NaN]. *)
Theorem clampWorldPoint_bounds :
  forall wp,
    clampWorldPoint wp
    = mkWorldPoint (nearest_within 16383 (x wp)) (nearest_within 16383 (y wp))
                   (nearest_within 3 (plane wp)) /\
    (no_nan wp -> in_bounds (clampWorldPoint wp)) /\
    (in_bounds wp -> clampWorldPoint wp = wp) /\
    clampWorldPoint (clampWorldPoint wp) = clampWorldPoint wp /\
    (x wp = JNaN -> x (clampWorldPoint wp) = JNaN).
Proof.
  intro wp. pose proof clampWorldPoint_nearest as E.
  split; [apply E|]. split; [|split; [|split]].
  - intros (Hx & Hy & Hp). rewrite E. unfold in_bounds. cbn [x y plane].
    repeat split; apply nearest_within_range; auto; lia.
  - intros (Hx & Hy & Hp). rewrite E.
    rewrite !nearest_within_fixed by assumption. now destruct wp.
  - rewrite !E. cbn [x y plane]. now rewrite !nearest_within_idem by lia.
  - intro Hx. rewrite E. cbn [x]. now rewrite Hx.
Qed.





(** ** Trimmed texts *)

Lemma drop_while_head : forall p s, head_is p (drop_while p s) = false.
Proof.
  intros p. induction s as [|c s IH]; simpl; [reflexivity|].
  destruct (p c) eqn:E; [exact IH | simpl; exact E].
Qed.

Lemma drop_while_fixed : forall p s, head_is p s = false -> drop_while p s = s.
Proof. intros p [|c s] H; simpl in *; [reflexivity | now rewrite H]. Qed.

Lemma take_drop_while : forall p s, s = take_while p s ++ drop_while p s.
Proof.
  intros p. induction s as [|c s IH]; simpl; [reflexivity|].
  destruct (p c); simpl; [now f_equal | reflexivity].
Qed.

Lemma forallb_drop_while : forall p q s,
    forallb q s = true -> forallb q (drop_while p s) = true.
Proof.
  intros p q. induction s as [|c s IH]; simpl; intro H; [reflexivity|].
  apply andb_true_iff in H. destruct H as [Hc Hs].
  destruct (p c); [auto | simpl; now rewrite Hc, Hs].
Qed.

Lemma forallb_rev_text : forall (q : ascii -> bool) s, forallb q (rev s) = forallb q s.
Proof.
  intros q. induction s as [|c s IH]; simpl; [reflexivity|].
  rewrite forallb_app, IH. simpl. rewrite andb_true_r. apply andb_comm.
Qed.

Lemma forallb_trim : forall q s, forallb q s = true -> forallb q (trim s) = true.
Proof.
  intros q s H. unfold trim. rewrite forallb_rev_text. apply forallb_drop_while.
  rewrite forallb_rev_text. now apply forallb_drop_while.
Qed.

Lemma head_is_app : forall p (a b : text), a <> [] -> head_is p (a ++ b) = head_is p a.
Proof. intros p [|c a] b H; [contradiction | reflexivity]. Qed.

Lemma trim_trimmed : forall s, trimmed (trim s).
Proof.
  intro s. unfold trimmed, trim. split.
  - set (u := drop_while is_space s).
    pose proof (drop_while_head is_space s) as Hu. fold u in Hu.
    pose proof (take_drop_while is_space (rev u)) as Hs.
    set (v := drop_while is_space (rev u)) in *.
    destruct (rev v) as [|c t] eqn:Ev; [reflexivity|].
    assert (Eu : u = rev v ++ rev (take_while is_space (rev u))).
    { rewrite <- rev_app_distr, <- Hs. symmetry. apply rev_involutive. }
    rewrite Eu, Ev in Hu. exact Hu.
  - rewrite rev_involutive. apply drop_while_head.
Qed.

Lemma trim_fixed : forall s, trimmed s -> trim s = s.
Proof.
  intros s [H1 H2]. unfold trim.
  rewrite (drop_while_fixed _ _ H1), (drop_while_fixed _ _ H2). apply rev_involutive.
Qed.

Lemma filter_drop_while : forall p s,
    filter (fun c => negb (p c)) (drop_while p s) = filter (fun c => negb (p c)) s.
Proof.
  intros p. induction s as [|c s IH]; simpl; [reflexivity|].
  destruct (p c) eqn:E; simpl; [exact IH | now rewrite E].
Qed.

Lemma filter_rev_text : forall (q : ascii -> bool) s, filter q (rev s) = rev (filter q s).
Proof.
  intros q. induction s as [|c s IH]; simpl; [reflexivity|].
  rewrite filter_app, IH. simpl. destruct (q c); simpl; [reflexivity | apply app_nil_r].
Qed.

Lemma filter_trim : forall s,
    filter (fun c => negb (is_space c)) (trim s) = filter (fun c => negb (is_space c)) s.
Proof.
  intro s. unfold trim.
  rewrite filter_rev_text, filter_drop_while, filter_rev_text, rev_involutive.
  apply filter_drop_while.
Qed.

(** ** Names of the wiki tables *)

Lemma split_chr_head : forall c s,
    exists others, split_chr c s = take_while (not_chr c) s :: others.
Proof.
  intros c. induction s as [|a s IH]; simpl.
  - now exists [].
  - unfold not_chr at 1. destruct (Ascii.eqb a c); simpl.
    + now exists (split_chr c s).
    + destruct IH as (others & ->). now exists others.
Qed.

Lemma take_while_forallb : forall p s, forallb p (take_while p s) = true.
Proof.
  intros p. induction s as [|c s IH]; simpl; [reflexivity|].
  destruct (p c) eqn:E; simpl; [now rewrite E | reflexivity].
Qed.

(** X17.  The name of a table row: the part of the raw name before its
    first [#], without the white space around it.  The name holds no [#],
    neither starts nor ends with white space, and parsing it again leaves
    it as it is. *)
Theorem parseName_normal :
  forall rawName,
    parseName rawName = trim (take_while (not_chr "#") rawName) /\
    forallb (not_chr "#") (parseName rawName) = true /\
    trimmed (parseName rawName) /\
    parseName (parseName rawName) = parseName rawName.
Proof.
  assert (E : forall r, parseName r = trim (take_while (not_chr "#") r)).
  { intro r. unfold parseName. now destruct (split_chr_head "#" r) as (others & ->). }
  intro rawName.
  assert (Hn : forallb (not_chr "#") (parseName rawName) = true).
  { rewrite E. apply forallb_trim, take_while_forallb. }
  split; [apply E|]. split; [exact Hn|]. split.
  - rewrite E. apply trim_trimmed.
  - rewrite (E (parseName rawName)), (take_while_all _ _ Hn).
    apply trim_fixed. rewrite E. apply trim_trimmed.
Qed.

(** ** Patterns of one character *)

Section OneCharacter.
Variable re : regex.
Variable p : text -> ascii -> bool.
Variable capsf : ascii -> list (nat * text).
Hypothesis here_cons : forall sn c t,
    match_here re sn (c :: t)
    = if p sn c then Some (char_match capsf sn c) else None.
Hypothesis here_nil : forall sn, match_here re sn [] = None.

Lemma search_char : forall rs sn,
    search re sn rs = hd_error (char_matches p capsf sn rs).
Proof.
  induction rs as [|c t IH]; intro sn; simpl.
  - now rewrite here_nil.
  - rewrite here_cons. destruct (p sn c); [reflexivity | apply IH].
Qed.

Lemma char_matches_head : forall rs sn m ms,
    char_matches p capsf sn rs = m :: ms ->
    exists u c t,
      rs = u ++ c :: t /\ m = char_match capsf (rev u ++ sn) c /\
      ms = char_matches p capsf (c :: rev u ++ sn) t.
Proof.
  induction rs as [|c t IH]; intros sn m ms H; simpl in H; [discriminate|].
  destruct (p sn c).
  - inversion H; subst. now exists [], c, t.
  - apply IH in H. destruct H as (u & c' & t' & -> & -> & ->).
    exists (c :: u), c', t'. simpl. rewrite <- !app_assoc. simpl. auto.
Qed.

Lemma exec_loop_chars : forall fuel pre rs,
    length rs < fuel ->
    exec_loop fuel re (pre ++ rs) (length pre) = char_matches p capsf (rev pre) rs.
Proof.
  induction fuel as [|fuel IH]; intros pre rs Hf; [lia|].
  cbn [exec_loop]. unfold exec_from.
  assert (Hlt : (length (pre ++ rs) <? length pre) = false).
  { apply Nat.ltb_ge. rewrite length_app. lia. }
  rewrite Hlt, firstn_app, firstn_all, Nat.sub_diag, skipn_length_app. cbn [firstn].
  rewrite app_nil_r, search_char.
  destruct (char_matches p capsf (rev pre) rs) as [|m ms] eqn:E; [reflexivity|].
  cbn [hd_error]. f_equal.
  apply char_matches_head in E. destruct E as (u & c & t & -> & -> & ->).
  replace (pre ++ u ++ c :: t) with ((pre ++ u ++ [c]) ++ t)
    by (rewrite <- !app_assoc; reflexivity).
  replace (m_end (char_match capsf (rev u ++ rev pre) c)) with (length (pre ++ u ++ [c]))
    by (cbn; rewrite !length_app, !length_rev; simpl; lia).
  rewrite IH by (rewrite length_app in Hf; simpl in Hf; lia).
  f_equal. rewrite !rev_app_distr. simpl. now rewrite <- ?app_assoc.
Qed.

Lemma replace_build_skip : forall f pre c t ms,
    (forall m, hd_error ms = Some m -> S (length pre) <= m_index m) ->
    replace_build f (pre ++ c :: t) (length pre) ms
    = c :: replace_build f (pre ++ c :: t) (S (length pre)) ms.
Proof.
  intros f pre c t ms H.
  assert (E1 : skipn (length pre) (pre ++ c :: t) = c :: t) by apply skipn_length_app.
  assert (E2 : skipn (S (length pre)) (pre ++ c :: t) = t).
  { replace (pre ++ c :: t) with ((pre ++ [c]) ++ t) by (now rewrite <- app_assoc).
    replace (S (length pre)) with (length (pre ++ [c]))
      by (rewrite length_app; simpl; lia).
    apply skipn_length_app. }
  destruct ms as [|m ms]; cbn [replace_build].
  - now rewrite E1, E2.
  - specialize (H m eq_refl). unfold slice. rewrite E1, E2.
    replace (m_index m - length pre) with (S (m_index m - S (length pre))) by lia.
    reflexivity.
Qed.

Lemma replace_build_chars : forall f rs pre,
    replace_build f (pre ++ rs) (length pre) (char_matches p capsf (rev pre) rs)
    = rewrite_chars p (fun sn c => f (char_match capsf sn c)) (rev pre) rs.
Proof.
  intros f. induction rs as [|c t IH]; intro pre.
  - cbn. apply skipn_length_app.
  - cbn [char_matches rewrite_chars].
    assert (Hn : rev (pre ++ [c]) = c :: rev pre) by (now rewrite rev_app_distr).
    assert (Hi : pre ++ c :: t = (pre ++ [c]) ++ t) by (now rewrite <- app_assoc).
    assert (Hl : length (pre ++ [c]) = S (length pre))
      by (rewrite length_app; simpl; lia).
    specialize (IH (pre ++ [c])). rewrite Hn, <- Hi, Hl in IH.
    destruct (p (rev pre) c).
    + cbn [replace_build]. unfold slice. cbn [char_match m_index m_end].
      rewrite length_rev, Nat.sub_diag. cbn [firstn app]. now rewrite IH.
    + rewrite replace_build_skip; [cbn [app]; now rewrite IH|].
      intros m Hm.
      destruct (char_matches p capsf (c :: rev pre) t) as [|m0 ms] eqn:E; [discriminate|].
      inversion Hm; subst m0.
      apply char_matches_head in E. destruct E as (u & c' & t' & _ & -> & _).
      cbn [char_match m_index]. rewrite length_app. cbn [length].
      rewrite !length_rev. lia.
Qed.

(** replacing every match of such a pattern rewrites the text character
    by character *)
Lemma replace_all_chars : forall f input,
    replace_all re f input
    = rewrite_chars p (fun sn c => f (char_match capsf sn c)) [] input.
Proof.
  intros f input. unfold replace_all, exec_all.
  pose proof (@exec_loop_chars (S (length input)) [] input ltac:(lia)) as E.
  cbn [app length rev] in E. rewrite E.
  apply (@replace_build_chars f input []).
Qed.

End OneCharacter.

Lemma consumed_one : forall sn c t cp st',
    rest st' = t -> consumed (MState sn (c :: t) cp) st' = [c].
Proof. intros sn c t cp st' H. now apply (@consumed_app sn [c] t cp). Qed.

Lemma rewrite_chars_map :
  forall (p : text -> ascii -> bool) (g : text -> ascii -> text) (h : ascii -> ascii),
    (forall sn c, (if p sn c then g sn c else [c]) = [h c]) ->
    forall rs sn, rewrite_chars p g sn rs = map h rs.
Proof.
  intros p g h H. induction rs as [|c t IH]; intro sn; simpl; [reflexivity|].
  now rewrite H, IH.
Qed.

Lemma toLowerChar_not_upper : forall c, is_upper c = false -> toLowerChar c = c.
Proof. intros c H. unfold toLowerChar. now rewrite H. Qed.

Lemma classNameToFolder_lower : forall nm, classNameToFolder nm = toLowerCase nm.
Proof.
  intro nm. unfold classNameToFolder.
  rewrite (@replace_all_chars (Group 1 (Chr is_upper)) (fun _ c => is_upper c)
             (fun c => [(1, [c])])).
  - apply rewrite_chars_map. intros sn c. cbn.
    destruct (is_upper c) eqn:E; [reflexivity | now rewrite toLowerChar_not_upper].
  - intros sn c t. unfold match_here. cbn [rmatch rest].
    destruct (is_upper c); [|reflexivity].
    now rewrite !(@consumed_one sn c t []) by reflexivity.
  - reflexivity.
Qed.

(** ** Characters *)

Ltac all_characters c :=
  destruct c as [[|] [|] [|] [|] [|] [|] [|] [|]]; vm_compute; reflexivity.

Lemma toLowerChar_toUpperChar : forall c, toLowerChar (toUpperChar c) = toLowerChar c.
Proof. intro c. all_characters c. Qed.

Lemma toLowerChar_idem : forall c, toLowerChar (toLowerChar c) = toLowerChar c.
Proof. intro c. all_characters c. Qed.

Lemma blank_toUpperChar : forall c,
    is_blank_or_apostrophe (toUpperChar c) = is_blank_or_apostrophe c.
Proof. intro c. all_characters c. Qed.

Lemma blank_toLowerChar : forall c,
    is_blank_or_apostrophe (toLowerChar c) = is_blank_or_apostrophe c.
Proof. intro c. all_characters c. Qed.

Lemma underscore_toUpperChar : forall c, not_chr "_" (toUpperChar c) = not_chr "_" c.
Proof. intro c. all_characters c. Qed.

Lemma underscore_to_blank_clean : forall c, not_chr "_" (underscore_to_blank c) = true.
Proof. intro c. all_characters c. Qed.

Lemma toUpperChar_not_lower : forall c, is_lower c = false -> toUpperChar c = c.
Proof. intros c H. unfold toUpperChar. now rewrite H. Qed.

(** ** Display names of quest identifiers *)

Lemma replace_underscores : forall id,
    replace_all (Lit "_") (fun _ => txt " ") id = map underscore_to_blank id.
Proof.
  intro id. change (Lit "_") with (Cat (Chr (chr_eq "_")) Eps).
  rewrite (@replace_all_chars _ (fun _ c => chr_eq "_" c) (fun _ => [])).
  - apply rewrite_chars_map. intros sn c. unfold underscore_to_blank.
    now destruct (chr_eq "_" c).
  - intros sn c t. unfold match_here. cbn [rmatch rest].
    destruct (chr_eq "_" c); [|reflexivity].
    now rewrite !(@consumed_one sn c t []) by reflexivity.
  - reflexivity.
Qed.

Lemma rewrite_title_case : forall rs sn,
    rewrite_chars (fun sn c => negb (head_is is_word sn) && is_word c)
                  (fun _ c => [toUpperChar c]) sn rs
    = title_case (head_is is_word sn) rs.
Proof.
  induction rs as [|c t IH]; intro sn; [reflexivity|].
  cbn [rewrite_chars title_case]. rewrite IH. cbn [head_is].
  now destruct (negb (head_is is_word sn) && is_word c).
Qed.

Lemma replace_word_starts : forall s,
    replace_all (WordB ;; Chr is_word) (fun m => toUpperCase (m_text m)) s
    = title_case false s.
Proof.
  intro s.
  rewrite (@replace_all_chars _ (fun sn c => negb (head_is is_word sn) && is_word c)
             (fun _ => [])).
  - apply (rewrite_title_case s []).
  - intros sn c t. unfold match_here. cbn [rmatch rest].
    unfold at_word_boundary. cbn [seen rest head_is].
    destruct (head_is is_word sn), (is_word c); cbn [xorb negb andb]; try reflexivity.
    now rewrite !(@consumed_one sn c t []) by reflexivity.
  - intro sn. unfold match_here. cbn [rmatch rest].
    now destruct (at_word_boundary (MState sn [] [])).
Qed.

Lemma title_case_length : forall s inside, length (title_case inside s) = length s.
Proof. induction s as [|c s IH]; intro inside; simpl; [reflexivity | now rewrite IH]. Qed.

Lemma title_case_clean : forall s inside,
    forallb (not_chr "_") s = true -> forallb (not_chr "_") (title_case inside s) = true.
Proof.
  induction s as [|c s IH]; intros inside H; [reflexivity|].
  cbn [forallb] in H. apply andb_true_iff in H. destruct H as [Hc Hs].
  cbn [title_case forallb]. rewrite (IH _ Hs), andb_true_r.
  destruct (negb inside && is_word c); [now rewrite underscore_toUpperChar | exact Hc].
Qed.

Lemma title_case_capitals : forall s inside,
    forallb (fun c => negb (is_lower c)) s = true -> title_case inside s = s.
Proof.
  induction s as [|c s IH]; intros inside H; [reflexivity|].
  cbn [forallb] in H. apply andb_true_iff in H. destruct H as [Hc Hs].
  cbn [title_case]. rewrite (IH _ Hs). apply negb_true_iff in Hc.
  rewrite (toUpperChar_not_lower _ Hc). now destruct (negb inside && is_word c).
Qed.

Lemma forallb_map_text : forall (q : ascii -> bool) (h : ascii -> ascii) s,
    forallb q (map h s) = forallb (fun c => q (h c)) s.
Proof. intros q h. induction s as [|c s IH]; simpl; [reflexivity | now rewrite IH]. Qed.

Lemma forallb_same : forall (q r : ascii -> bool) s,
    (forall c, q c = r c) -> forallb q s = forallb r s.
Proof. intros q r s H. induction s as [|c s IH]; simpl; [reflexivity | now rewrite H, IH]. Qed.

Lemma is_lower_underscore_to_blank : forall c,
    is_lower (underscore_to_blank c) = is_lower c.
Proof. intro c. all_characters c. Qed.

(** X10.  The display name of a quest identifier, character by character:
    a blank where the identifier has an underscore, and elsewhere the
    character of the identifier, in upper case when it begins a run of
    letters and digits.  It has the length of the identifier and no
    underscore; no letter is lowered, so an identifier without small
    letters is changed in its underscores only. *)
Theorem questEnumToDisplay_title_case :
  forall id,
    questEnumToDisplay id = title_case false (map underscore_to_blank id) /\
    length (questEnumToDisplay id) = length id /\
    forallb (not_chr "_") (questEnumToDisplay id) = true /\
    (forallb (fun c => negb (is_lower c)) id = true ->
     questEnumToDisplay id = map underscore_to_blank id).
Proof.
  intro id.
  assert (E : questEnumToDisplay id = title_case false (map underscore_to_blank id)).
  { unfold questEnumToDisplay. now rewrite replace_underscores, replace_word_starts. }
  rewrite E. split; [reflexivity|]. split; [|split].
  - now rewrite title_case_length, length_map.
  - apply title_case_clean. rewrite forallb_map_text.
    apply forallb_forall. intros c _. apply underscore_to_blank_clean.
  - intro H. apply title_case_capitals. rewrite forallb_map_text.
    rewrite <- H. apply forallb_same. intro c.
    now rewrite is_lower_underscore_to_blank.
Qed.

(** ** Splitting at white space *)

Lemma slice_skipn : forall (input : text) p q,
    p <= q -> skipn p input = slice input p q ++ skipn q input.
Proof.
  intros input p q H. unfold slice.
  replace q with ((q - p) + p) at 2 by lia.
  rewrite <- skipn_skipn. symmetry. apply firstn_skipn.
Qed.

Lemma slice_length : forall (input : text) p q,
    q <= length input -> length (slice input p q) = q - p.
Proof.
  intros input p q H. unfold slice. rewrite length_firstn, length_skipn. lia.
Qed.

Lemma filter_all : forall (q : ascii -> bool) s, forallb q s = true -> filter q s = s.
Proof.
  intros q. induction s as [|c s IH]; simpl; intro H; [reflexivity|].
  apply andb_true_iff in H. destruct H as [Hc Hs]. now rewrite Hc, IH.
Qed.

Lemma filter_none : forall (q : ascii -> bool) s,
    forallb q s = true -> filter (fun c => negb (q c)) s = [].
Proof.
  intros q. induction s as [|c s IH]; simpl; intro H; [reflexivity|].
  apply andb_true_iff in H. destruct H as [Hc Hs]. now rewrite Hc, IH.
Qed.

(** The pieces between the runs of white space hold no white space, and
    together they are the text without its white space. *)
Lemma split_loop_ws1 : forall input fuel p q,
    p <= q -> q <= length input ->
    2 * (length input - q) + (if p <? q then 1 else 0) < fuel ->
    forallb (fun c => negb (is_space c)) (slice input p q) = true ->
    concat (split_loop fuel ws1 input p q) = unspaced (skipn p input) /\
    Forall (fun w => forallb (fun c => negb (is_space c)) w = true)
           (split_loop fuel ws1 input p q).
Proof.
  intro input. induction fuel as [|fuel IH]; intros p q Hpq Hq Hf Hs; [lia|].
  cbn [split_loop]. destruct (length input <=? q) eqn:Hend.
  - apply Nat.leb_le in Hend.
    assert (E : slice input p q = skipn p input).
    { unfold slice. apply firstn_all2. rewrite length_skipn. lia. }
    rewrite E in Hs. cbn [concat]. rewrite app_nil_r. unfold unspaced.
    rewrite (filter_all _ _ Hs). split; [reflexivity|]. now constructor.
  - apply Nat.leb_gt in Hend.
    assert (Hnext : forall c t, skipn q input = c :: t -> is_space c = false ->
              concat (split_loop fuel ws1 input p (S q)) = unspaced (skipn p input) /\
              Forall (fun w => forallb (fun c => negb (is_space c)) w = true)
                     (split_loop fuel ws1 input p (S q))).
    { intros c t Hsk Hc. apply IH; [lia | lia | |].
      - assert (Hlt : (p <? S q) = true) by (apply Nat.ltb_lt; lia).
        rewrite Hlt. destruct (p <? q); lia.
      - assert (E : slice input p (S q) = slice input p q ++ [c]).
        { unfold slice at 1. rewrite (@slice_skipn input p q Hpq), Hsk.
          rewrite firstn_app, slice_length by lia.
          rewrite firstn_all2 by (rewrite slice_length; lia).
          replace (S q - p - (q - p)) with 1 by lia. reflexivity. }
        rewrite E, forallb_app, Hs. cbn. now rewrite Hc. }
    destruct (skipn q input) as [|c t] eqn:Hsk.
    { apply (f_equal (@length _)) in Hsk. rewrite length_skipn in Hsk. simpl in Hsk. lia. }
    destruct (match_here ws1 (rev (firstn q input)) (c :: t)) as [m|] eqn:E.
    + apply match_here_sound in E.
      destruct E as (st' & new & _ & [A1 _ _ A4 _ _] & _ & He & _).
      cbn [rest] in A1. rewrite length_rev, length_firstn in He.
      apply Lang_ws1_inv in A4. unfold run1 in A4. apply andb_true_iff in A4.
      destruct A4 as [Hne Hsp].
      assert (Hlen : length (m_text m) + length (rest st') = length input - q).
      { rewrite <- length_app, <- A1, <- Hsk. apply length_skipn. }
      assert (Hpos : 0 < length (m_text m)) by (destruct (m_text m); [discriminate | simpl; lia]).
      assert (Hmin : Nat.min (m_end m) (length input) = q + length (m_text m)) by lia.
      rewrite Hmin.
      assert (Hne' : (q + length (m_text m) =? p) = false) by (apply Nat.eqb_neq; lia).
      rewrite Hne'.
      assert (Hpost : skipn (q + length (m_text m)) input = rest st').
      { rewrite Nat.add_comm, <- skipn_skipn, Hsk, A1. apply skipn_length_app. }
      destruct (IH (q + length (m_text m)) (q + length (m_text m))) as [I1 I2];
        [lia | lia | | |].
      * rewrite Nat.ltb_irrefl. destruct (p <? q); lia.
      * unfold slice. now rewrite Nat.sub_diag.
      * split; [|constructor; assumption].
        cbn [concat]. rewrite I1, Hpost, (@slice_skipn input p q Hpq), Hsk, A1.
        unfold unspaced. rewrite !filter_app, (filter_all _ _ Hs), (filter_none _ _ Hsp).
        reflexivity.
    + destruct (is_space c) eqn:Hc; [|now apply (Hnext c t)].
      exfalso. eapply match_here_complete; [|exact E].
      apply (@Lang_Sem ws1 [c] eq_refl).
      apply Lang_Plus. unfold run1. cbn. now rewrite Hc.
Qed.

Lemma split_ws1 : forall input,
    concat (split_re ws1 input) = unspaced input /\
    Forall (fun w => forallb (fun c => negb (is_space c)) w = true) (split_re ws1 input).
Proof.
  intros [|c input].
  - cbn. split; [reflexivity|]. now constructor.
  - unfold split_re. apply (@split_loop_ws1 (c :: input)); [lia | lia | | reflexivity].
    cbn. lia.
Qed.

(** ** Class names and locations *)

Lemma rewrite_chars_filter :
  forall (p : text -> ascii -> bool) (q : ascii -> bool),
    (forall sn c, p sn c = negb (q c)) ->
    forall rs sn, rewrite_chars p (fun _ _ => []) sn rs = filter q rs.
Proof.
  intros p q H. induction rs as [|c t IH]; intro sn; simpl; [reflexivity|].
  rewrite H, IH. now destruct (q c).
Qed.

Lemma replace_apostrophes : forall nm,
    replace_all (Lit "'") (fun _ => []) nm = filter (not_chr "'") nm.
Proof.
  intro nm. change (Lit "'") with (Cat (Chr (chr_eq "'")) Eps).
  rewrite (@replace_all_chars _ (fun _ c => chr_eq "'" c) (fun _ => [])).
  - apply rewrite_chars_filter. intros _ c. unfold not_chr, chr_eq.
    now rewrite negb_involutive.
  - intros sn c t. unfold match_here. cbn [rmatch rest].
    destruct (chr_eq "'" c); [|reflexivity].
    now rewrite !(@consumed_one sn c t []) by reflexivity.
  - reflexivity.
Qed.

Lemma name_letters_unspaced : forall nm,
    unspaced (filter (not_chr "'") nm) = name_letters nm.
Proof.
  intro nm. unfold unspaced, name_letters. rewrite filter_filter.
  apply filter_ext. intro c. unfold is_blank_or_apostrophe, not_chr, chr_eq.
  now rewrite negb_orb.
Qed.

Lemma toLowerCase_capitalize : forall w, toLowerCase (capitalize w) = toLowerCase w.
Proof.
  intro w. unfold capitalize, toLowerCase, toUpperCase.
  rewrite map_app, !map_map. rewrite <- (firstn_skipn 1 w) at 3. rewrite map_app.
  f_equal; apply map_ext; intro c;
    [apply toLowerChar_toUpperChar | apply toLowerChar_idem].
Qed.

Lemma toLowerCase_concat_capitalize : forall ps,
    toLowerCase (concat (map capitalize ps)) = toLowerCase (concat ps).
Proof.
  induction ps as [|w ps IH]; [reflexivity|].
  cbn [map concat]. unfold toLowerCase in *. rewrite !map_app, IH. f_equal.
  apply toLowerCase_capitalize.
Qed.

Lemma unblank_capitalize : forall w,
    forallb (fun c => negb (is_blank_or_apostrophe c)) (capitalize w)
    = forallb (fun c => negb (is_blank_or_apostrophe c)) w.
Proof.
  intro w. unfold capitalize, toLowerCase, toUpperCase.
  rewrite forallb_app, !forallb_map_text. rewrite <- (firstn_skipn 1 w) at 3.
  rewrite forallb_app. f_equal; apply forallb_same; intro c;
    [now rewrite blank_toUpperChar | now rewrite blank_toLowerChar].
Qed.

Lemma unblank_concat_capitalize : forall ps,
    forallb (fun c => negb (is_blank_or_apostrophe c)) (concat (map capitalize ps))
    = forallb (fun c => negb (is_blank_or_apostrophe c)) (concat ps).
Proof.
  induction ps as [|w ps IH]; [reflexivity|].
  cbn [map concat]. now rewrite !forallb_app, IH, unblank_capitalize.
Qed.

Lemma forallb_filter_same : forall (q : ascii -> bool) s, forallb q (filter q s) = true.
Proof.
  intros q. induction s as [|c s IH]; simpl; [reflexivity|].
  destruct (q c) eqn:E; simpl; [now rewrite E | exact IH].
Qed.

Lemma displayNameToClassName_lower : forall nm,
    toLowerCase (displayNameToClassName nm) = toLowerCase (name_letters nm).
Proof.
  intro nm. unfold displayNameToClassName.
  rewrite toLowerCase_concat_capitalize, replace_apostrophes.
  destruct (split_ws1 (filter (not_chr "'") nm)) as [E _].
  now rewrite E, name_letters_unspaced.
Qed.

Lemma displayNameToClassName_unblank : forall nm,
    forallb (fun c => negb (is_blank_or_apostrophe c)) (displayNameToClassName nm) = true.
Proof.
  intro nm. unfold displayNameToClassName.
  rewrite unblank_concat_capitalize, replace_apostrophes.
  destruct (split_ws1 (filter (not_chr "'") nm)) as [E _].
  rewrite E, name_letters_unspaced. apply forallb_filter_same.
Qed.

(** X12.  The class name made of a display name in ASCII spells the name
    without its white space and apostrophes, up to the case of the
    letters.  The folder of the address is that text in small letters and
    the file is named after the class name: neither holds white space or
    an apostrophe. *)
Theorem questFileUrl_letters :
  forall displayName,
    forallb is_ascii displayName = true ->
    toLowerCase (displayNameToClassName displayName)
    = toLowerCase (name_letters displayName) /\
    forallb (fun c => negb (is_blank_or_apostrophe c))
            (displayNameToClassName displayName) = true /\
    questFileUrl displayName
    = QUEST_HELPER_RAW_BASE ++ txt "/" ++ toLowerCase (name_letters displayName)
      ++ txt "/" ++ displayNameToClassName displayName ++ txt ".java".
Proof.
  intros displayName _. split; [apply displayNameToClassName_lower|].
  split; [apply displayNameToClassName_unblank|].
  unfold questFileUrl. cbv zeta.
  now rewrite classNameToFolder_lower, displayNameToClassName_lower.
Qed.

Lemma questFileUrl_letters_witness :
  toLowerCase (displayNameToClassName sample_display_name)
  = toLowerCase (name_letters sample_display_name) /\
  forallb (fun c => negb (is_blank_or_apostrophe c))
          (displayNameToClassName sample_display_name) = true /\
  questFileUrl sample_display_name
  = QUEST_HELPER_RAW_BASE ++ txt "/" ++ toLowerCase (name_letters sample_display_name)
    ++ txt "/" ++ displayNameToClassName sample_display_name ++ txt ".java".
Proof.
  apply (@questFileUrl_letters sample_display_name). vm_compute. reflexivity.
Defined.

(** X13.  The folder of a class name is the class name with the capitals A
    to Z in small letters and every other character as it is: the text has
    the same length, and no capital is left. *)
Theorem classNameToFolder_small_letters :
  forall nm,
    classNameToFolder nm = map toLowerChar nm /\
    length (classNameToFolder nm) = length nm /\
    forallb (fun c => negb (is_upper c)) (classNameToFolder nm) = true /\
    classNameToFolder (classNameToFolder nm) = classNameToFolder nm.
Proof.
  intro nm. rewrite !classNameToFolder_lower. unfold toLowerCase.
  split; [reflexivity|]. split; [apply length_map|]. split.
  - rewrite forallb_map_text. apply forallb_forall. intros c _. all_characters c.
  - rewrite map_map. apply map_ext. apply toLowerChar_idem.
Qed.

(** ** Display names of class names *)

Lemma exec_from_here : forall re input from m,
    exec_from re input from = Some m ->
    exists sn rs, match_here re sn rs = Some m.
Proof.
  intros re input from m H. unfold exec_from in H.
  destruct (length input <? from); [discriminate|].
  apply search_sound in H. destruct H as (pre & rs' & _ & H). eauto.
Qed.

Lemma consumed_outcome : forall st st' w, rest st = w ++ rest st' -> consumed st st' = w.
Proof.
  intros [sn rs cp] st' w H. simpl in H. subst rs. now apply consumed_app.
Qed.

Lemma no_groups_no_captures : forall r st st',
    groups r = [] -> Sem r st st' ->
    exists w, rest st = w ++ rest st' /\ caps st' = caps st /\ Lang r w.
Proof.
  intros r st st' Hg H. destruct (Sem_outcome H) as (w & new & [A1 _ A3 A4 A5 _]).
  exists w. split; [exact A1|]. split; [|exact A4].
  destruct new as [|[i v] new]; [exact A3|].
  destruct (A5 i v (or_introl eq_refl)) as (a & Ha & _). rewrite Hg in Ha. contradiction.
Qed.

(** a match of two groups in a row is the text of the first followed by
    the text of the second *)
Lemma two_groups_text : forall a b sn rs m,
    groups a = [] -> groups b = [] ->
    match_here (Group 1 a ;; Group 2 b) sn rs = Some m ->
    cap_str m 1 ++ cap_str m 2 = m_text m.
Proof.
  intros a b sn rs m Ha Hb H. apply match_here_sound in H.
  destruct H as (st' & new & Hs & [A1 _ A3 _ _ _] & _ & _ & Hc).
  unfold cap_str, cap. rewrite Hc. clear Hc.
  inversion Hs as [| | | |a0 b0 s0 st1 s2 H1 H2| | | | | |]; subst.
  inversion H1 as [| | | | | | |i0 a0 s0 st1' G1| | |]; subst.
  inversion H2 as [| | | | | | |i0 a0 s0 st2' G2| | |]; subst.
  destruct (no_groups_no_captures Ha G1) as (wa & Ra & Ca & _).
  destruct (no_groups_no_captures Hb G2) as (wb & Rb & Cb & _).
  rewrite (@consumed_outcome _ _ _ Ra) in *.
  rewrite (@consumed_outcome _ _ _ Rb) in *.
  cbn [rest caps set_cap seen] in *.
  rewrite Cb, Ca in A3. rewrite app_nil_r in A3. subst new. cbn.
  rewrite Ra, Rb in A1. rewrite app_assoc in A1. now apply app_inv_tail in A1.
Qed.

Lemma unspaced_app : forall a b, unspaced (a ++ b) = unspaced a ++ unspaced b.
Proof. intros a b. apply filter_app. Qed.

(** replacing matches by texts that differ from them in white space only
    changes white space only *)
Lemma replace_all_unspaced : forall re f input,
    (forall from m, exec_from re input from = Some m ->
                    unspaced (f m) = unspaced (m_text m)) ->
    unspaced (replace_all re f input) = unspaced input.
Proof.
  intros re f input Hf. unfold replace_all, exec_all.
  generalize (S (length input)) as fuel.
  assert (G : forall fuel from,
             unspaced (replace_build f input from (exec_loop fuel re input from))
             = unspaced (skipn from input)); [|intro fuel; apply (G fuel 0)].
  induction fuel as [|fuel IH]; intro from; [reflexivity|].
  cbn [exec_loop]. destruct (exec_from re input from) as [m|] eqn:E; [|reflexivity].
  cbn [replace_build]. rewrite !unspaced_app, IH, (Hf _ _ E).
  apply exec_from_sound in E. destruct E as (pre & post & [E1 E2 E3 E4 _ _ _]).
  rewrite (@slice_skipn input from (m_index m)) by lia.
  rewrite unspaced_app. f_equal.
  assert (Hi : skipn (m_index m) input = m_text m ++ post).
  { rewrite E3. rewrite E1 at 1. apply skipn_length_app. }
  assert (He : skipn (m_end m) input = post).
  { rewrite E4, <- length_app. rewrite E1 at 1. rewrite app_assoc.
    apply skipn_length_app. }
  now rewrite Hi, He, unspaced_app.
Qed.

Lemma unspaced_dollar1_space_dollar2 : forall a b input from m,
    groups a = [] -> groups b = [] ->
    exec_from (Group 1 a ;; Group 2 b) input from = Some m ->
    unspaced (dollar1_space_dollar2 m) = unspaced (m_text m).
Proof.
  intros a b input from m Ha Hb H. apply exec_from_here in H.
  destruct H as (sn & rs & H). rewrite <- (@two_groups_text a b sn rs m Ha Hb H).
  unfold dollar1_space_dollar2. now rewrite !unspaced_app.
Qed.

Lemma classNameToDisplayName_unspaced : forall className,
    unspaced (classNameToDisplayName className) = unspaced className.
Proof.
  intro className. unfold classNameToDisplayName.
  unfold unspaced at 1. rewrite filter_trim. fold (unspaced).
  rewrite replace_all_unspaced.
  - apply replace_all_unspaced. intros from m H.
    eapply unspaced_dollar1_space_dollar2; [| |exact H]; reflexivity.
  - intros from m H.
    eapply unspaced_dollar1_space_dollar2; [| |exact H]; reflexivity.
Qed.

(** X14.  The display name made of a class name differs from the class
    name in white space only, and neither starts nor ends with white
    space. *)
Theorem classNameToDisplayName_only_blanks :
  forall className,
    unspaced (classNameToDisplayName className) = unspaced className /\
    trimmed (classNameToDisplayName className).
Proof.
  intro className. split; [apply classNameToDisplayName_unspaced|].
  unfold classNameToDisplayName. apply trim_trimmed.
Qed.

(** ** Names and slugs of the records *)

Lemma forallb_implies : forall (q r : ascii -> bool) s,
    (forall c, q c = true -> r c = true) -> forallb q s = true -> forallb r s = true.
Proof.
  intros q r s H. induction s as [|c s IH]; simpl; [reflexivity|]. intro Hs.
  apply andb_true_iff in Hs. destruct Hs as [Hc Hs]. now rewrite (H _ Hc), IH.
Qed.

Lemma word_to_slug_char : forall c,
    implb (is_word c) (is_slug_char (toLowerChar c) && negb (is_space c)) = true.
Proof. intro c. all_characters c. Qed.

Lemma extractClassName_word : forall java,
    extractClassName java <> [] -> forallb is_word (extractClassName java) = true.
Proof.
  intros java H. unfold extractClassName in *.
  destruct (exec classRegex java) as [m|] eqn:E; [|contradiction].
  apply exec_sound in E. destruct E as (pre & post & Hm).
  destruct (@sure_group_capture _ _ _ _ _ _ 1 Hm) as (v & a & Hc & Ha & Hl).
  { vm_compute. auto. }
  unfold cap_str. rewrite Hc.
  assert (Hg : groups classRegex = [(1, word1)]) by reflexivity.
  rewrite Hg in Ha. destruct Ha as [Ha|[]]. inversion Ha; subst a.
  apply Lang_Plus_inv in Hl. unfold run1 in Hl. now apply andb_true_iff in Hl.
Qed.

(** X15.  The slug of a record whose source declares a class: it is the
    class name in small letters, made of small letters, digits and
    underscores only, and not empty; the name of the record differs from
    the class name in white space only, so the slug is the name without
    its white space, in small letters. *)
Theorem extract_slug_of_class :
  forall displayName java slug data,
    extract displayName java = Normal (slug, data) ->
    extractClassName java <> [] ->
    slug = toLowerCase (extractClassName java) /\
    slug <> [] /\
    forallb is_slug_char slug = true /\
    unspaced (name data) = extractClassName java /\
    slug = toLowerCase (unspaced (name data)).
Proof.
  intros displayName java slug data H Hcn. unfold extract in H.
  pose proof (@extractClassName_word java Hcn) as Hw.
  destruct (extractClassName java) as [|c cn] eqn:Ecn; [contradiction|].
  cbn [truthy] in H.
  destruct (parseSetupRequirements java) as [setupReqs|]; [|discriminate].
  inversion H; subst slug data; clear H. cbn [name].
  rewrite classNameToFolder_lower, classNameToDisplayName_unspaced.
  assert (Hchar : forall a, is_word a = true ->
                       is_slug_char (toLowerChar a) = true /\ negb (is_space a) = true).
  { intros a Ha. pose proof (word_to_slug_char a) as Hc. rewrite Ha in Hc.
    now apply andb_true_iff in Hc. }
  assert (Hu : unspaced (c :: cn) = c :: cn).
  { apply filter_all. revert Hw. apply forallb_implies. intros a Ha.
    now apply Hchar. }
  rewrite Hu. split; [reflexivity|]. split; [discriminate|]. split; [|auto].
  unfold toLowerCase. rewrite forallb_map_text. revert Hw. apply forallb_implies.
  intros a Ha. now apply Hchar.
Qed.

Lemma extract_slug_of_class_witness :
  txt "sheepshearer" = toLowerCase (extractClassName plain_quest) /\
  txt "sheepshearer" <> [] /\
  forallb is_slug_char (txt "sheepshearer") = true /\
  unspaced (name plain_quest_record) = extractClassName plain_quest /\
  txt "sheepshearer" = toLowerCase (unspaced (name plain_quest_record)).
Proof.
  apply (@extract_slug_of_class sample_name plain_quest (txt "sheepshearer")
           plain_quest_record).
  - vm_compute. reflexivity.
  - vm_compute. discriminate.
Defined.

(** ** Numbers of the records *)











(** ** Identifiers *)

Lemma Lang_ident : forall w, Lang ident w <-> is_identifier w = true.
Proof.
  intro w. unfold ident. cbn [Lang]. split.
  - intros (u & v & -> & (c & -> & Hc) & Hv). cbn. now rewrite Hc, Hv.
  - intro H. destruct w as [|c t]; [discriminate|]. cbn in H.
    apply andb_true_iff in H. destruct H as [Hc Ht].
    exists [c], t. split; [reflexivity|]. split; [now exists c | exact Ht].
Qed.

(** the test [/^[a-zA-Z_][a-zA-Z0-9_]*$/] accepts the identifiers and
    nothing else *)
Lemma test_identOnly : forall s, test identOnlyRegex s = is_identifier s.
Proof.
  intro s. unfold test, exec, exec_from. cbn [length Nat.ltb Nat.leb firstn skipn rev].
  destruct (search identOnlyRegex [] s) as [m|] eqn:E.
  - symmetry. apply search_sound in E. destruct E as (pre & rs' & -> & E).
    apply match_here_sound in E. destruct E as (st' & new & Hs & _).
    unfold identOnlyRegex in Hs.
    inversion Hs as [| | | |a0 b0 s0 st1 s2 H1 H2| | | | | |]; subst.
    inversion H1 as [| | | | | | | | |s0 Hseen|]; subst.
    inversion H2 as [| | | |a0 b0 s0 st2 s2 H3 H4| | | | | |]; subst.
    inversion H4 as [| | | | | | | | | |s0 Hrest]; subst.
    cbn [seen] in Hseen. rewrite app_nil_r in Hseen.
    assert (Hpre : pre = []).
    { destruct pre as [|c pre]; [reflexivity|]. simpl in Hseen.
      now apply app_eq_nil in Hseen. }
    subst pre. destruct (Sem_outcome H3) as (w & new' & [A1 _ _ A4 _ _]).
    cbn [rest app] in A1. rewrite Hrest, app_nil_r in A1. subst rs'.
    now apply Lang_ident.
  - destruct (is_identifier s) eqn:Hi; [|reflexivity]. exfalso.
    apply (@search_complete identOnlyRegex [] s []); [|exact E].
    cbn [rev app]. apply Lang_ident in Hi.
    eapply match_here_complete. unfold identOnlyRegex.
    apply SemCat with (st1 := MState [] s []); [now apply SemBol|].
    apply SemCat with (st1 := MState (rev s ++ []) [] []); [|now apply SemEol].
    rewrite <- (app_nil_r s) at 1. now apply Lang_Sem.
Qed.

Lemma filter_identifiers : forall (q : text -> bool) l,
    (forall v, q v = true -> is_identifier v = true) ->
    Forall (fun v => is_identifier v = true) (filter q l).
Proof.
  intros q l H. apply Forall_forall. intros v Hv. apply filter_In in Hv.
  apply H. tauto.
Qed.

Lemma parseItemRequirementVarNames_identifiers : forall java,
    Forall (fun v => is_identifier v = true) (parseItemRequirementVarNames java).
Proof.
  intro java. unfold parseItemRequirementVarNames.
  destruct (extractMethodBody java (txt "getItemRequirements")) as [body|]; [|constructor].
  destruct (negb (truthy body)); [constructor|].
  destruct (or_else (exec listOfRegex body) (exec asListRegex body)) as [listMatch|].
  - apply filter_identifiers. intros v Hv. apply andb_true_iff in Hv.
    destruct Hv as [_ Hv]. now rewrite test_identOnly in Hv.
  - apply Forall_forall. intros v Hv. apply in_map_iff in Hv.
    destruct Hv as (m & <- & Hm). apply exec_all_In in Hm.
    destruct Hm as (from & pre & post & Hm).
    destruct (@sure_group_capture _ _ _ _ _ _ 1 Hm) as (v & a & Hc & Ha & Hl).
    { vm_compute. tauto. }
    unfold cap_str. rewrite Hc.
    change (groups addRegex) with [(1, ident)] in Ha.
    destruct Ha as [Ha|[]]. inversion Ha; subst a. now apply Lang_ident.
Qed.

Lemma parsePanels_identifiers : forall java,
    Forall (fun g => run1 not_quote (g_panelName g) = true /\
                     Forall (fun v => is_identifier v = true) (stepVarNames g))
           (parsePanels java).
Proof.
  intro java. unfold parsePanels.
  destruct (extractMethodBody java (txt "getPanels")) as [body|]; [|constructor].
  destruct (negb (truthy body)); [constructor|].
  apply Forall_forall. intros g Hg. apply in_map_iff in Hg.
  destruct Hg as (m & <- & Hm). cbv zeta. cbn [g_panelName stepVarNames]. split.
  - apply exec_all_In in Hm. destruct Hm as (from & pre & post & Hm).
    destruct (@sure_group_capture _ _ _ _ _ _ 1 Hm) as (v & a & Hc & Ha & Hl).
    { vm_compute. tauto. }
    unfold cap_str. rewrite Hc.
    change (groups panelRegex)
      with [(1, Plus not_quote); (2, Plus (not_chr ")")); (3, Plus (not_chr ")"));
            (4, Plus (not_chr ")"))] in Ha.
    cbn [In] in Ha.
    destruct Ha as [Ha|[Ha|[Ha|[Ha|[]]]]]; inversion Ha; subst a.
    now apply Lang_Plus_inv.
  - apply filter_identifiers. intros v Hv. now rewrite test_identOnly in Hv.
Qed.

Lemma map_get_key : forall (V : Type) (m : jsmap V) k,
    In k (map fst m) -> exists v, map_get m k = Some v.
Proof.
  intros V. induction m as [|[k' v'] m IH]; intros k H; simpl in *; [contradiction|].
  destruct (text_eqb k k') eqn:E; [eauto|].
  destruct H as [H|H]; [subst; now rewrite text_eqb_refl in E | now apply IH].
Qed.

Lemma step_match_identifier : forall re body m v,
    In m (exec_all re body) ->
    groups re = [(1, ident); (2, digits1); (3, digits1); (4, digits1)] ->
    sure_groups re = [1; 2; 3; 4] ->
    assigns v m = true ->
    is_identifier v = true.
Proof.
  intros re body m v Hin Hg Hs Hv. unfold assigns in Hv. apply text_eqb_eq in Hv.
  subst v. apply exec_all_In in Hin. destruct Hin as (from & pre & post & Hm).
  destruct (@sure_group_capture _ _ _ _ _ _ 1 Hm) as (w & a & Hc & Ha & Hl).
  { rewrite Hs. simpl. tauto. }
  unfold cap_str. rewrite Hc. rewrite Hg in Ha. cbn [In] in Ha.
  destruct Ha as [Ha|[Ha|[Ha|[Ha|[]]]]]; inversion Ha; subst a.
  now apply Lang_ident.
Qed.

Lemma parseSetupSteps_identifiers : forall java v s,
    map_get (parseSetupSteps java) v = Some s -> is_identifier v = true.
Proof.
  intros java v s H. unfold parseSetupSteps in H.
  destruct (extractMethodBody java (txt "setupSteps")) as [body|]; [|discriminate].
  destruct (negb (truthy body)); [discriminate|]. unfold steps_of_body in H.
  rewrite fold_set_step_if_absent, fold_set_step in H. simpl map_get in H.
  destruct (last_match v (exec_all stepAssignRegex body)) as [m|] eqn:El.
  - unfold last_match in El. apply find_some in El. destruct El as [Hin Hv].
    apply in_rev in Hin.
    eapply step_match_identifier;
      [exact Hin | apply groups_stepAssignRegex | apply sure_groups_stepAssignRegex
       | exact Hv].
  - destruct (first_match v (exec_all objectStepRegex body)) as [m|] eqn:Ef;
      [|discriminate].
    unfold first_match in Ef. apply find_some in Ef. destruct Ef as [Hin Hv].
    eapply step_match_identifier;
      [exact Hin | apply groups_objectStepRegex | apply sure_groups_objectStepRegex
       | exact Hv].
Qed.

(** X8.  The names taken from [getItemRequirements], the step names of
    every panel and the names the step table binds are identifiers: a
    letter or an underscore followed by letters, digits and underscores,
    so none is empty and none holds white space or punctuation.  The
    title of a panel is not empty and holds no double quote. *)
Theorem extracted_names_are_identifiers :
  forall java,
    Forall (fun v => is_identifier v = true) (parseItemRequirementVarNames java) /\
    Forall (fun g => run1 not_quote (g_panelName g) = true /\
                     Forall (fun v => is_identifier v = true) (stepVarNames g))
           (parsePanels java) /\
    Forall (fun v => is_identifier v = true) (map fst (parseSetupSteps java)).
Proof.
  intro java. split; [|split].
  - apply parseItemRequirementVarNames_identifiers.
  - apply parsePanels_identifiers.
  - apply Forall_forall. intros v Hv. apply in_map_iff in Hv.
    destruct Hv as ([k s] & <- & Hin). cbn [fst].
    apply (in_map fst) in Hin. cbn [fst] in Hin.
    destruct (map_get_key _ _ Hin) as (s' & Eg).
    eapply parseSetupSteps_identifiers; eauto.
Qed.

(** ** Experience rewards as written *)

Section Evaluation.
Variable A : Type.

Lemma rmatch_Lit_chars : forall s sn t cp (k : mstate -> option A),
    rmatch (Lit_chars s) (MState sn (s ++ t) cp) k = k (MState (rev s ++ sn) t cp).
Proof.
  induction s as [|c s IH]; intros sn t cp k; [reflexivity|].
  cbn [Lit_chars rmatch rest app]. unfold chr_eq. rewrite Ascii.eqb_refl.
  unfold advance. cbn [seen caps]. rewrite IH. cbn [rev]. now rewrite <- app_assoc.
Qed.

Lemma star_match_greedy : forall p w sn t cp (k : mstate -> option A) x,
    forallb p w = true -> head_is p t = false ->
    k (MState (rev w ++ sn) t cp) = Some x ->
    star_match p sn (w ++ t) cp k = Some x.
Proof.
  intros p. induction w as [|c w IH]; intros sn t cp k x Hw Ht Hk.
  - cbn [app rev] in *. destruct t as [|c t]; [exact Hk|].
    cbn [head_is] in Ht. cbn [star_match]. now rewrite Ht.
  - cbn [forallb] in Hw. apply andb_true_iff in Hw. destruct Hw as [Hc Hw].
    cbn [app star_match]. rewrite Hc.
    rewrite (IH (c :: sn) t cp k x Hw Ht); [reflexivity|].
    cbn [rev] in Hk. now rewrite <- app_assoc in Hk.
Qed.

Lemma rmatch_Star_greedy : forall p w sn t cp (k : mstate -> option A) x,
    forallb p w = true -> head_is p t = false ->
    k (MState (rev w ++ sn) t cp) = Some x ->
    rmatch (Star p) (MState sn (w ++ t) cp) k = Some x.
Proof. intros. cbn [rmatch seen rest caps]. now apply star_match_greedy. Qed.

Lemma rmatch_Plus_greedy : forall p w sn t cp (k : mstate -> option A) x,
    run1 p w = true -> head_is p t = false ->
    k (MState (rev w ++ sn) t cp) = Some x ->
    rmatch (Plus p) (MState sn (w ++ t) cp) k = Some x.
Proof.
  intros p w sn t cp k x Hw Ht Hk. unfold run1 in Hw. apply andb_true_iff in Hw.
  destruct Hw as [Hne Hw]. destruct w as [|c w]; [discriminate|].
  cbn [forallb] in Hw. apply andb_true_iff in Hw. destruct Hw as [Hc Hw].
  unfold Plus. cbn [rmatch rest app]. rewrite Hc. unfold advance. cbn [seen caps rest].
  apply star_match_greedy; auto. cbn [rev] in Hk. now rewrite <- app_assoc in Hk.
Qed.

End Evaluation.

Lemma head_after_gap : forall (p : ascii -> bool) gap c t,
    forallb is_space gap = true ->
    (forall a, is_space a = true -> p a = false) -> p c = false ->
    head_is p (gap ++ c :: t) = false.
Proof.
  intros p [|a gap] c t Hg Hp Hc; [exact Hc|].
  cbn in *. apply andb_true_iff in Hg. now apply Hp.
Qed.

Lemma space_not_word : forall a, is_space a = true -> is_word a = false.
Proof.
  intro a. destruct a as [[|] [|] [|] [|] [|] [|] [|] [|]]; vm_compute;
    intro H; (reflexivity || discriminate H).
Qed.

Lemma space_not_digit : forall a, is_space a = true -> is_digit a = false.
Proof.
  intro a. destruct a as [[|] [|] [|] [|] [|] [|] [|] [|]]; vm_compute;
    intro H; (reflexivity || discriminate H).
Qed.

Lemma head_of_run : forall (p q : ascii -> bool) w t,
    run1 p w = true -> (forall a, p a = true -> q a = false) ->
    head_is q (w ++ t) = false.
Proof.
  intros p q [|a w] t H Hq; [discriminate|]. unfold run1 in H. cbn in *.
  apply andb_true_iff in H. now apply Hq.
Qed.

Lemma match_reward_call : forall c sn after,
    reward_call_ok c = true ->
    match_here experienceRewardRegex sn (render_reward c ++ after)
    = Some (MatchResult (length sn) (length sn + length (render_reward c))
              (render_reward c) [(2, rc_amount c); (1, rc_skill c)]).
Proof.
  intros [g1 g2 g3 skill g4 g5 amount g6 aft] sn after Hok.
  unfold reward_call_ok in Hok. cbn [rc_gap_new rc_gap_open rc_gap_skill rc_skill
    rc_gap_comma rc_gap_amount rc_amount rc_gap_close rc_after] in *.
  apply andb_true_iff in Hok. destruct Hok as [Hok _].
  apply andb_true_iff in Hok. destruct Hok as [Hok H6].
  apply andb_true_iff in Hok. destruct Hok as [Hok Hamount].
  apply andb_true_iff in Hok. destruct Hok as [Hok H5].
  apply andb_true_iff in Hok. destruct Hok as [Hok H4].
  apply andb_true_iff in Hok. destruct Hok as [Hok Hskill].
  apply andb_true_iff in Hok. destruct Hok as [Hok H3].
  apply andb_true_iff in Hok. destruct Hok as [H1 H2].
  set (R := render_reward _).
  assert (E : rmatch experienceRewardRegex (MState sn (R ++ after) []) (fun st' => Some st')
              = Some (MState (rev R ++ sn) after [(2, amount); (1, skill)])).
  { unfold R, render_reward, experienceRewardRegex.
    cbn [rc_gap_new rc_gap_open rc_gap_skill rc_skill
         rc_gap_comma rc_gap_amount rc_amount rc_gap_close rc_after].
    rewrite <- !app_assoc. cbn [rmatch].
    unfold Lit. rewrite rmatch_Lit_chars.
    apply rmatch_Plus_greedy; [exact H1 | reflexivity|].
    rewrite rmatch_Lit_chars.
    apply rmatch_Star_greedy; [exact H2 | reflexivity|].
    rewrite rmatch_Lit_chars.
    apply rmatch_Star_greedy; [exact H3 | reflexivity|].
    rewrite rmatch_Lit_chars.
    apply rmatch_Plus_greedy;
      [exact Hskill
      | apply head_after_gap; [exact H4 | exact space_not_word | reflexivity]|].
    rewrite consumed_app by reflexivity. cbn [set_cap seen rest caps].
    apply rmatch_Star_greedy; [exact H4 | reflexivity|].
    rewrite rmatch_Lit_chars.
    apply rmatch_Star_greedy;
      [exact H5 | eapply head_of_run; [exact Hamount | exact is_digit_not_space]|].
    apply rmatch_Plus_greedy;
      [exact Hamount
      | apply head_after_gap; [exact H6 | exact space_not_digit | reflexivity]|].
    rewrite consumed_app by reflexivity. cbn [set_cap seen rest caps].
    apply rmatch_Star_greedy; [exact H6 | reflexivity|].
    rewrite rmatch_Lit_chars. f_equal. f_equal.
    rewrite !rev_app_distr, <- !app_assoc. reflexivity. }
  unfold match_here. rewrite E. cbn [seen caps].
  rewrite consumed_app by reflexivity.
  rewrite length_app, length_rev. f_equal. f_equal. lia.
Qed.

Lemma starts_with_prefix : forall key w r,
    starts_with key w = true -> starts_with key (w ++ r) = true.
Proof.
  induction key as [|a key IH]; intros w r H; [reflexivity|].
  destruct w as [|b w]; [discriminate|]. cbn in *.
  apply andb_true_iff in H. destruct H as [Hab H]. now rewrite Hab, IH.
Qed.

(** the search passes over a text in which no match can start *)
Lemma search_no_start : forall re key,
    (forall w, Lang re w -> starts_with key w = true) ->
    forall sep after sn,
      no_start key sep after = true ->
      search re sn (sep ++ after) = search re (rev sep ++ sn) after.
Proof.
  intros re key Hkey. induction sep as [|c sep IH]; intros after sn H; [reflexivity|].
  cbn [no_start] in H. apply andb_true_iff in H. destruct H as [Hc Hsep].
  apply negb_true_iff in Hc. cbn [app search].
  destruct (match_here re sn (c :: sep ++ after)) as [m|] eqn:E.
  - exfalso. apply match_here_sound in E.
    destruct E as (st' & new & _ & [A1 _ _ A4 _ _] & _).
    cbn [rest] in A1. apply Hkey in A4.
    apply (starts_with_prefix _ _ (rest st')) in A4.
    rewrite <- A1 in A4. cbn [app] in Hc. congruence.
  - rewrite (IH after (c :: sn) Hsep). cbn [rev]. now rewrite <- app_assoc.
Qed.

Lemma no_start_new : forall sep after,
    containsb (txt "new") sep = false ->
    after = [] \/ starts_with (txt "new") after = true ->
    no_start (txt "new") sep after = true.
Proof.
  change (txt "new") with ["n"%char; "e"%char; "w"%char].
  induction sep as [|c sep IH]; intros after H Ha; [reflexivity|].
  cbn [containsb] in H. apply orb_false_iff in H. destruct H as [Hc Hsep].
  cbn [no_start]. rewrite (IH after Hsep Ha), andb_true_r. apply negb_true_iff.
  assert (Hn : after = [] \/ exists t, after = "n"%char :: t).
  { destruct Ha as [->|Ha]; [now left|]. right.
    destruct after as [|r1 after]; [discriminate|]. cbn [starts_with] in Ha.
    apply andb_true_iff in Ha. destruct Ha as [Hr _].
    apply Ascii.eqb_eq in Hr. subst r1. now exists after. }
  destruct sep as [|a [|b sep]].
  - destruct Hn as [->|(t & ->)]; cbn [app starts_with].
    + now destruct (Ascii.eqb "n" c).
    + change (Ascii.eqb "e" "n") with false. now destruct (Ascii.eqb "n" c).
  - destruct Hn as [->|(t & ->)]; cbn [app starts_with].
    + destruct (Ascii.eqb "n" c), (Ascii.eqb "e" a); reflexivity.
    + change (Ascii.eqb "w" "n") with false.
      destruct (Ascii.eqb "n" c), (Ascii.eqb "e" a); reflexivity.
  - cbn [app starts_with] in *. exact Hc.
Qed.

Lemma Lang_experienceReward_new : forall w,
    Lang experienceRewardRegex w -> starts_with (txt "new") w = true.
Proof.
  intros w (u & v & -> & Hu & _). apply Lang_Lit_inv in Hu. subst u.
  apply starts_with_app.
Qed.

Lemma render_reward_new : forall c t,
    starts_with (txt "new") (render_reward c ++ t) = true.
Proof.
  intros c t. unfold render_reward. rewrite <- app_assoc. apply starts_with_app.
Qed.

Lemma exec_from_app : forall re (pre rs : text),
    exec_from re (pre ++ rs) (length pre) = search re (rev pre) rs.
Proof.
  intros re pre rs. unfold exec_from.
  assert (Hlt : (length (pre ++ rs) <? length pre) = false).
  { apply Nat.ltb_ge. rewrite length_app. lia. }
  rewrite Hlt, firstn_app, firstn_all, Nat.sub_diag, skipn_length_app. cbn [firstn].
  now rewrite app_nil_r.
Qed.

Lemma search_here : forall re sn rs m,
    match_here re sn rs = Some m -> search re sn rs = Some m.
Proof. intros re sn [|c t] m H; cbn [search]; now rewrite H. Qed.

Lemma exec_loop_rewards : forall cs before pre fuel,
    forallb reward_call_ok cs = true ->
    containsb (txt "new") before = false ->
    length cs < fuel ->
    map (fun m => mkExperienceReward (cap_str m 1) (parseInt (cap_str m 2)))
        (exec_loop fuel experienceRewardRegex (pre ++ render_rewards before cs)
                   (length pre))
    = map reward_of_call cs.
Proof.
  induction cs as [|c cs IH]; intros before pre fuel Hok Hb Hf;
    (destruct fuel as [|fuel]; [cbn [length] in Hf; lia|]); cbn [exec_loop];
    rewrite exec_from_app; unfold render_rewards; cbn [map concat].
  - rewrite (@search_no_start _ _ Lang_experienceReward_new before [] (rev pre));
      [reflexivity|].
    apply no_start_new; auto.
  - cbn [forallb] in Hok. apply andb_true_iff in Hok. destruct Hok as [Hc Hok].
    rewrite <- !app_assoc.
    rewrite (@search_no_start _ _ Lang_experienceReward_new);
      [|apply no_start_new; [exact Hb | right; apply render_reward_new]].
    rewrite (@search_here _ _ _ _ (@match_reward_call c _ _ Hc)).
    cbn [map m_end]. f_equal.
    replace (length (rev before ++ rev pre) + length (render_reward c))
      with (length (pre ++ before ++ render_reward c))
      by (rewrite !length_app, !length_rev; lia).
    replace (pre ++ before ++ render_reward c ++ rc_after c
             ++ concat (map (fun c0 => render_reward c0 ++ rc_after c0) cs))
      with ((pre ++ before ++ render_reward c) ++ render_rewards (rc_after c) cs)
      by (unfold render_rewards; now rewrite <- !app_assoc).
    apply IH; [exact Hok | | cbn [length] in Hf; lia].
    unfold reward_call_ok in Hc. apply andb_true_iff in Hc. destruct Hc as [_ Hc].
    now apply negb_true_iff in Hc.
Qed.

Lemma render_rewards_length : forall cs before,
    length cs <= length (render_rewards before cs).
Proof.
  intros cs before. unfold render_rewards. rewrite length_app.
  induction cs as [|c cs IH]; [simpl; lia|].
  cbn [map concat length]. rewrite !length_app.
  assert (0 < length (render_reward c)).
  { unfold render_reward. rewrite length_app. cbn. lia. }
  lia.
Qed.

(** X9.  A body of [getExperienceRewards] made of calls
    [new ExperienceReward(Skill.NAME, AMOUNT)], written with white space
    wherever the pattern allows it and with any text without [new] before,
    between and after them, is read back call by call: the rewards are
    those of the calls, in the order of the source, a repeated call as
    often as it is written. *)
Theorem parseExperienceRewards_reads_calls :
  forall java before cs,
    forallb reward_call_ok cs = true ->
    containsb (txt "new") before = false ->
    extractMethodBody java (txt "getExperienceRewards")
    = Some (render_rewards before cs) ->
    parseExperienceRewards java = map reward_of_call cs.
Proof.
  intros java before cs Hok Hb H. unfold parseExperienceRewards. rewrite H.
  destruct (render_rewards before cs) as [|a body] eqn:Eb.
  - pose proof (render_rewards_length cs before) as Hl. rewrite Eb in Hl.
    destruct cs; [reflexivity | simpl in Hl; lia].
  - cbn [truthy negb]. rewrite <- Eb. unfold exec_all.
    apply (@exec_loop_rewards cs before [] (S (length (render_rewards before cs))));
      [exact Hok | exact Hb|].
    pose proof (render_rewards_length cs before). lia.
Qed.

Lemma parseExperienceRewards_reads_calls_witness :
  parseExperienceRewards sample_rewards = map reward_of_call sample_reward_calls.
Proof.
  apply (@parseExperienceRewards_reads_calls sample_rewards sample_rewards_before
           sample_reward_calls); vm_compute; reflexivity.
Defined.

(** ** Ids of the wiki tables *)

(** a pattern between [^] and [$] accepts the texts it matches as a whole *)
Lemma test_anchored : forall r s,
    plain r = true -> (test (Bol ;; r ;; Eol) s = true <-> Lang r s).
Proof.
  intros r s Hp. unfold test, exec, exec_from.
  cbn [length Nat.ltb Nat.leb firstn skipn rev]. split.
  - destruct (search (Bol ;; r ;; Eol) [] s) as [m|] eqn:E; [intros _|discriminate].
    apply search_sound in E. destruct E as (pre & rs' & -> & E).
    apply match_here_sound in E. destruct E as (st' & new & Hs & _).
    inversion Hs as [| | | |a0 b0 s0 st1 s2 H1 H2| | | | | |]; subst.
    inversion H1 as [| | | | | | | | |s0 Hseen|]; subst.
    inversion H2 as [| | | |a0 b0 s0 st2 s2 H3 H4| | | | | |]; subst.
    inversion H4 as [| | | | | | | | | |s0 Hrest]; subst.
    cbn [seen] in Hseen. rewrite app_nil_r in Hseen.
    assert (Hpre : pre = []).
    { destruct pre as [|c pre]; [reflexivity|]. simpl in Hseen.
      now apply app_eq_nil in Hseen. }
    subst pre. destruct (Sem_outcome H3) as (w & new' & [A1 _ _ A4 _ _]).
    cbn [rest app] in A1. rewrite Hrest, app_nil_r in A1. now subst rs'.
  - intro Hl.
    destruct (search (Bol ;; r ;; Eol) [] s) as [m|] eqn:E; [reflexivity|]. exfalso.
    apply (@search_complete (Bol ;; r ;; Eol)%re [] s []); [|exact E].
    cbn [rev app]. eapply match_here_complete.
    apply SemCat with (st1 := MState [] s []); [now apply SemBol|].
    apply SemCat with (st1 := MState (rev s ++ []) [] []); [|now apply SemEol].
    rewrite <- (app_nil_r s) at 1. now apply Lang_Sem.
Qed.

Lemma hrefIdRegex_match : forall sn rs m,
    match_here hrefIdRegex sn rs = Some m ->
    exists mark,
      m_text m = mark :: txt "id=" ++ cap_str m 1 /\
      (mark = "?"%char \/ mark = "&"%char).
Proof.
  intros sn rs m H. apply match_here_sound in H.
  destruct H as (st' & new & Hs & [A1 _ A3 _ _ _] & _ & _ & Hc).
  unfold cap_str, cap. rewrite Hc. clear Hc. unfold hrefIdRegex in Hs.
  inversion Hs as [| | | |a0 b0 s0 st1 s2 H1 H2| | | | | |]; subst.
  inversion H2 as [| | | |a0 b0 s0 st2 s2 H3 H4| | | | | |]; subst.
  inversion H4 as [| | | | | | |i0 a0 s0 st3 G| | |]; subst.
  apply no_groups_no_captures in H1; [|reflexivity].
  apply no_groups_no_captures in H3; [|reflexivity].
  apply no_groups_no_captures in G; [|reflexivity].
  destruct H1 as (w1 & R1 & C1 & L1). destruct H3 as (w2 & R2 & C2 & L2).
  destruct G as (w3 & R3 & C3 & _).
  rewrite (@consumed_outcome _ _ _ R3) in *.
  cbn [rest caps set_cap seen] in *.
  rewrite C3, C2, C1 in A3. rewrite app_nil_r in A3. subst new. cbn [assoc_nat Nat.eqb].
  apply Lang_Lit_inv in L2. subst w2.
  destruct L1 as (mark & -> & Hm).
  rewrite R1, R2, R3 in A1. rewrite !app_assoc in A1. apply app_inv_tail in A1.
  exists mark. split; [rewrite <- A1; now rewrite <- !app_assoc|].
  apply orb_true_iff in Hm. unfold chr_eq in Hm.
  destruct Hm as [Hm|Hm]; apply Ascii.eqb_eq in Hm; auto.
Qed.

Lemma idsOfHref_numeric : forall href n,
    In n (idsOfHref href) ->
    exists pre mark value post,
      href = pre ++ mark :: txt "id=" ++ value ++ post /\
      (mark = "?"%char \/ mark = "&"%char) /\
      run1 is_digit value = true /\ n = parseInt value.
Proof.
  intros href n H. unfold idsOfHref in H.
  destruct (exec hrefIdRegex href) as [m|] eqn:E; [|contradiction].
  cbv zeta in H.
  destruct (test digitsOnlyRegex (cap_str m 1)) eqn:Et; [|contradiction].
  destruct H as [<-|[]].
  apply (@test_anchored digits1 _ eq_refl) in Et. apply Lang_Plus_inv in Et.
  destruct (exec_from_here _ _ _ E) as (sn & rs & Hh).
  destruct (hrefIdRegex_match _ _ Hh) as (mark & Ht & Hmark).
  apply exec_sound in E. destruct E as (pre & post & [E1 _ _ _ _ _ _]).
  exists pre, mark, (cap_str m 1), post. split; [|auto].
  rewrite E1, Ht. cbn [app]. now rewrite <- !app_assoc.
Qed.

(** X18.  The ids read from the links of a table cell: every id comes
    from a link in which [?id=] or [&id=] is followed by a run of digits,
    and is the number [parseInt] makes of that run, never [NaN] and never
    negative; a link gives at most one id. *)
Theorem parseIdsFromCell_numeric :
  forall hrefs n,
    In n (parseIdsFromCell hrefs) ->
    length (parseIdsFromCell hrefs) <= length hrefs /\
    reads_digits n /\
    exists href pre mark value post,
      In href hrefs /\
      href = pre ++ mark :: txt "id=" ++ value ++ post /\
      (mark = "?"%char \/ mark = "&"%char) /\
      run1 is_digit value = true /\ n = parseInt value.
Proof.
  intros hrefs n H. split; [|].
  - clear H. unfold parseIdsFromCell. induction hrefs as [|h hs IH]; [simpl; lia|].
    cbn [flat_map length]. rewrite length_app.
    assert (length (idsOfHref h) <= 1); [|lia].
    unfold idsOfHref. destruct (exec hrefIdRegex h); [|simpl; lia].
    cbv zeta. destruct (test digitsOnlyRegex _); simpl; lia.
  - unfold parseIdsFromCell in H. apply in_flat_map in H. destruct H as (href & Hin & H).
    destruct (idsOfHref_numeric _ _ H) as (pre & mark & value & post & E & Hm & Hd & ->).
    split; [now apply parseInt_reads_digits|].
    exists href, pre, mark, value, post. auto.
Qed.

Lemma parseIdsFromCell_numeric_witness :
  length (parseIdsFromCell sample_hrefs) <= length sample_hrefs /\
  reads_digits (JNum 1925) /\
  exists href pre mark value post,
    In href sample_hrefs /\
    href = pre ++ mark :: txt "id=" ++ value ++ post /\
    (mark = "?"%char \/ mark = "&"%char) /\
    run1 is_digit value = true /\ JNum 1925 = parseInt value.
Proof.
  apply (@parseIdsFromCell_numeric sample_hrefs (JNum 1925)).
  vm_compute. left. reflexivity.
Defined.

(** ** Names of the records *)

Lemma capital_of_word : forall c,
    implb (is_word c)
          (is_word (toUpperChar c) && negb (is_lower (toUpperChar c))
           && (is_word (toLowerChar c) && negb (is_upper (toLowerChar c)))) = true.
Proof. intro c. all_characters c. Qed.

Lemma skillEnumToDisplay_capitalised : forall s,
    run1 is_word s = true -> is_capitalised (skillEnumToDisplay s) = true.
Proof.
  intros [|c s] H; [discriminate|]. unfold run1 in H. cbn [truthy forallb andb] in H.
  apply andb_true_iff in H. destruct H as [Hc Hs].
  unfold skillEnumToDisplay. cbn [firstn skipn toUpperCase toLowerCase map app is_capitalised].
  pose proof (capital_of_word c) as Hcap. rewrite Hc in Hcap. cbn [implb] in Hcap.
  apply andb_true_iff in Hcap. destruct Hcap as [Hcap _]. rewrite Hcap. cbn [andb].
  rewrite forallb_map_text. revert Hs. apply forallb_implies. intros a Ha.
  pose proof (capital_of_word a) as Hl. rewrite Ha in Hl. cbn [implb] in Hl.
  now apply andb_true_iff in Hl.
Qed.

Lemma blank_of_word : forall c,
    implb (is_word c)
          (letter_digit_or_blank (underscore_to_blank c)) = true.
Proof. intro c. all_characters c. Qed.

Lemma upper_letter_digit_or_blank : forall c,
    letter_digit_or_blank (toUpperChar c) = letter_digit_or_blank c.
Proof. intro c. all_characters c. Qed.

Lemma title_case_forallb : forall (q : ascii -> bool) s inside,
    (forall c, q (toUpperChar c) = q c) ->
    forallb q (title_case inside s) = forallb q s.
Proof.
  intros q. induction s as [|c s IH]; intros inside Hq; [reflexivity|].
  cbn [title_case forallb]. rewrite (IH _ Hq).
  now destruct (negb inside && is_word c); [rewrite Hq|].
Qed.

Lemma questEnumToDisplay_letters : forall id,
    run1 is_word id = true -> run1 letter_digit_or_blank (questEnumToDisplay id) = true.
Proof.
  intros id H. unfold run1 in *. apply andb_true_iff in H. destruct H as [Hn Hw].
  unfold questEnumToDisplay. rewrite replace_underscores, replace_word_starts.
  apply andb_true_iff. split.
  - destruct id; [discriminate | reflexivity].
  - rewrite title_case_forallb by apply upper_letter_digit_or_blank.
    rewrite forallb_map_text. revert Hw. apply forallb_implies. intros c Hc.
    pose proof (blank_of_word c) as Hb. now rewrite Hc in Hb.
Qed.

Lemma capture_word : forall re gs input m i,
    In m (exec_all re input) ->
    groups re = gs ->
    In i (sure_groups re) ->
    (forall a, In (i, a) gs -> a = word1) ->
    run1 is_word (cap_str m i) = true.
Proof.
  intros re gs input m i H <- Hs Hg. apply exec_all_In in H.
  destruct H as (from & pre & post & Hm).
  destruct (sure_group_capture _ Hm Hs) as (v & a & Hc & Ha & Hl).
  unfold cap_str. rewrite Hc. rewrite (Hg _ Ha) in Hl. now apply Lang_Plus_inv.
Qed.

Ltac word_group :=
  match goal with
  | |- In _ _ => vm_compute; tauto
  | |- forall a, In _ _ -> _ =>
      let a := fresh "a" in
      let Ha := fresh "Ha" in
      intros a Ha; cbn [In] in Ha;
      repeat (destruct Ha as [Ha|Ha]; [inversion Ha; subst; try reflexivity; lia|]);
      contradiction
  end.

Lemma In_fold_push_unique : forall names n,
    In n (fold_left push_unique names []) -> In n names.
Proof.
  intros names n H. rewrite fold_push_unique in H. cbn [app] in H.
  apply filter_In in H. destruct H as [H _]. apply first_seen_In. exact H.
Qed.

Lemma Lang_lampAny : forall w,
    Lang (Star not_quote ;; Chr A_or_a ;; Lit "ny" ;; Star not_quote) w ->
    run1 not_quote w = true.
Proof.
  intros w (u & v & -> & Hu & (a & v2 & -> & (c & -> & Hc) & (n & v3 & -> & Hn & Hv))).
  cbn [Lang] in Hu, Hv. apply Lang_Lit_inv in Hn. subst n.
  assert (Hq : not_quote c = true).
  { apply orb_true_iff in Hc. unfold chr_eq in Hc.
    destruct Hc as [Hc|Hc]; apply Ascii.eqb_eq in Hc; subst c; reflexivity. }
  unfold run1. apply andb_true_iff. split.
  - destruct u; reflexivity.
  - rewrite !forallb_app, Hu, Hv. cbn [forallb]. rewrite Hq. reflexivity.
Qed.

Lemma parseLampRewards_skills : forall java l,
    parseLampRewards java = Some l -> run1 not_quote (skills l) = true.
Proof.
  intros java l H. unfold parseLampRewards in H.
  destruct (extractMethodBody java (txt "getItemRewards")) as [body|]; [|discriminate].
  destruct (negb (truthy body)); [discriminate|].
  destruct (map m_text (exec_all lampRegex body)) as [|first others]; [discriminate|].
  inversion H; subst l; clear H. cbn [skills].
  destruct (exec lampSkillsRegex first) as [m|] eqn:E1; cbn [or_else].
  - apply exec_sound in E1. destruct E1 as (pre & post & Hm).
    destruct (@sure_group_capture _ _ _ _ _ _ 1 Hm) as (v & a & Hc & Ha & Hl).
    { vm_compute. tauto. }
    unfold cap_str. rewrite Hc.
    change (groups lampSkillsRegex) with [(1, Plus not_quote)] in Ha.
    destruct Ha as [Ha|[]]. inversion Ha; subst a. now apply Lang_Plus_inv.
  - destruct (exec lampAnyRegex first) as [m|] eqn:E2; [|reflexivity].
    apply exec_sound in E2. destruct E2 as (pre & post & Hm).
    destruct (@sure_group_capture _ _ _ _ _ _ 1 Hm) as (v & a & Hc & Ha & Hl).
    { vm_compute. tauto. }
    unfold cap_str. rewrite Hc.
    change (groups lampAnyRegex)
      with [(1, (Star not_quote ;; Chr A_or_a ;; Lit "ny" ;; Star not_quote)%re)] in Ha.
    destruct Ha as [Ha|[]]. inversion Ha; subst a. now apply Lang_lampAny.
Qed.

(** X7.  The names in the rewards and requirements of a record.  The
    skill of a skill requirement is a capitalised word: letters, digits
    and underscores, no small letter at its start and no capital after
    it.  The skill of an experience reward is the identifier as the source
    has it.  A quest requirement is made of letters, digits and blanks.
    The skills of a lamp reward hold no double quote.  None of them is
    empty. *)
Theorem extracted_names_shape :
  forall java,
    Forall (fun r => is_capitalised (skillName r) = true)
           (g_skillRequirements (parseGeneralRequirements java)) /\
    Forall (fun r => run1 is_word (skill r) = true) (parseExperienceRewards java) /\
    Forall (fun n => run1 letter_digit_or_blank n = true)
           (g_questRequirements (parseGeneralRequirements java)) /\
    (forall l, parseLampRewards java = Some l -> run1 not_quote (skills l) = true).
Proof.
  intro java. split; [|split; [|split]].
  - unfold parseGeneralRequirements.
    destruct (extractMethodBody java (txt "getGeneralRequirements")) as [body|];
      [|constructor].
    destruct (negb (truthy body)); [constructor|]. cbn [g_skillRequirements].
    apply Forall_forall. intros r Hr. apply in_map_iff in Hr.
    destruct Hr as (m & <- & Hm). cbn [skillName].
    apply skillEnumToDisplay_capitalised.
    apply (@capture_word _ [(1, word1); (2, digits1)] _ _ 1 Hm eq_refl); word_group.
  - unfold parseExperienceRewards.
    destruct (extractMethodBody java (txt "getExperienceRewards")) as [body|];
      [|constructor].
    destruct (negb (truthy body)); [constructor|].
    apply Forall_forall. intros r Hr. apply in_map_iff in Hr.
    destruct Hr as (m & <- & Hm). cbn [skill].
    apply (@capture_word _ [(1, word1); (2, digits1)] _ _ 1 Hm eq_refl); word_group.
  - unfold parseGeneralRequirements.
    destruct (extractMethodBody java (txt "getGeneralRequirements")) as [body|];
      [|constructor].
    destruct (negb (truthy body)); [constructor|]. cbn [g_questRequirements].
    apply Forall_forall. intros n Hn.
    rewrite (fold_left_map push_unique (fun m => questEnumToDisplay (cap_str m 1))) in Hn.
    apply In_fold_push_unique in Hn. apply in_map_iff in Hn.
    destruct Hn as (m & <- & Hm). apply questEnumToDisplay_letters.
    apply (@capture_word _ [(1, word1)] _ _ 1 Hm eq_refl); word_group.
  - apply parseLampRewards_skills.
Qed.

(** ** Where the item requirements come from *)

Lemma map_get_In_values : forall (V : Type) (m : jsmap V) k v,
    map_get m k = Some v -> In v (map snd m).
Proof.
  intros V. induction m as [|[k' v'] m IH]; intros k v H; simpl in *; [discriminate|].
  destruct (text_eqb k k'); [inversion H; auto | right; eauto].
Qed.

Lemma In_values_map_set : forall (V : Type) (m : jsmap V) k v a,
    In a (map snd (map_set m k v)) -> a = v \/ In a (map snd m).
Proof.
  intros V. induction m as [|[k' v'] m IH]; intros k v a H; simpl in *.
  - destruct H as [H|[]]. auto.
  - destruct (text_eqb k k'); simpl in H.
    + destruct H as [H|H]; auto.
    + destruct H as [H|H]; [auto|]. apply IH in H. tauto.
Qed.

Lemma resolve_value : forall D A f n d,
    resolve f D A n = Resolved d -> In d (map snd D).
Proof.
  intros D A. induction f as [|f IH]; intros n d H; [discriminate|].
  cbn [resolve] in H.
  assert (Hvia : match map_get A n with
                 | Some target => if truthy target then resolve f D A target else Unresolved
                 | None => Unresolved
                 end = Resolved d -> In d (map snd D)).
  { destruct (map_get A n) as [target|]; [|discriminate].
    destruct (truthy target); [apply IH | discriminate]. }
  destruct (map_get D n) as [direct|] eqn:Ed; [|exact (Hvia H)].
  destruct (truthy direct); [|exact (Hvia H)].
  inversion H; subst. eapply map_get_In_values; eauto.
Qed.

Lemma resolve_aliases_values : forall D A keys r0 r d,
    resolve_aliases D A keys r0 = Normal r ->
    In d (map snd r) -> In d (map snd r0) \/ In d (map snd D).
Proof.
  intros D A. induction keys as [|k keys IH]; intros r0 r d H Hd; cbn [resolve_aliases] in H.
  - inversion H; subst. auto.
  - destruct (resolve (resolve_depth A) D A k) as [resolved| |] eqn:Er; [| |discriminate].
    + destruct (IH _ _ _ H Hd) as [Hr|Hr]; [|auto].
      destruct (truthy resolved); [|auto].
      apply In_values_map_set in Hr. destruct Hr as [->|Hr]; [|auto].
      right. eapply resolve_value; eauto.
    + eapply IH; eauto.
Qed.

Lemma copy_values : forall (D acc : jsmap text) d,
    In d (map snd (fold_left (fun r kv => map_set r (fst kv) (snd kv)) D acc)) ->
    In d (map snd acc) \/ In d (map snd D).
Proof.
  induction D as [|[k v] D IH]; intros acc d H; cbn [fold_left] in H; [auto|].
  apply IH in H. cbn [map snd fst] in *. destruct H as [H|H]; [|simpl; auto].
  apply In_values_map_set in H. destruct H as [->|H]; simpl; auto.
Qed.

Lemma setup_result_values : forall D A r d,
    setup_result D A = Normal r -> In d (map snd r) -> In d (map snd D).
Proof.
  intros D A r d H Hd. unfold setup_result in H.
  destruct (@resolve_aliases_values _ _ _ _ _ _ H Hd) as [Hc|Hc]; [|exact Hc].
  apply copy_values in Hc. destruct Hc as [[]|Hc]. exact Hc.
Qed.

Lemma collect_pairs_values : forall ms acc d,
    In d (map snd (fold_left (fun mp m => map_set mp (cap_str m 1) (cap_str m 2)) ms acc)) ->
    In d (map snd acc) \/ exists m, In m ms /\ cap_str m 2 = d.
Proof.
  induction ms as [|m ms IH]; intros acc d H; cbn [fold_left] in H; [auto|].
  apply IH in H. destruct H as [H|(m' & Hin & E)].
  - apply In_values_map_set in H. destruct H as [->|H]; [|auto].
    right. exists m. simpl. auto.
  - right. exists m'. simpl. auto.
Qed.

(** X5.  Every item requirement of a record is a display string of the
    source: it is not empty, and it is the string literal of a
    [new ItemRequirement(...)] assigned in [setupRequirements].  Following
    aliases brings no other string into the record. *)
Theorem itemRequirements_from_source :
  forall java setupReqs d,
    parseSetupRequirements java = Normal setupReqs ->
    In d (resolveItemRequirements (parseItemRequirementVarNames java) setupReqs) ->
    d <> [] /\
    exists body m,
      extractMethodBody java (txt "setupRequirements") = Some body /\
      In m (exec_all itemRequirementRegex body) /\
      cap_str m 2 = d.
Proof.
  intros java setupReqs d H Hd.
  assert (E : resolveItemRequirements (parseItemRequirementVarNames java) setupReqs
              = first_seen (displays_of setupReqs (parseItemRequirementVarNames java))).
  { unfold resolveItemRequirements. rewrite resolve_items_fold, fold_push_unique.
    cbn [app]. apply filter_nothing_seen. }
  rewrite E in Hd. apply -> first_seen_In in Hd. apply -> In_displays_of in Hd.
  destruct Hd as (v & _ & Hg & Hne). split; [exact Hne|].
  apply map_get_In_values in Hg. unfold parseSetupRequirements in H.
  destruct (extractMethodBody java (txt "setupRequirements")) as [body|];
    [|inversion H; subst; contradiction].
  destruct (negb (truthy body)); [inversion H; subst; contradiction|].
  exists body. apply (@setup_result_values _ _ _ _ H) in Hg.
  unfold collect_pairs in Hg. apply collect_pairs_values in Hg.
  destruct Hg as [[]|(m & Hin & Em)]. exists m. auto.
Qed.

Lemma itemRequirements_from_source_witness :
  txt "Pot of flour" <> [] /\
  exists body m,
    extractMethodBody sample_items (txt "setupRequirements") = Some body /\
    In m (exec_all itemRequirementRegex body) /\
    cap_str m 2 = txt "Pot of flour".
Proof.
  apply (@itemRequirements_from_source sample_items sample_items_table).
  - vm_compute. reflexivity.
  - vm_compute. tauto.
Defined.

(** X16.  The record of a source that declares no class, for a display
    name in ASCII: its name is the display name, and its slug is the
    display name without white space and apostrophes, in small letters. *)
Theorem extract_slug_of_display_name :
  forall displayName java slug data,
    forallb is_ascii displayName = true ->
    extract displayName java = Normal (slug, data) ->
    extractClassName java = [] ->
    name data = displayName /\
    slug = toLowerCase (name_letters displayName).
Proof.
  intros displayName java slug data _ H Hcn. unfold extract in H. rewrite Hcn in H.
  cbn [truthy] in H.
  destruct (parseSetupRequirements java) as [setupReqs|]; [|discriminate].
  inversion H; subst slug data; clear H. cbn [name]. split; [reflexivity|].
  now rewrite classNameToFolder_lower, displayNameToClassName_lower.
Qed.

Lemma extract_slug_of_display_name_witness :
  name classless_record = sample_display_name /\
  txt "cooksassistant" = toLowerCase (name_letters sample_display_name).
Proof.
  apply (@extract_slug_of_display_name sample_display_name classless_source
           (txt "cooksassistant") classless_record).
  - vm_compute. reflexivity.
  - vm_compute. reflexivity.
  - vm_compute. reflexivity.
Defined.

(** ** Characters of a description *)

Lemma read_fragment_plain : forall n s,
    length s <= n -> forallb is_plain_char (fst (read_fragment s)) = true.
Proof.
  induction n as [|n IH]; intros s H.
  - destruct s; [reflexivity | simpl in H; lia].
  - destruct s as [|c t]; [reflexivity|]. cbn [read_fragment]. simpl in H.
    destruct (Ascii.eqb c backslash) eqn:Eb.
    + destruct t as [|c' t']; [reflexivity|]. apply IH. simpl in H. lia.
    + destruct (Ascii.eqb c dquote) eqn:Eq; [reflexivity|].
      specialize (IH t ltac:(lia)). destruct (read_fragment t) as [frag r].
      cbn [fst forallb] in *. unfold is_plain_char at 1. now rewrite Eq, Eb, IH.
Qed.

Lemma read_parts_plain : forall fuel s,
    forallb is_plain_char (concat (read_parts fuel s)) = true.
Proof.
  induction fuel as [|fuel IH]; intro s; [reflexivity|].
  cbn [read_parts]. destruct s as [|c t]; [reflexivity|].
  pose proof (@read_fragment_plain (length t) t (le_n _)) as Hf.
  destruct (read_fragment t) as [frag r]. cbn [fst] in Hf.
  cbn [concat]. rewrite forallb_app, Hf. cbn [andb].
  destruct (drop_while is_space r) as [|c' r2]; [reflexivity|].
  destruct (Ascii.eqb c' "+"); [|reflexivity].
  destruct (head_is (chr_eq dquote) (drop_while is_space r2)); [apply IH | reflexivity].
Qed.

Lemma steps_values_set : forall body ms acc s,
    In s (map snd (fold_left (set_step body) ms acc)) ->
    In s (map snd acc) \/ exists m, In m ms /\ s = step_of_match body m.
Proof.
  intros body. induction ms as [|m ms IH]; intros acc s H; cbn [fold_left] in H; [auto|].
  apply IH in H. destruct H as [H|(m' & Hin & E)].
  - unfold set_step in H. apply In_values_map_set in H. destruct H as [->|H]; [|auto].
    right. exists m. simpl. auto.
  - right. exists m'. simpl. auto.
Qed.

Lemma steps_values_set_if_absent : forall body ms acc s,
    In s (map snd (fold_left (set_step_if_absent body) ms acc)) ->
    In s (map snd acc) \/ exists m, In m ms /\ s = step_of_match body m.
Proof.
  intros body. induction ms as [|m ms IH]; intros acc s H; cbn [fold_left] in H; [auto|].
  apply IH in H. destruct H as [H|(m' & Hin & E)].
  - unfold set_step_if_absent in H. destruct (map_has acc (cap_str m 1)); [auto|].
    apply In_values_map_set in H. destruct H as [->|H]; [|auto].
    right. exists m. simpl. auto.
  - right. exists m'. simpl. auto.
Qed.

(** X11.  No description holds a double quote or a backslash: whatever
    the position the reading starts at, the text read has neither, and so
    has the description of every step of the step table. *)
Theorem step_descriptions_plain :
  forall java,
    (forall body openQuoteIndex,
        forallb is_plain_char (readConcatenatedString body openQuoteIndex) = true) /\
    Forall (fun s => forallb is_plain_char (stepDescription s) = true)
           (map snd (parseSetupSteps java)).
Proof.
  intro java.
  assert (Hr : forall body openQuoteIndex,
             forallb is_plain_char (readConcatenatedString body openQuoteIndex) = true).
  { intros body i. unfold readConcatenatedString. apply read_parts_plain. }
  split; [exact Hr|]. apply Forall_forall. intros s Hs. unfold parseSetupSteps in Hs.
  destruct (extractMethodBody java (txt "setupSteps")) as [body|]; [|contradiction].
  destruct (negb (truthy body)); [contradiction|]. unfold steps_of_body in Hs.
  apply steps_values_set_if_absent in Hs. destruct Hs as [Hs|(m & _ & ->)].
  - apply steps_values_set in Hs. destruct Hs as [[]|(m & _ & ->)]. apply Hr.
  - apply Hr.
Qed.

(** ** The depth of a resolution *)

(** X2.  A call of [resolve] nests one call for every alias it follows.
    With an alias table without circles, a budget of nested calls larger
    than the number of aliases is never used up, and the result is then
    the same under every larger budget; a call that does use up a budget
    has followed a chain of as many aliases as the budget, all different.
    So a table without circles overflows the stack only along a chain of
    aliases that is as long as the stack allows. *)
Theorem resolve_within_frames :
  forall D A frames n,
    acyclic A ->
    (length A < frames ->
     resolve frames D A n <> StackOverflow /\
     forall more, frames <= more -> resolve more D A n = resolve frames D A n) /\
    (resolve frames D A n = StackOverflow ->
     exists passed,
       length passed = frames /\ alias_chain A n passed /\ NoDup passed).
Proof.
  intros D A frames n Hac. split.
  - intro Hlen.
    pose proof (@resolve_acyclic_returns D A n Hac) as Hret.
    assert (E : resolve frames D A n = resolve (resolve_depth A) D A n).
    { apply resolve_more_fuel; [exact Hret | unfold resolve_depth; lia]. }
    split; [now rewrite E|].
    intros more Hmore. rewrite E.
    apply resolve_more_fuel; [exact Hret | unfold resolve_depth; lia].
  - intro H. apply overflow_chain in H. destruct H as (passed & Hlen & Hc).
    exists passed. split; [exact Hlen|]. split; [exact Hc|].
    exact (@alias_chain_NoDup A Hac passed n Hc).
Qed.

Lemma resolve_within_frames_witness :
  resolve 4 (displayByVar_of aliased_requirements_body)
          (alias_of aliased_requirements_body) (txt "bucketInBank") <> StackOverflow /\
  forall more,
    4 <= more ->
    resolve more (displayByVar_of aliased_requirements_body)
            (alias_of aliased_requirements_body) (txt "bucketInBank")
    = resolve 4 (displayByVar_of aliased_requirements_body)
              (alias_of aliased_requirements_body) (txt "bucketInBank").
Proof.
  assert (Hac : acyclic (alias_of aliased_requirements_body))
    by (apply acyclicb_sound; vm_compute; reflexivity).
  apply (proj1 (@resolve_within_frames (displayByVar_of aliased_requirements_body)
                  (alias_of aliased_requirements_body) 4 (txt "bucketInBank") Hac)).
  vm_compute. lia.
Defined.

(** ** The declaration of the requested name *)























